(** * Verification of the CARP route engine (Grafos, etapa2 / etapa3)

    Shallow embedding of [src/etapa3/algoritmo_construtivo.py] (the
    multi-start Clarke-Wright/GRASP engine with its local searches and the
    serializer), of [src/etapa2] (the savings constructor, GRASP with its
    2-opt, the swaps between routes and the serializer) and of the two
    functions of [src/etapa3/leitor_grafo.py] that prepare the engine's
    input (the services and the distance matrix).  Python integers are [Z],
    list positions are [nat], lists assigned by index use stdpp's lookup
    and insert, dictionaries are [gmap], exceptions and the exhaustion of
    loop fuel are outcomes of the [res] monad, and a missing dictionary key
    is an outcome of the [acesso] monad.

    Conventions: for the engine the distance matrix is a total function
    with integer entries (every vertex is a key, and the [float('inf')] of
    unreachable pairs is outside its model), while the reader's dictionary
    keeps [float('inf')] as [Inf]; the pool size [k] is not negative;
    [print] is left out; the driver is modelled with [freq_hz=None]; the
    state of the module-level generator of [random] and the readings of
    [time.perf_counter_ns] are passed explicitly, and what the other threads
    of [main] do to that generator between two accesses of a pipeline is
    given by an agenda ([compartilhado]); a set that the code iterates is
    given as the list of its elements in iteration order. *)

From Stdlib Require Import ZArith Lia String Ascii DecimalString Sorted.
From stdpp Require Import base list gmap.

Local Open Scope Z_scope.
#[local] Set Warnings "-clear-no-such-hyp".

(** ** Data model *)

(** [serv['tipo']] as written by [extrair_servicos]. *)
Inductive tipo_servico := vertice | aresta | arco.

(** A service dictionary, with the keys of [extrair_servicos]. *)
Record servico := Servico {
  id_servico : Z;
  tipo : tipo_servico;
  origem : Z;
  destino : Z;
  demanda : Z;
  custo_servico : Z
}.

Abbreviation rota := (list servico).

(** [matriz_distancias[u][v]]: the all-pairs oracle, total over the vertices. *)
Definition matriz := Z → Z → Z.

(** ** Outcomes: a value, a Python exception, or loop fuel exhausted *)

Inductive excecao :=
| IndexError            (* list index out of range, choice from an empty list *)
| ValueError            (* etapa2: demand larger than the capacity *)
| ErroConstrucaoGRASP   (* raise Exception(...) of clarke_wright_grasp *)
| ErroSegmentRelocate.  (* raise Exception(...) of segment_relocate *)

Inductive res (A : Type) :=
| Ok (a : A)
| Raise (e : excecao)
| OutOfFuel.
Arguments Ok {A} a.
Arguments Raise {A} e.
Arguments OutOfFuel {A}.

#[global] Instance res_ret : MRet res := λ A a, Ok a.
#[global] Instance res_bind : MBind res := λ A B k c,
  match c with
  | Ok a => k a
  | Raise e => Raise e
  | OutOfFuel => OutOfFuel
  end.

(** [l[i]] for [0 <= i]: IndexError out of range. *)
Definition item {A} (l : list A) (i : nat) : res A :=
  match l !! i with
  | Some a => Ok a
  | None => Raise IndexError
  end.

(** First hit of a scan that is left by [break] as soon as a move is applied:
    [f a = Ok None] means "nothing done at [a], go on". *)
Fixpoint varre {A B} (f : A → res (option B)) (l : list A) : res (option B) :=
  match l with
  | [] => Ok None
  | a :: l' =>
    match f a with
    | Ok None => varre f l'
    | r => r
    end
  end.

(** Python's [sum] over integers. *)
Definition soma (l : list Z) : Z := foldr Z.add 0 l.

(** Truth value of a list ([if rota], [if not rota]). *)
Definition nao_vazia {A} (l : list A) : bool :=
  match l with [] => false | _ :: _ => true end.

(** [range(a, b)] *)
Definition range (a b : nat) : list nat := seq a (b - a).

(** Set comparison of two id lists ([set(a) != set(b)]) and the number of
    distinct ids ([len(set(a))]). *)
Definition pertence (x : Z) (l : list Z) : bool := existsb (Z.eqb x) l.

Definition mesmo_conjunto (a b : list Z) : bool :=
  forallb (λ x, pertence x b) a && forallb (λ x, pertence x a) b.

Fixpoint distintos (l : list Z) : list Z :=
  match l with
  | [] => []
  | x :: l' => if pertence x l' then distintos l' else x :: distintos l'
  end.

(** ** The random source

    [random.seed(n)] installs the state [semente n]; [random.choice(seq)]
    draws a position below [len(seq)] and advances the state.  The generator
    itself (Mersenne Twister) is kept abstract. *)
Record prng := Prng {
  estado : Type;
  semente : Z → estado;
  sorteia : nat → estado → nat * estado;
  sorteia_lt : ∀ n g, (0 < n)%nat → ((sorteia n g).1 < n)%nat
}.

(** [random.choice(seq)] *)
Definition choice {A} (R : prng) (seq : list A) (g : estado R) : res (A * estado R) :=
  match seq with
  | [] => Raise IndexError
  | _ :: _ =>
    let '(n, g') := sorteia R (length seq) g in
    a ← item seq n; Ok (a, g')
  end.

(** ** etapa3: the engine *)

Module Etapa3.

Section Custo.
Variable matriz_distancias : matriz.
Variable deposito : Z.

(** [rota_custo(rota, matriz_distancias, deposito)] *)
Definition rota_custo (r : rota) : Z :=
  match r with
  | [] => 0
  | _ :: _ =>
    let custo_servico_ := soma (custo_servico <$> r) in
    let destinos := destino <$> r in
    let custo_transporte := matriz_distancias deposito (List.hd 0 destinos) in
    let custo_transporte :=
      custo_transporte +
      soma ((λ i, matriz_distancias (nth i destinos 0) (nth (S i) destinos 0))
              <$> range 0 (length destinos - 1)) in
    let custo_transporte :=
      custo_transporte + matriz_distancias (List.last destinos 0) deposito in
    custo_servico_ + custo_transporte
  end.

(** [melhor_rota[:i] + melhor_rota[i:j][::-1] + melhor_rota[j:]] *)
Definition inverte_trecho (melhor_rota : rota) (i j : nat) : rota :=
  take i melhor_rota ++ reverse (take (j - i) (drop i melhor_rota)) ++ drop j melhor_rota.

(** Body of the inner [for j] of [two_opt]: the state is
    [(melhor_rota, melhorou)]; an improving reversal replaces [melhor_rota]
    and the scan goes on (there is no [break] in the two [for]). *)
Definition two_opt_passo (i : nat) (st : rota * bool) (j : nat) : rota * bool :=
  let nova_rota := inverte_trecho st.1 i j in
  if rota_custo nova_rota <? rota_custo st.1 then (nova_rota, true) else st.

(** The two nested [for] of one pass of the [while]. *)
Definition two_opt_varredura (melhor_rota : rota) : rota * bool :=
  foldl (λ st i, foldl (two_opt_passo i) st (range (i + 1) (length st.1)))
        (melhor_rota, false)
        (range 1 (length melhor_rota - 1)).

(** The [while melhorou] of [two_opt]; [if melhorou: break] sits at the
    level of the [while] body, after the two [for]. *)
Fixpoint two_opt_while (fuel : nat) (melhorou : bool) (melhor_rota : rota) : res rota :=
  if melhorou then
    match fuel with
    | O => OutOfFuel
    | S fuel' =>
      let '(melhor_rota', melhorou') := two_opt_varredura melhor_rota in
      if melhorou' then Ok melhor_rota'           (* break *)
      else two_opt_while fuel' melhorou' melhor_rota'
    end
  else Ok melhor_rota.

(** [two_opt(rota, matriz_distancias, deposito)] *)
Definition two_opt (fuel : nat) (r : rota) : res rota :=
  if (length r <? 3)%nat then Ok r
  else two_opt_while fuel true r.

End Custo.

(** *** Construction: Clarke-Wright savings with GRASP choice *)

(** [construir_rotas_iniciais]: one route per service; [deposito],
    [matriz_distancias] and [capacidade] are received and not used. *)
Definition construir_rotas_iniciais (servicos : list servico) (deposito : Z)
    (matriz_distancias : matriz) (capacidade : Z) : list rota * list Z :=
  foldl (λ '(rotas, demandas) serv,
           let demanda_ := demanda serv in
           (rotas ++ [[serv]], demandas ++ [demanda_]))
        ([], []) servicos.

(** A saving [(saving, i, j)]. *)
Definition saving : Type := Z * nat * nat.

(** Tuple order [a < b], lexicographic as Python compares tuples. *)
Definition saving_ltb (a b : saving) : bool :=
  let '(sa, ia, ja) := a in
  let '(sb, ib, jb) := b in
  (sa <? sb) ||
  ((sa =? sb) && ((ia <? ib)%nat || ((ia =? ib)%nat && (ja <? jb)%nat))).

Definition saving_eqb (a b : saving) : bool :=
  let '(sa, ia, ja) := a in
  let '(sb, ib, jb) := b in
  (sa =? sb) && (ia =? ib)%nat && (ja =? jb)%nat.

(** [savings.sort(reverse=True)]: descending insertion. *)
Fixpoint insere_desc (x : saving) (l : list saving) : list saving :=
  match l with
  | [] => [x]
  | y :: l' => if saving_ltb x y then y :: insere_desc x l' else x :: l
  end.

Definition sort_reverse (l : list saving) : list saving := foldr insere_desc [] l.

(** [calcular_savings(servicos, deposito, matriz_distancias)]: the pairs
    [i < j] in the order of the two [for], then sorted. *)
Definition calcular_savings (servicos : list servico) (deposito : Z)
    (matriz_distancias : matriz) : list saving :=
  let savings :=
    mjoin (imap (λ i s_i,
             imap (λ dj s_j,
                     (matriz_distancias deposito (destino s_i)
                      + matriz_distancias deposito (destino s_j)
                      - matriz_distancias (destino s_i) (destino s_j),
                      i, (i + 1 + dj)%nat))
                  (drop (i + 1) servicos))
           servicos) in
  sort_reverse savings.

(** [list.remove(x)]: the first equal element goes. *)
Fixpoint remove_saving (x : saving) (l : list saving) : list saving :=
  match l with
  | [] => []
  | y :: l' => if saving_eqb x y then l' else y :: remove_saving x l'
  end.

(** The [for idx, rota in enumerate(rotas)] that looks for the route that
    starts with service [id_i] and the one that ends with [id_j]; a later
    match overwrites an earlier one. *)
Definition busca_rotas (rotas : list rota) (id_i id_j : Z) : option nat * option nat :=
  foldl (λ '(idx_i, idx_j) '(idx, r),
           let idx_i :=
             match head r with
             | Some s => if id_servico s =? id_i then Some idx else idx_i
             | None => idx_i
             end in
           let idx_j :=
             match last r with
             | Some s => if id_servico s =? id_j then Some idx else idx_j
             | None => idx_j
             end in
           (idx_i, idx_j))
        (None, None) (imap pair rotas).

(** The guarded merge of the two routes found. *)
Definition funde (capacidade : Z) (rotas : list rota) (demandas : list Z)
    (idx_i idx_j : option nat) : res (list rota * list Z) :=
  match idx_i, idx_j with
  | Some a, Some b =>
    if bool_decide (a ≠ b) then
      d_a ← item demandas a;
      d_b ← item demandas b;
      if d_a + d_b <=? capacidade then
        r_a ← item rotas a;
        r_b ← item rotas b;
        let rotas := <[a := r_a ++ r_b]> rotas in
        let demandas := <[a := d_a + d_b]> demandas in
        let rotas := <[b := []]> rotas in
        let demandas := <[b := 0]> demandas in
        Ok (rotas, demandas)
      else Ok (rotas, demandas)
    else Ok (rotas, demandas)
  | _, _ => Ok (rotas, demandas)
  end.

(** [rotas = [r for r in rotas if r]] followed by
    [demandas = [d for r, d in zip(rotas, demandas) if r]]: the second
    comprehension zips the list that was already filtered. *)
Definition poda_apos_filtro (rotas : list rota) (demandas : list Z) : list rota * list Z :=
  let rotas := List.filter nao_vazia rotas in
  let demandas := snd <$> List.filter (λ rd, nao_vazia rd.1) (zip rotas demandas) in
  (rotas, demandas).

(** Ids of all the services of all the routes, in order. *)
Definition ids_nas_rotas (rotas : list rota) : list Z :=
  id_servico <$> mjoin rotas.

Section Construtivo.
Variable R : prng.
Variable servicos : list servico.
Variable deposito : Z.
Variable matriz_distancias : matriz.
Variable capacidade : Z.
Variable k : nat.

(** The [while savings_disponiveis] of [clarke_wright_grasp].  The two
    services [servicos[i]] and [servicos[j]] are read once, ahead of the
    [for] that compares their ids with the ends of every route. *)
Fixpoint cw_while (fuel : nat) (savings_disponiveis : list saving)
    (rotas : list rota) (demandas : list Z) (g : estado R)
    : res (list rota * list Z * estado R) :=
  match savings_disponiveis with
  | [] => Ok (rotas, demandas, g)
  | _ :: _ =>
    match fuel with
    | O => OutOfFuel
    | S fuel' =>
      let top_k := take k savings_disponiveis in
      '(saving_escolhido, g) ← choice R top_k g;
      let '(_, i, j) := saving_escolhido in
      s_i ← item servicos i;
      s_j ← item servicos j;
      let '(idx_i, idx_j) := busca_rotas rotas (id_servico s_i) (id_servico s_j) in
      '(rotas, demandas) ← funde capacidade rotas demandas idx_i idx_j;
      cw_while fuel' (remove_saving saving_escolhido savings_disponiveis) rotas demandas g
    end
  end.

(** [clarke_wright_grasp(servicos, deposito, matriz_distancias, capacidade, k)];
    every turn of the [while] removes one saving, so the number of savings
    is fuel enough. *)
Definition clarke_wright_grasp (g : estado R) : res (list rota * list Z * estado R) :=
  let '(rotas, demandas) :=
    construir_rotas_iniciais servicos deposito matriz_distancias capacidade in
  let savings := calcular_savings servicos deposito matriz_distancias in
  let savings_disponiveis := savings in
  '(rotas, demandas, g) ← cw_while (length savings) savings_disponiveis rotas demandas g;
  let '(rotas, demandas) := poda_apos_filtro rotas demandas in
  let ids_esperados := id_servico <$> servicos in
  if negb (mesmo_conjunto ids_esperados (ids_nas_rotas rotas)) then
    Raise ErroConstrucaoGRASP
  else Ok (rotas, demandas, g).

End Construtivo.

(** *** Local search *)

Section BuscaLocal.
Variable capacidade : Z.
Variable matriz_distancias : matriz.
Variable deposito : Z.

Local Abbreviation custo := (rota_custo matriz_distancias deposito).

(** Body of [for idx, serv in enumerate(rotas[i])] in [relocate]:
    [Ok (Some _)] is the move applied (followed by [break]). *)
Definition relocate_tenta (rotas : list rota) (demandas : list Z) (i j : nat)
    (rota_i rota_j : rota) (idx : nat) (serv : servico)
    : res (option (list rota * list Z)) :=
  d_j ← item demandas j;
  if d_j + demanda serv <=? capacidade then
    let nova_rota_i := take idx rota_i ++ drop (idx + 1) rota_i in
    let nova_rota_j := rota_j ++ [serv] in
    if negb (nao_vazia nova_rota_i) then Ok None
    else
      let custo_antigo := custo rota_i + custo rota_j in
      let custo_novo := custo nova_rota_i + custo nova_rota_j in
      if custo_novo <? custo_antigo then
        let rotas := <[i := nova_rota_i]> rotas in
        let rotas := <[j := nova_rota_j]> rotas in
        d_i ← item demandas i;
        let demandas := <[i := d_i - demanda serv]> demandas in
        d_j ← item demandas j;
        let demandas := <[j := d_j + demanda serv]> demandas in
        Ok (Some (rotas, demandas))
      else Ok None
  else Ok None.

(** The three nested [for] of one pass of [relocate], left at the first
    move applied. *)
Definition relocate_varredura (rotas : list rota) (demandas : list Z)
    : res (option (list rota * list Z)) :=
  varre (λ i,
    varre (λ j,
      rota_i ← item rotas i;
      if bool_decide (i = j) || negb (nao_vazia rota_i) then Ok None
      else
        rota_j ← item rotas j;
        varre (λ '(idx, serv),
                 relocate_tenta rotas demandas i j rota_i rota_j idx serv)
              (imap pair rota_i))
      (range 0 (length rotas)))
    (range 0 (length rotas)).

(** The [while melhorou] of [relocate]. *)
Fixpoint relocate_while (fuel : nat) (rotas : list rota) (demandas : list Z)
    : res (list rota * list Z) :=
  match fuel with
  | O => OutOfFuel
  | S fuel' =>
    mov ← relocate_varredura rotas demandas;
    match mov with
    | Some (rotas, demandas) => relocate_while fuel' rotas demandas
    | None => Ok (rotas, demandas)
    end
  end.

(** [relocate(rotas, demandas, capacidade, matriz_distancias, deposito)] *)
Definition relocate (fuel : nat) (rotas : list rota) (demandas : list Z)
    : res (list rota * list Z) :=
  '(rotas, demandas) ← relocate_while fuel rotas demandas;
  Ok (poda_apos_filtro rotas demandas).

(** [for i in range(len(rotas)): rotas[i] = two_opt(rotas[i], ...)] *)
Fixpoint two_opt_rotas (fuel : nat) (rotas : list rota) : res (list rota) :=
  match rotas with
  | [] => Ok []
  | r :: rotas' =>
    r' ← two_opt matriz_distancias deposito fuel r;
    rotas'' ← two_opt_rotas fuel rotas';
    Ok (r' :: rotas'')
  end.

(** [vnd(rotas, demandas, capacidade, matriz_distancias, deposito)] *)
Definition vnd (fuel : nat) (rotas : list rota) (demandas : list Z)
    : res (list rota * list Z) :=
  '(rotas, demandas) ← relocate fuel rotas demandas;
  rotas ← two_opt_rotas fuel rotas;
  Ok (rotas, demandas).

(** Body of [for end in range(start + 1, n + 1)] in [segment_relocate]. *)
Definition segment_tenta (rotas : list rota) (demandas : list Z) (i j : nat)
    (rota_origem rota_destino : rota) (demanda_destino : Z) (n start end_ : nat)
    : res (option (list rota * list Z)) :=
  let bloco := take (end_ - start) (drop start rota_origem) in
  if negb (nao_vazia bloco) || bool_decide (length bloco = n) then Ok None
  else
    let demanda_bloco := soma (demanda <$> bloco) in
    if capacidade <? demanda_destino + demanda_bloco then Ok None
    else
      let nova_rota_origem := take start rota_origem ++ drop end_ rota_origem in
      let nova_rota_destino := rota_destino ++ bloco in
      if negb (nao_vazia nova_rota_origem) then Ok None
      else
        let custo_antigo := custo rota_origem + custo rota_destino in
        let custo_novo := custo nova_rota_origem + custo nova_rota_destino in
        if custo_novo <? custo_antigo then
          let rotas := <[i := nova_rota_origem]> rotas in
          let rotas := <[j := nova_rota_destino]> rotas in
          let demandas := <[i := soma (demanda <$> nova_rota_origem)]> demandas in
          let demandas := <[j := soma (demanda <$> nova_rota_destino)]> demandas in
          Ok (Some (rotas, demandas))
        else Ok None.

(** The four nested [for] of one pass of [segment_relocate]. *)
Definition segment_varredura (rotas : list rota) (demandas : list Z)
    : res (option (list rota * list Z)) :=
  varre (λ i,
    varre (λ j,
      rota_i ← item rotas i;
      rota_j ← item rotas j;
      if bool_decide (i = j) || negb (nao_vazia rota_i) || negb (nao_vazia rota_j)
      then Ok None
      else
        let rota_origem := rota_i in
        let rota_destino := rota_j in
        demanda_origem ← item demandas i;
        demanda_destino ← item demandas j;
        let n := length rota_origem in
        varre (λ start,
          varre (λ end_,
                   segment_tenta rotas demandas i j rota_origem rota_destino
                                 demanda_destino n start end_)
                (range (start + 1) (n + 1)))
          (range 0 n))
      (range 0 (length rotas)))
    (range 0 (length rotas)).

(** The pruning inside the [while] of [segment_relocate]: routes and
    demands are zipped first and filtered together. *)
Definition poda_em_pares (rotas : list rota) (demandas : list Z) : list rota * list Z :=
  let pares := List.filter (λ rd, nao_vazia rd.1) (zip rotas demandas) in
  (fst <$> pares, snd <$> pares).

(** The [while melhorou] of [segment_relocate]; the pruning belongs to the
    body of the loop. *)
Fixpoint segment_while (fuel : nat) (rotas : list rota) (demandas : list Z)
    : res (list rota * list Z) :=
  match fuel with
  | O => OutOfFuel
  | S fuel' =>
    mov ← segment_varredura rotas demandas;
    match mov with
    | Some (rotas, demandas) =>
      let '(rotas, demandas) := poda_em_pares rotas demandas in
      segment_while fuel' rotas demandas
    | None => Ok (poda_em_pares rotas demandas)
    end
  end.

(** The coverage test shared by [segment_relocate] and the driver:
    [set(ids) != ids_esperados or len(ids) != len(set(ids))]. *)
Definition cobertura_invalida (rotas : list rota) (servicos_obrigatorios : list servico) : bool :=
  let ids_esperados := id_servico <$> servicos_obrigatorios in
  let ids := ids_nas_rotas rotas in
  negb (mesmo_conjunto ids ids_esperados)
  || negb (length ids =? length (distintos ids))%nat.

(** [segment_relocate(rotas, demandas, capacidade, matriz_distancias,
    deposito, servicos_obrigatorios)] *)
Definition segment_relocate (fuel : nat) (rotas : list rota) (demandas : list Z)
    (servicos_obrigatorios : list servico) : res (list rota * list Z) :=
  '(rotas, demandas) ← segment_while fuel rotas demandas;
  if cobertura_invalida rotas servicos_obrigatorios then Raise ErroSegmentRelocate
  else Ok (rotas, demandas).

End BuscaLocal.

(** *** Multi-start driver *)

(** The incumbent's cost and route count start at [float('inf')]. *)
Inductive num := Fin (z : Z) | Inf.

Definition num_ltb (a : Z) (b : num) : bool :=
  match b with Fin z => a <? z | Inf => true end.

Definition num_eqb (a : Z) (b : num) : bool :=
  match b with Fin z => a =? z | Inf => false end.

(** The five [melhor_*] variables of [multi_start_pipeline]. *)
Record melhor := Melhor {
  melhor_custo : num;
  melhor_num_rotas : num;
  melhor_rotas : option (list rota);
  melhor_demandas : option (list Z);
  melhor_clock_encontrado : option Z
}.

(** Condition of step 6:
    [(custo_total < melhor_custo) or
     (custo_total == melhor_custo and num_rotas < melhor_num_rotas)]. *)
Definition substitui (custo_total num_rotas : Z) (m : melhor) : bool :=
  num_ltb custo_total (melhor_custo m)
  || (num_eqb custo_total (melhor_custo m) && num_ltb num_rotas (melhor_num_rotas m)).

(** Step 6 of a trial, for a solution that passed the validation. *)
Definition atualiza_melhor (m : melhor) (custo_total : Z) (rotas_final : list rota)
    (demandas_final : list Z) (clock_tentativa : Z) : melhor :=
  let num_rotas := Z.of_nat (length rotas_final) in
  if substitui custo_total num_rotas m then
    {| melhor_custo := Fin custo_total;
       melhor_num_rotas := Fin num_rotas;
       melhor_rotas := Some rotas_final;
       melhor_demandas := Some demandas_final;
       melhor_clock_encontrado := Some clock_tentativa |}
  else m.

Section MultiStart.
Variable R : prng.
Variable servicos : list servico.
Variable deposito : Z.
Variable matriz_distancias : matriz.
Variable capacidade : Z.
Variable servicos_obrigatorios : list servico.
Variable k_grasp : nat.
(** [relogio n]: what the [n]-th call of [time.perf_counter_ns()] returns. *)
Variable relogio : nat → Z.

(** Body of [for tentativa in range(num_tentativas)]. *)
Definition tentativa_passo (fuel : nat) (m : melhor) (g : estado R) (tentativa : nat)
    : res (melhor * estado R) :=
  let clock_tentativa := relogio (1 + tentativa) in
  let g := semente R (12345 + Z.of_nat tentativa) in
  '(rotas, demandas, g) ←
    clarke_wright_grasp R servicos deposito matriz_distancias capacidade k_grasp g;
  '(rotas_otimizadas, demandas_otimizadas) ←
    vnd capacidade matriz_distancias deposito fuel rotas demandas;
  '(rotas_final, demandas_final) ←
    segment_relocate capacidade matriz_distancias deposito fuel
                     rotas_otimizadas demandas_otimizadas servicos_obrigatorios;
  let custo_total := soma (rota_custo matriz_distancias deposito <$> rotas_final) in
  if cobertura_invalida rotas_final servicos_obrigatorios then Ok (m, g)   (* continue *)
  else Ok (atualiza_melhor m custo_total rotas_final demandas_final clock_tentativa, g).

(** The [for] over the trials. *)
Fixpoint tentativas (fuel : nat) (m : melhor) (g : estado R) (ts : list nat)
    : res (melhor * estado R) :=
  match ts with
  | [] => Ok (m, g)
  | t :: ts' =>
    '(m, g) ← tentativa_passo fuel m g t;
    tentativas fuel m g ts'
  end.

Definition melhor_inicial : melhor :=
  {| melhor_custo := Inf; melhor_num_rotas := Inf; melhor_rotas := None;
     melhor_demandas := None; melhor_clock_encontrado := None |}.

(** The state of the driver after the loop, with the random state left behind. *)
Definition multi_start_melhor (fuel num_tentativas : nat) (g : estado R)
    : res (melhor * estado R) :=
  tentativas fuel melhor_inicial g (range 0 num_tentativas).

(** [multi_start_pipeline(...)] with [freq_hz=None] (the conversion to
    cycles is floating point and is left out): the four values returned. *)
Definition multi_start_pipeline (fuel num_tentativas : nat) (g : estado R)
    : res (option (list rota) * option (list Z) * Z * Z) :=
  let clock_inicio := relogio 0 in
  '(m, _) ← multi_start_melhor fuel num_tentativas g;
  let clock_fim := relogio (1 + num_tentativas) in
  let clock_total_ciclos := clock_fim - clock_inicio in
  let melhor_clock_encontrado_ciclos :=
    match melhor_clock_encontrado m with
    | Some c => if c =? 0 then -1 else c - clock_inicio
    | None => -1
    end in
  Ok (melhor_rotas m, melhor_demandas m, clock_total_ciclos, melhor_clock_encontrado_ciclos).

End MultiStart.

(** *** Serializer *)

(** [str(n)] of an integer. *)
Definition str (z : Z) : string := NilZero.string_of_int (Z.to_int z).

(** State of the first [for serv in rota] of [salvar_solucao]. *)
Record acumulado := Acumulado {
  servicos_unicos : gmap Z servico;
  demanda_rota : Z;
  custo_servico_rota : Z;
  destinos : list Z
}.

Definition acumula (a : acumulado) (serv : servico) : acumulado :=
  let id_s := id_servico serv in
  match servicos_unicos a !! id_s with
  | Some _ => a                                              (* continue *)
  | None =>
    {| servicos_unicos := <[id_s := serv]> (servicos_unicos a);
       demanda_rota := demanda_rota a + demanda serv;
       custo_servico_rota := custo_servico_rota a + custo_servico serv;
       destinos := destinos a ++ [destino serv] |}
  end.

(** The second [for serv in rota]: the services whose [(S ...)] group is
    appended to the line, with the set [servicos_impressos]. *)
Definition imprime (st : gset Z * list servico) (serv : servico) : gset Z * list servico :=
  let id_s := id_servico serv in
  if bool_decide (id_s ∈ st.1) then st                        (* continue *)
  else ({[id_s]} ∪ st.1, st.2 ++ [serv]).

Definition impressos (r : rota) : list servico := (foldl imprime (∅, []) r).2.

(** One line of the output, before it is turned into text. *)
Record linha_rota := LinhaRota {
  l_idx_rota : Z;
  l_demanda_rota : Z;
  l_custo_rota : Z;
  l_total_visitas : Z;
  l_servicos : list servico
}.

Section Serializador.
Variable matriz_distancias : matriz.
Variable deposito : Z.

Definition custo_transporte_rota (destinos : list Z) : Z :=
  match destinos with
  | [] => 0
  | _ :: _ =>
    matriz_distancias deposito (List.hd 0 destinos)
    + soma ((λ i, matriz_distancias (nth i destinos 0) (nth (S i) destinos 0))
              <$> range 0 (length destinos - 1))
    + matriz_distancias (List.last destinos 0) deposito
  end.

(** Body of [for idx_rota, rota in enumerate(rotas, start=1)]. *)
Definition monta_linha (idx_rota : nat) (r : rota) : linha_rota :=
  let a := foldl acumula (Acumulado ∅ 0 0 []) r in
  let custo_rota := custo_servico_rota a + custo_transporte_rota (destinos a) in
  let total_visitas := 2 + Z.of_nat (size (servicos_unicos a)) in
  {| l_idx_rota := Z.of_nat idx_rota;
     l_demanda_rota := demanda_rota a;
     l_custo_rota := custo_rota;
     l_total_visitas := total_visitas;
     l_servicos := impressos r |}.

Definition texto_deposito : string :=
  ("(D " ++ str deposito ++ ",1,1)")%string.

Definition texto_servico (serv : servico) : string :=
  (" (S " ++ str (id_servico serv) ++ "," ++ str (origem serv) ++ ","
   ++ str (destino serv) ++ ")")%string.

(** The f-string of the line and the groups appended to it. *)
Definition texto_linha (l : linha_rota) : string :=
  ("0 1 " ++ str (l_idx_rota l) ++ " " ++ str (l_demanda_rota l) ++ " "
   ++ str (l_custo_rota l) ++ " " ++ str (l_total_visitas l) ++ " "
   ++ texto_deposito
   ++ String.concat "" (texto_servico <$> l_servicos l)
   ++ " " ++ texto_deposito)%string.

(** [salvar_solucao]: the lines written to the file. *)
Definition salvar_solucao (rotas : list rota)
    (tempo_referencia_execucao tempo_referencia_solucao : Z) : list string :=
  let linhas := imap (λ i r, monta_linha (1 + i) r) rotas in
  let custo_total_solucao := soma (l_custo_rota <$> linhas) in
  let total_rotas := Z.of_nat (length rotas) in
  [str custo_total_solucao; str total_rotas;
   str tempo_referencia_execucao; str tempo_referencia_solucao]
  ++ (texto_linha <$> linhas).

End Serializador.

End Etapa3.

(** ** Loops shared by the other functions

    [para f s l] is a [for] over [l] whose body threads the state [s] and may
    raise; [busca f l] is a [for] that is left by [break] at the first
    element for which the body does something. *)

Fixpoint para {A S} (f : S → A → res S) (s : S) (l : list A) : res S :=
  match l with
  | [] => Ok s
  | a :: l' => s' ← f s a; para f s' l'
  end.

Fixpoint busca {A B} (f : A → option B) (l : list A) : option B :=
  match l with
  | [] => None
  | a :: l' =>
    match f a with
    | Some b => Some b
    | None => busca f l'
    end
  end.

(** [x[i], x[j] = x[j], x[i]] *)
Definition troca {A} (x : list A) (i j : nat) : list A :=
  match x !! i, x !! j with
  | Some x_i, Some x_j => <[j := x_i]> (<[i := x_j]> x)
  | _, _ => x
  end.

(** [random.shuffle(x)]: for [i] from [len(x) - 1] down to 1, swap [x[i]]
    with [x[j]] for a [j] drawn below [i + 1]. *)
Definition shuffle {A} (R : prng) (x : list A) (g : estado R) : list A * estado R :=
  foldl (λ '(x, g) i, let '(j, g) := sorteia R (i + 1) g in (troca x i j, g))
        (x, g) (reverse (range 1 (length x))).

(** ** etapa2 *)

Module Etapa2.

(** [construir_rotas_iniciais] of etapa2: the same loop with the
    capacity guard. *)
Definition construir_rotas_iniciais (servicos : list servico) (deposito : Z)
    (matriz_distancias : matriz) (capacidade : Z) : res (list rota * list Z) :=
  foldl (λ acc serv,
           '(rotas, demandas) ← acc;
           let demanda_ := demanda serv in
           if capacidade <? demanda_ then Raise ValueError
           else Ok (rotas ++ [[serv]], demandas ++ [demanda_]))
        (Ok ([], [])) servicos.

(** [custo_total(rotas, matriz_distancias, deposito)] of [grasp.py]:
    transport only, entering each service at its origin. *)
Definition custo_rota_transporte (matriz_distancias : matriz) (deposito : Z) (r : rota) : Z :=
  match r with
  | [] => 0                                                   (* continue *)
  | s0 :: _ =>
    matriz_distancias deposito (origem s0)
    + soma ((λ i, match r !! i, r !! S i with
                  | Some a, Some b => matriz_distancias (destino a) (origem b)
                  | _, _ => 0
                  end) <$> range 0 (length r - 1))
    + match last r with
      | Some sn => matriz_distancias (destino sn) deposito
      | None => 0
      end
  end.

Definition custo_total (rotas : list rota) (matriz_distancias : matriz) (deposito : Z) : Z :=
  soma (custo_rota_transporte matriz_distancias deposito <$> rotas).

(** *** etapa2: the savings constructor *)

(** [savings.sort(key=lambda x: x[0], reverse=True)]: by saving alone,
    equal savings keep the order they came in. *)
Fixpoint insere_por_saving (x : Etapa3.saving) (l : list Etapa3.saving)
    : list Etapa3.saving :=
  match l with
  | [] => [x]
  | y :: l' => if x.1.1 <? y.1.1 then y :: insere_por_saving x l' else x :: l
  end.

Definition sort_por_saving (l : list Etapa3.saving) : list Etapa3.saving :=
  foldr insere_por_saving [] l.

(** [calcular_savings(rotas, matriz_distancias, deposito)] of etapa2: the
    first service of every route is read, [rotas[i][0]]. *)
Definition calcular_savings (rotas : list rota) (matriz_distancias : matriz)
    (deposito : Z) : res (list Etapa3.saving) :=
  let n := length rotas in
  savings ←
    para (λ savings i,
            rota_i ← item rotas i;
            serv_i ← item rota_i 0;
            let origem_i := origem serv_i in
            let destino_i := destino serv_i in
            para (λ savings j,
                    rota_j ← item rotas j;
                    serv_j ← item rota_j 0;
                    let origem_j := origem serv_j in
                    let destino_j := destino serv_j in
                    let s := matriz_distancias deposito origem_i
                             + matriz_distancias destino_j deposito
                             - matriz_distancias destino_i origem_j in
                    Ok (savings ++ [(s, i, j)]))
                 savings (range (i + 1) n))
         [] (range 0 n);
  Ok (sort_por_saving savings).

(** [tentar_fundir_rotas(rotas, demandas, idx_i, idx_j, capacidade)]: the
    flag returned, with the two lists as the call leaves them. *)
Definition tentar_fundir_rotas (rotas : list rota) (demandas : list Z)
    (idx_i idx_j : nat) (capacidade : Z) : res (bool * list rota * list Z) :=
  rota_i ← item rotas idx_i;
  rota_j ← item rotas idx_j;
  d_i ← item demandas idx_i;
  d_j ← item demandas idx_j;
  let demanda_total := d_i + d_j in
  if capacidade <? demanda_total then Ok (false, rotas, demandas)
  else
    let ids_i := id_servico <$> rota_i in
    let ids_j := id_servico <$> rota_j in
    if existsb (λ x, pertence x ids_j) ids_i then Ok (false, rotas, demandas)
    else
      let rotas := <[idx_i := rota_i ++ rota_j]> rotas in
      let demandas := <[idx_i := demanda_total]> demandas in
      let rotas := <[idx_j := []]> rotas in
      let demandas := <[idx_j := 0]> demandas in
      Ok (true, rotas, demandas).

(** [algoritmo_clarke_wright(servicos, deposito, matriz_distancias, capacidade)] *)
Definition algoritmo_clarke_wright (servicos : list servico) (deposito : Z)
    (matriz_distancias : matriz) (capacidade : Z) : res (list rota) :=
  '(rotas, demandas) ←
    construir_rotas_iniciais servicos deposito matriz_distancias capacidade;
  savings ← calcular_savings rotas matriz_distancias deposito;
  '(rotas, demandas) ←
    para (λ '(rotas, demandas) '(s, i, j),
            rota_i ← item rotas i;
            rota_j ← item rotas j;
            if nao_vazia rota_i && nao_vazia rota_j then
              '(_, rotas, demandas) ← tentar_fundir_rotas rotas demandas i j capacidade;
              Ok (rotas, demandas)
            else Ok (rotas, demandas))
         (rotas, demandas) savings;
  Ok (List.filter nao_vazia rotas).

(** *** etapa2: 2-opt of [grasp.py] *)

(** [rota[:i+1] + rota[i+1:j+1][::-1] + rota[j+1:]] *)
Definition inverte_2opt (r : rota) (i j : nat) : rota :=
  take (i + 1) r ++ reverse (take (j - i) (drop (i + 1) r)) ++ drop (j + 1) r.

(** The two [for] of one turn of the [while] of [busca_local_2opt], left
    at the first improving reversal; the two costs are those of
    [custo_rota_transporte] (the route has four services or more). *)
Definition passe_2opt (matriz_distancias : matriz) (deposito : Z) (r : rota)
    : option rota :=
  let n := length r in
  busca (λ i,
    busca (λ j,
             let nova_rota := inverte_2opt r i j in
             let custo_antigo := custo_rota_transporte matriz_distancias deposito r in
             let custo_novo := custo_rota_transporte matriz_distancias deposito nova_rota in
             if custo_novo <? custo_antigo then Some nova_rota else None)
          (range (i + 2) n))
    (range 0 (n - 1)).

(** [while melhorou and iteracoes < max_iter]: [restantes] turns are left. *)
Fixpoint laco_2opt (matriz_distancias : matriz) (deposito : Z) (restantes : nat)
    (r : rota) : rota :=
  match restantes with
  | O => r
  | S restantes' =>
    match passe_2opt matriz_distancias deposito r with
    | Some nova_rota => laco_2opt matriz_distancias deposito restantes' nova_rota
    | None => r
    end
  end.

(** [busca_local_2opt(rotas, matriz_distancias, deposito, max_iter)] *)
Definition busca_local_2opt (rotas : list rota) (matriz_distancias : matriz)
    (deposito : Z) (max_iter : nat) : list rota :=
  (λ r, if (length r <? 4)%nat then r
        else laco_2opt matriz_distancias deposito max_iter r) <$> rotas.

(** [grasp(servicos, deposito, matriz_distancias, capacidade, max_iter)]:
    the [for _ in range(max_iter)] with the incumbent and its cost. *)
Fixpoint grasp_laco (R : prng) (servicos : list servico) (deposito : Z)
    (matriz_distancias : matriz) (capacidade : Z) (iteracoes : nat)
    (melhor_solucao : option (list rota)) (melhor_custo : Etapa3.num)
    (g : estado R) : res (option (list rota) * estado R) :=
  match iteracoes with
  | O => Ok (melhor_solucao, g)
  | S iteracoes' =>
    let '(servicos_random, g) := shuffle R servicos g in
    rotas ← algoritmo_clarke_wright servicos_random deposito matriz_distancias capacidade;
    let rotas := busca_local_2opt rotas matriz_distancias deposito 5 in
    let custo := custo_total rotas matriz_distancias deposito in
    if Etapa3.num_ltb custo melhor_custo then
      grasp_laco R servicos deposito matriz_distancias capacidade iteracoes'
                 (Some rotas) (Etapa3.Fin custo) g
    else
      grasp_laco R servicos deposito matriz_distancias capacidade iteracoes'
                 melhor_solucao melhor_custo g
  end.

Definition grasp (R : prng) (servicos : list servico) (deposito : Z)
    (matriz_distancias : matriz) (capacidade : Z) (max_iter : nat) (g : estado R)
    : res (option (list rota) * estado R) :=
  grasp_laco R servicos deposito matriz_distancias capacidade max_iter None Etapa3.Inf g.

(** *** etapa2: swaps between routes, [otimizacao.py] *)

(** [demanda_rota(rota)] *)
Definition demanda_rota (r : rota) : Z := soma (demanda <$> r).

(** The four [for] of one turn of the [while] of [swap_entre_rotas], left
    at the first swap applied; [custo_rota] is [custo_rota_transporte]. *)
Definition passe_swap (matriz_distancias : matriz) (capacidade deposito : Z)
    (rotas : list rota) : option (list rota) :=
  busca (λ i,
    busca (λ j,
      match rotas !! i, rotas !! j with
      | Some rota_a, Some rota_b =>
        busca (λ '(idx_a, serv_a),
          busca (λ '(idx_b, serv_b),
            let nova_rota_a := take idx_a rota_a ++ [serv_b] ++ drop (idx_a + 1) rota_a in
            let nova_rota_b := take idx_b rota_b ++ [serv_a] ++ drop (idx_b + 1) rota_b in
            if (demanda_rota nova_rota_a <=? capacidade)
               && (demanda_rota nova_rota_b <=? capacidade) then
              let custo_antigo := custo_rota_transporte matriz_distancias deposito rota_a
                                  + custo_rota_transporte matriz_distancias deposito rota_b in
              let custo_novo := custo_rota_transporte matriz_distancias deposito nova_rota_a
                                + custo_rota_transporte matriz_distancias deposito nova_rota_b in
              if custo_novo <? custo_antigo then
                Some (<[j := nova_rota_b]> (<[i := nova_rota_a]> rotas))
              else None
            else None)
            (imap pair rota_b))
          (imap pair rota_a)
      | _, _ => None
      end)
      (range (i + 1) (length rotas)))
    (range 0 (length rotas)).

(** [swap_entre_rotas(rotas, matriz_distancias, capacidade, deposito, max_iter)] *)
Fixpoint swap_entre_rotas (rotas : list rota) (matriz_distancias : matriz)
    (capacidade deposito : Z) (max_iter : nat) : list rota :=
  match max_iter with
  | O => rotas
  | S max_iter' =>
    match passe_swap matriz_distancias capacidade deposito rotas with
    | Some rotas' =>
      swap_entre_rotas rotas' matriz_distancias capacidade deposito max_iter'
    | None => rotas
    end
  end.

(** *** etapa2: serializer *)

(** The first [for serv in rota] of etapa2's [salvar_solucao]: the
    destination is appended for every service, repeated or not. *)
Definition acumula (a : Etapa3.acumulado) (serv : servico) : Etapa3.acumulado :=
  let id_s := id_servico serv in
  match Etapa3.servicos_unicos a !! id_s with
  | Some _ =>
    {| Etapa3.servicos_unicos := Etapa3.servicos_unicos a;
       Etapa3.demanda_rota := Etapa3.demanda_rota a;
       Etapa3.custo_servico_rota := Etapa3.custo_servico_rota a;
       Etapa3.destinos := Etapa3.destinos a ++ [destino serv] |}
  | None =>
    {| Etapa3.servicos_unicos := <[id_s := serv]> (Etapa3.servicos_unicos a);
       Etapa3.demanda_rota := Etapa3.demanda_rota a + demanda serv;
       Etapa3.custo_servico_rota := Etapa3.custo_servico_rota a + custo_servico serv;
       Etapa3.destinos := Etapa3.destinos a ++ [destino serv] |}
  end.

Definition monta_linha (matriz_distancias : matriz) (deposito : Z) (idx_rota : nat)
    (r : rota) : Etapa3.linha_rota :=
  let a := foldl acumula (Etapa3.Acumulado ∅ 0 0 []) r in
  let custo_rota :=
    Etapa3.custo_servico_rota a
    + Etapa3.custo_transporte_rota matriz_distancias deposito (Etapa3.destinos a) in
  let total_visitas := 2 + Z.of_nat (size (Etapa3.servicos_unicos a)) in
  {| Etapa3.l_idx_rota := Z.of_nat idx_rota;
     Etapa3.l_demanda_rota := Etapa3.demanda_rota a;
     Etapa3.l_custo_rota := custo_rota;
     Etapa3.l_total_visitas := total_visitas;
     Etapa3.l_servicos := Etapa3.impressos r |}.

(** [salvar_solucao] of etapa2: the lines written to the file. *)
Definition salvar_solucao (matriz_distancias : matriz) (deposito : Z)
    (rotas : list rota) (tempo_referencia_execucao tempo_referencia_solucao : Z)
    : list string :=
  let linhas := imap (λ i r, monta_linha matriz_distancias deposito (1 + i) r) rotas in
  let custo_total_solucao := soma (Etapa3.l_custo_rota <$> linhas) in
  let total_rotas := Z.of_nat (length rotas) in
  [Etapa3.str custo_total_solucao; Etapa3.str total_rotas;
   Etapa3.str tempo_referencia_execucao; Etapa3.str tempo_referencia_solucao]
  ++ (Etapa3.texto_linha deposito <$> linhas).

End Etapa2.

(** ** leitor_grafo: the services and the distance matrix *)

Module Leitor.

(** [sorted(xs, key=lambda x: x[0])]: ascending and stable, by insertion;
    [leb] compares two keys. *)
Fixpoint insere_ordenado {K V} (leb : K → K → bool) (x : K * V) (l : list (K * V))
    : list (K * V) :=
  match l with
  | [] => [x]
  | y :: l' => if leb x.1 y.1 then x :: l else y :: insere_ordenado leb x l'
  end.

Definition sorted {K V} (leb : K → K → bool) (l : list (K * V)) : list (K * V) :=
  foldr (insere_ordenado leb) [] l.

(** Order of the tuple keys [(u, v)]. *)
Definition par_leb (a b : Z * Z) : bool :=
  (a.1 <? b.1) || ((a.1 =? b.1) && (a.2 <=? b.2)).

(** The three sets of [dados_leitura] that [extrair_servicos] reads, each
    as the list of its elements in the order the set yields them:
    [(vertice, (demanda, custo_servico))] and
    [((u, v), (custo_transporte, demanda, custo_servico))]. *)
Record dados_leitura := DadosLeitura {
  vertices_requeridos : list (Z * (Z * Z));
  arestas_requeridas : list ((Z * Z) * (Z * Z * Z));
  arcos_requeridos : list ((Z * Z) * (Z * Z * Z))
}.

(** [extrair_servicos(dados_leitura)]: the state of the three [for] is
    [(servicos, id_atual)]. *)
Definition extrair_servicos (d : dados_leitura) : list servico :=
  let st : list servico * Z := ([], 1) in
  let st :=
    foldl (λ '(servicos, id_atual) '(vertice_, (demanda_, custo_servico_)),
             (servicos ++ [Servico id_atual vertice vertice_ vertice_ demanda_ custo_servico_],
              id_atual + 1))
          st (sorted Z.leb (vertices_requeridos d)) in
  let st :=
    foldl (λ '(servicos, id_atual) '((origem_, destino_), (custo_transporte, demanda_, custo_servico_)),
             (servicos ++ [Servico id_atual aresta origem_ destino_ demanda_ custo_servico_],
              id_atual + 1))
          st (sorted par_leb (arestas_requeridas d)) in
  let st :=
    foldl (λ '(servicos, id_atual) '((origem_, destino_), (custo_transporte, demanda_, custo_servico_)),
             (servicos ++ [Servico id_atual arco origem_ destino_ demanda_ custo_servico_],
              id_atual + 1))
          st (sorted par_leb (arcos_requeridos d)) in
  st.1.

(** Reading or writing a dictionary either gives a value or raises
    [KeyError] with the missing key. *)
Inductive acesso (A : Type) :=
| Valor (a : A)
| KeyError (chave : Z).
Arguments Valor {A} a.
Arguments KeyError {A} chave.

#[global] Instance acesso_ret : MRet acesso := λ A a, Valor a.
#[global] Instance acesso_bind : MBind acesso := λ A B k c,
  match c with
  | Valor a => k a
  | KeyError x => KeyError x
  end.

(** Sum and [>] of lengths that may be [float('inf')]. *)
Definition num_add (a b : Etapa3.num) : Etapa3.num :=
  match a, b with
  | Etapa3.Fin x, Etapa3.Fin y => Etapa3.Fin (x + y)
  | _, _ => Etapa3.Inf
  end.

Definition num_gtb (a b : Etapa3.num) : bool :=
  match a, b with
  | Etapa3.Fin x, Etapa3.Fin y => y <? x
  | Etapa3.Inf, Etapa3.Fin _ => true
  | _, Etapa3.Inf => false
  end.

(** [distancias]: a dictionary of dictionaries. *)
Abbreviation dicionario := (gmap Z (gmap Z Etapa3.num)).

(** [distancias[i][j]] *)
Definition le (d : dicionario) (i j : Z) : acesso Etapa3.num :=
  match d !! i with
  | None => KeyError i
  | Some linha =>
    match linha !! j with
    | None => KeyError j
    | Some x => Valor x
    end
  end.

(** [distancias[i][j] = x]: the row [i] must be there, the key [j] need not. *)
Definition grava (d : dicionario) (i j : Z) (x : Etapa3.num) : acesso dicionario :=
  match d !! i with
  | None => KeyError i
  | Some linha => Valor (<[i := <[j := x]> linha]> d)
  end.

(** A [for] whose body reads and writes the dictionary. *)
Fixpoint percorre {A S} (f : S → A → acesso S) (s : S) (l : list A) : acesso S :=
  match l with
  | [] => Valor s
  | a :: l' => s' ← f s a; percorre f s' l'
  end.

(** Body of the innermost [for j] of the Floyd-Warshall loops. *)
Definition relaxa (k i : Z) (d : dicionario) (j : Z) : acesso dicionario :=
  d_ij ← le d i j;
  d_ik ← le d i k;
  d_kj ← le d k j;
  if num_gtb d_ij (num_add d_ik d_kj) then
    d_ik ← le d i k;
    d_kj ← le d k j;
    grava d i j (num_add d_ik d_kj)
  else Valor d.

(** The three nested [for k], [for i], [for j] over the vertices. *)
Definition floyd_warshall (vertices : list Z) (d : dicionario) : acesso dicionario :=
  percorre (λ d k,
    percorre (λ d i,
      percorre (relaxa k i) d vertices)
      d vertices)
    d vertices.

(** The dictionary before the loops: infinity everywhere, zero on the
    diagonal, then the edges in both directions, then the arcs. *)
Definition distancias_diretas (vertices : list Z) (arestas arcos : list ((Z * Z) * Z))
    : acesso dicionario :=
  let linha : gmap Z Etapa3.num := list_to_map ((λ u, (u, Etapa3.Inf)) <$> vertices) in
  let distancias : dicionario := list_to_map ((λ v, (v, linha)) <$> vertices) in
  distancias ← percorre (λ d v, grava d v v (Etapa3.Fin 0)) distancias vertices;
  distancias ←
    percorre (λ d '((u, v), custo),
                d ← grava d u v (Etapa3.Fin custo);
                grava d v u (Etapa3.Fin custo))
             distancias arestas;
  percorre (λ d '((u, v), custo), grava d u v (Etapa3.Fin custo)) distancias arcos.

(** [criar_matriz_distancias(vertices, arestas, arcos)]; the three sets are
    given as the lists of their elements in iteration order. *)
Definition criar_matriz_distancias (vertices : list Z)
    (arestas arcos : list ((Z * Z) * Z)) : acesso dicionario :=
  distancias ← distancias_diretas vertices arestas arcos;
  floyd_warshall vertices distancias.

End Leitor.

(** * Definitions used by the statements *)

Import Etapa3.

(** ** Sample instances

    Vertices on a line, the depot at 0, distances [|a - b|] (a shortest-path
    metric), vertex services with unit service cost. *)

Definition linha_reta : matriz := λ a b, Z.abs (a - b).

Definition serv_vertice (id_ posicao demanda_ : Z) : servico :=
  Servico id_ vertice posicao posicao demanda_ 1.

(** The generator that always draws position 0. *)
Definition prng_zero : prng :=
  Prng unit (λ _, tt) (λ _ _, (0%nat, tt)) (λ n g H, H).

(** The transport cost along a list of destinations, entered from [ant]
    and closed at the depot. *)
Fixpoint percurso (m : matriz) (dep : Z) (ant : Z) (ds : list Z) : Z :=
  match ds with
  | [] => m ant dep
  | d :: ds' => m ant d + percurso m dep d ds'
  end.

(** The route cost in the words of the specification: every service is
    entered at its origin and left at its destination. *)
Fixpoint transporte_spec (m : matriz) (dep : Z) (ant : Z) (r : rota) : Z :=
  match r with
  | [] => m ant dep
  | s :: r' => m ant (origem s) + transporte_spec m dep (destino s) r'
  end.

Definition custo_rota_spec (m : matriz) (dep : Z) (r : rota) : Z :=
  soma (custo_servico <$> r) + transporte_spec m dep dep r.

(** A grid of unit streets: vertex [10 * x + y] stands at [(x, y)]. *)
Definition grade : matriz :=
  λ u v, Z.abs (u `div` 10 - v `div` 10) + Z.abs (u `mod` 10 - v `mod` 10).

(** The edge service of the line 1 - 2 - 3 from vertex 2 to vertex 3. *)
Definition serv_aresta_2_3 : servico := Servico 1 aresta 2 3 1 1.

(** Five vertex services on the grid, in the order of a route. *)
Definition rota_grade : rota :=
  [serv_vertice 1 0 1; serv_vertice 2 1 1; serv_vertice 3 3 1;
   serv_vertice 4 10 1; serv_vertice 5 13 1].

(** What one pass of [two_opt] keeps: the services, and the first of them. *)
Definition passada_inv (r : rota) (st : rota * bool) : Prop :=
  st.1 ≡ₚ r ∧ head st.1 = head r.

(** The driver's selection applied to a sequence of validated candidates
    [(custo_total, rotas_final, demandas_final)], first trial first. *)
Definition seleciona (cands : list (Z * list rota * list Z)) : melhor :=
  foldl (λ m '(custo_total, rotas_final, demandas_final),
           atualiza_melhor m custo_total rotas_final demandas_final 0)
        melhor_inicial cands.

(** [n] routes of one service each. *)
Definition n_rotas (n : nat) : list rota :=
  (λ i, [serv_vertice (Z.of_nat i) 1 1]) <$> seq 0 n.

(** What a run of the driver decides, apart from the clock readings and
    the random state it leaves behind. *)
Definition sem_relogio (m : melhor) : num * num * option (list rota) * option (list Z) :=
  (melhor_custo m, melhor_num_rotas m, melhor_rotas m, melhor_demandas m).

Definition decisao {S : Type} (r : res (melhor * S))
    : res (num * num * option (list rota) * option (list Z)) :=
  '(m, _) ← r; Ok (sem_relogio m).

(** Coverage: the ids met along the routes are those of the catalogue,
    each of them once. *)
Definition cobertura (rotas : list rota) (servicos : list servico) : Prop :=
  NoDup (ids_nas_rotas rotas)
  ∧ ∀ x, x ∈ ids_nas_rotas rotas ↔ x ∈ id_servico <$> servicos.

(** Three vertex services on the line, at 10, 1 and 11, with demands 3, 4
    and 6: under the capacity 8 only the first two fit together. *)
Definition catalogo_346 : list servico :=
  [serv_vertice 1 10 3; serv_vertice 2 1 4; serv_vertice 3 11 6].

(** Readings of a clock that ticks once per call. *)
Definition relogio_unitario : nat → Z := Z.of_nat.

(** Whatever the incumbent holds passed the validation of its trial. *)
Definition melhor_coberto (servicos_obrigatorios : list servico) (m : melhor) : Prop :=
  ∀ rotas, melhor_rotas m = Some rotas → cobertura rotas servicos_obrigatorios.

(** An outcome without the random state it leaves behind. *)
Definition sem_estado {A S : Type} (r : res (A * S)) : res A :=
  '(a, _) ← r; Ok a.

(** The demands of the routes, recomputed from their services. *)
Definition demandas_reais (rotas : list rota) : list Z :=
  (λ r, soma (demanda <$> r)) <$> rotas.

(** A single vertex service of demand 9, for a capacity of 8. *)
Definition catalogo_inviavel : list servico := [serv_vertice 1 5 9].

(** The outcome of a loop that did not stop for lack of fuel. *)
Definition concluiu {A} (r : res A) : Prop := r ≠ OutOfFuel.

(** [custo_total] of the driver: the sum of the route costs. *)
Definition custo_das_rotas (m : matriz) (dep : Z) (rotas : list rota) : Z :=
  soma (rota_custo m dep <$> rotas).

(** A bound on the size of every distance between the vertices [vs]. *)
Definition cota (m : matriz) (vs : list Z) : Z :=
  soma ((λ uv, Z.abs (m uv.1 uv.2)) <$> list_prod vs vs).

(** The vertices a solution visits: the depot and the destinations. *)
Definition vertices_visitados (dep : Z) (rotas : list rota) : list Z :=
  dep :: (destino <$> mjoin rotas).

(** What no rearrangement of the services of [rotas] over at most as many
    routes can cost less than. *)
Definition piso (m : matriz) (dep : Z) (rotas : list rota) : Z :=
  soma (custo_servico <$> mjoin rotas)
  - (Z.of_nat (length (mjoin rotas)) + Z.of_nat (length rotas))
    * cota m (vertices_visitados dep rotas).

(** A saving whose two positions fall inside a catalogue of [n] services. *)
Definition saving_valido (n : nat) (sv : saving) : Prop :=
  (sv.1.2 < n)%nat ∧ (sv.2 < n)%nat.

(** The demand list says what the routes carry. *)
Definition sincronizadas (rotas : list rota) (demandas : list Z) : Prop :=
  demandas = demandas_reais rotas.

(** No route carries more than the capacity. *)
Definition dentro_da_capacidade (capacidade : Z) (rotas : list rota) : Prop :=
  Forall (λ r, soma (demanda <$> r) ≤ capacidade) rotas.

(** What trial [t] of the driver builds, taken on its own: the construction
    from the seed [12345 + t], [vnd], [segment_relocate], and the total
    cost of the routes. *)
Definition tentativa_solucao (R : prng) (servicos : list servico) (dep : Z) (m : matriz)
    (cap : Z) (obrig : list servico) (k fuel t : nat) : res (Z * list rota * list Z) :=
  '(rotas, demandas, _) ←
    clarke_wright_grasp R servicos dep m cap k (semente R (12345 + Z.of_nat t));
  '(rotas, demandas) ← vnd cap m dep fuel rotas demandas;
  '(rotas, demandas) ← segment_relocate cap m dep fuel rotas demandas obrig;
  Ok (custo_das_rotas m dep rotas, rotas, demandas).

(** The line of a route in which no service id is repeated. *)
Definition linha_da_rota (m : matriz) (dep : Z) (idx : nat) (r : rota) : linha_rota :=
  {| l_idx_rota := Z.of_nat idx;
     l_demanda_rota := soma (demanda <$> r);
     l_custo_rota := rota_custo m dep r;
     l_total_visitas := 2 + Z.of_nat (length r);
     l_servicos := r |}.

(** What the merges of etapa2 keep: there are [n] routes, the demand list
    says what they carry, they hold the services of the catalogue, and none
    of them carries more than the capacity. *)
Definition fusao_inv (servicos : list servico) (cap : Z) (n : nat)
    (st : list rota * list Z) : Prop :=
  length st.1 = n
  ∧ sincronizadas st.1 st.2
  ∧ mjoin st.1 ≡ₚ servicos
  ∧ Forall (λ r, r ≠ [] → soma (demanda <$> r) ≤ cap) st.1.

(** A feasible solution: every service of the catalogue in exactly one
    route, no empty route and no route carrying more than the capacity. *)
Definition solucao_viavel (servicos : list servico) (cap : Z) (rotas : list rota) : Prop :=
  mjoin rotas ≡ₚ servicos
  ∧ Forall (λ r, r ≠ []) rotas
  ∧ dentro_da_capacidade cap rotas.

(** What a service says apart from its id. *)
Definition conteudo (s : servico) : tipo_servico * Z * Z * Z * Z :=
  (tipo s, origem s, destino s, demanda s, custo_servico s).

(** What the required items of the instance ask for, in the order given. *)
Definition requeridos (d : Leitor.dados_leitura) : list (tipo_servico * Z * Z * Z * Z) :=
  ((λ x : Z * (Z * Z), (vertice, x.1, x.1, x.2.1, x.2.2)) <$> Leitor.vertices_requeridos d)
  ++ ((λ x : Z * Z * (Z * Z * Z), (aresta, x.1.1, x.1.2, x.2.1.2, x.2.2))
        <$> Leitor.arestas_requeridas d)
  ++ ((λ x : Z * Z * (Z * Z * Z), (arco, x.1.1, x.1.2, x.2.1.2, x.2.2))
        <$> Leitor.arcos_requeridos d).

(** ** Distances

    [distancias[i][j]] as a length, infinite where there is no entry. *)
Definition entrada (d : Leitor.dicionario) (i j : Z) : num :=
  match Leitor.le d i j with
  | Leitor.Valor x => x
  | Leitor.KeyError _ => Inf
  end.

(** [a <= b] on lengths that may be infinite. *)
Definition num_le (a b : num) : Prop :=
  match a, b with
  | _, Inf => True
  | Fin x, Fin y => x ≤ y
  | Inf, Fin _ => False
  end.

(** The length, by the entries of [d], of the walk that leaves [i] and
    visits the vertices [vs] in order. *)
Fixpoint comprimento (d : Leitor.dicionario) (i : Z) (vs : list Z) : num :=
  match vs with
  | [] => Fin 0
  | v :: vs' => Leitor.num_add (entrada d i v) (comprimento d v vs')
  end.

(** The dictionary has a row for each vertex and for nothing else, and
    every row has an entry for each vertex. *)
Definition tabela (vertices : list Z) (d : Leitor.dicionario) : Prop :=
  (∀ i, is_Some (d !! i) ↔ i ∈ vertices)
  ∧ (∀ i linha j, d !! i = Some linha → j ∈ vertices → is_Some (linha !! j)).

(** No entry is negative. *)
Definition sem_negativos (d : Leitor.dicionario) : Prop :=
  ∀ a b, num_le (Fin 0) (entrada d a b).

(** Every entry between two vertices is the length of a walk through the
    vertices, by the entries of [d0]. *)
Definition realizavel (vertices : list Z) (d0 d : Leitor.dicionario) : Prop :=
  ∀ a b, a ∈ vertices → b ∈ vertices →
         ∃ vs, Forall (λ v, v ∈ vertices) vs
               ∧ entrada d a b = comprimento d0 a (vs ++ [b]).

(** What holds of the dictionary [d_t] while the pass of the vertex [k]
    that started from [d] runs, the pairs [q] having been relaxed. *)
Definition fase (vertices : list Z) (d0 : Leitor.dicionario) (k : Z)
    (d : Leitor.dicionario) (q : Z → Z → Prop) (d_t : Leitor.dicionario) : Prop :=
  tabela vertices d_t
  ∧ sem_negativos d_t
  ∧ realizavel vertices d0 d_t
  ∧ (∀ a b, num_le (entrada d_t a b) (entrada d a b))
  ∧ (∀ a, entrada d_t a k = entrada d a k)
  ∧ (∀ b, entrada d_t k b = entrada d k b)
  ∧ (∀ a b, q a b →
            num_le (entrada d_t a b) (Leitor.num_add (entrada d a k) (entrada d k b))).

(** What holds of the dictionary after the passes of the vertices [ks]:
    no entry between two vertices exceeds the length of a walk whose
    intermediate vertices are among [ks]. *)
Definition apos_fases (vertices : list Z) (d0 : Leitor.dicionario) (ks : list Z)
    (d : Leitor.dicionario) : Prop :=
  tabela vertices d
  ∧ sem_negativos d
  ∧ realizavel vertices d0 d
  ∧ (∀ a b vs, a ∈ vertices → b ∈ vertices → Forall (λ v, v ∈ ks) vs →
               num_le (entrada d a b) (comprimento d0 a (vs ++ [b]))).

(** What the writes of the direct distances keep: the rows and columns of
    the vertices, and no negative entry when no cost is negative. *)
Definition escrita (vertices : list Z) (arestas arcos : list ((Z * Z) * Z))
    (d : Leitor.dicionario) : Prop :=
  tabela vertices d
  ∧ (Forall (λ e : Z * Z * Z, 0 ≤ e.2) arestas →
     Forall (λ a : Z * Z * Z, 0 ≤ a.2) arcos → sem_negativos d).

(** A sample instance: the edges 1 - 2 of cost 5 and 2 - 3 of cost 1, and
    the arc from 3 to 1 of cost 2. *)
Definition vertices_exemplo : list Z := [1; 2; 3].
Definition arestas_exemplo : list ((Z * Z) * Z) := [((1, 2), 5); ((2, 3), 1)].
Definition arcos_exemplo : list ((Z * Z) * Z) := [((3, 1), 2)].

(** The dictionary a call returned, empty when it raised. *)
Definition dicionario_de (r : Leitor.acesso Leitor.dicionario) : Leitor.dicionario :=
  match r with
  | Leitor.Valor d => d
  | Leitor.KeyError _ => ∅
  end.

Definition diretas_exemplo : Leitor.dicionario :=
  dicionario_de (Leitor.distancias_diretas vertices_exemplo arestas_exemplo arcos_exemplo).

Definition matriz_exemplo : Leitor.dicionario :=
  dicionario_de (Leitor.criar_matriz_distancias vertices_exemplo arestas_exemplo
                   arcos_exemplo).

(** The services of a route without the later occurrences of an id: the
    first service, then the others that do not have its id, treated alike. *)
Fixpoint primeiras_ocorrencias (r : rota) : list servico :=
  match r with
  | [] => []
  | s :: r' =>
    s :: filter (λ s', id_servico s' ≠ id_servico s) (primeiras_ocorrencias r')
  end.

(** ** The generator among the threads of [main]

    [random.seed] and [random.choice] act on the one generator of the module
    [random], and [main] hands the files to the threads of a
    [ThreadPoolExecutor], each of which runs [processar_arquivo] and with it
    [multi_start_pipeline]: between two accesses of a pipeline to the
    generator the pipelines of the other threads may have seeded it or drawn
    from it.  These are the accesses the engine makes. *)
Inductive acesso_alheio :=
  | OutraSemente (tentativa : nat)   (* random.seed(12345 + tentativa) *)
  | OutroSorteio (n : nat).          (* random.choice(top_k), len(top_k) = n *)

Definition efeito (G : prng) (g : estado G) (a : acesso_alheio) : estado G :=
  match a with
  | OutraSemente tentativa => semente G (12345 + Z.of_nat tentativa)
  | OutroSorteio n => (sorteia G n g).2
  end.

(** The generator [G] of the process as one pipeline meets it.  The state
    records with the state of [G] the last seed [z] of this pipeline and
    the number [c] of draws it made since; [agenda z c] lists the accesses
    of the other threads that come after the previous access of this
    pipeline and before its draw number [c] after [random.seed(z)].  Every
    trial has a seed of its own, so [(z, c)] names one access of the run. *)
Definition compartilhado (G : prng) (agenda : Z → nat → list acesso_alheio) : prng :=
  {| estado := estado G * (Z * nat);
     semente := λ z, (semente G z, (z, 0%nat));
     sorteia := λ n s,
       let g := foldl (efeito G) s.1 (agenda s.2.1 s.2.2) in
       ((sorteia G n g).1, ((sorteia G n g).2, (s.2.1, S s.2.2)));
     sorteia_lt := λ n s H, sorteia_lt G n _ H |}.

(** No other thread touches the generator. *)
Definition sozinha : Z → nat → list acesso_alheio := λ _ _, [].

(** Another pipeline starts its fourth trial, [random.seed(12348)], after
    the [random.seed(12345)] of this pipeline and before its first draw. *)
Definition semente_alheia : Z → nat → list acesso_alheio :=
  λ z c, if (z =? 12345) && (c =? 0)%nat then [OutraSemente 3] else [].

(** Other pipelines start their first trial, [random.seed(12345)], after
    the [random.seed] of the fourth and of the fifth trial of this pipeline
    and before the first draw of that trial. *)
Definition sementes_alheias : Z → nat → list acesso_alheio :=
  λ z c, if ((z =? 12348) || (z =? 12349)) && (c =? 0)%nat then [OutraSemente 0] else [].

(** Three vertex services on the line, at 2, 1 and 3, with demands 1, 2
    and 3: under the capacity 6 they fit in one route. *)
Definition catalogo_123 : list servico :=
  [serv_vertice 1 2 1; serv_vertice 2 1 2; serv_vertice 3 3 3].

(** The first draw of trial [t], among the three savings of a catalogue of
    three services. *)
Definition primeiro_sorteio (R : prng) (t : nat) : nat :=
  (sorteia R 3 (semente R (12345 + Z.of_nat t))).1.

(** The cost a trial reaches on [catalogo_123], by its first draw. *)
Definition custo_123 (d : nat) : Z := if d is 0%nat then 9 else 11.

(** The best total cost and the best route count of an incumbent, step 6
    of a trial on the two of them, and what a run reports of them. *)
Definition par (m : melhor) : num * num := (melhor_custo m, melhor_num_rotas m).

Definition atualiza_par (p : num * num) (custo_total num_rotas : Z) : num * num :=
  if num_ltb custo_total p.1 || (num_eqb custo_total p.1 && num_ltb num_rotas p.2)
  then (Fin custo_total, Fin num_rotas) else p.

Definition custo_e_rotas {S : Type} (r : res (melhor * S)) : res (num * num) :=
  '(m, _) ← r; Ok (par m).

(** A linear congruential generator (multiplier 1664525, increment
    1013904223, modulus 2^32) that draws from the second byte of its state. *)
Definition gerador_congruente : prng :=
  {| estado := Z;
     semente := λ z, z;
     sorteia := λ n g,
       let g' := (1664525 * g + 1013904223) `mod` 2 ^ 32 in
       ((Z.to_nat ((g' `div` 256) `mod` 256) `mod` n)%nat, g');
     sorteia_lt := λ n g H, Nat.mod_upper_bound _ n (proj2 (Nat.neq_0_lt_0 n) H) |}.

(** * Properties *)

(** ** The outcome monad and the scans *)

Lemma bind_Ok {A B} (c : res A) (k : A → res B) (b : B) :
  c ≫= k = Ok b → ∃ a, c = Ok a ∧ k a = Ok b.
Proof. destruct c as [a| |]; simpl; intros H; try discriminate. eauto. Qed.

Lemma item_Ok {A} (l : list A) (i : nat) (a : A) :
  item l i = Ok a ↔ l !! i = Some a.
Proof. unfold item. destruct (l !! i); split; intros H; congruence. Qed.

Lemma varre_Some {A B} (f : A → res (option B)) (l : list A) (b : B) :
  varre f l = Ok (Some b) → ∃ a, a ∈ l ∧ f a = Ok (Some b).
Proof.
  induction l as [|a l IH]; simpl; [discriminate|].
  destruct (f a) as [[b'|]| |] eqn:Hfa; intros H; try discriminate.
  - injection H as ->. exists a. split; [left|done].
  - destruct (IH H) as (a' & Hin & Ha'). exists a'. split; [by right|done].
Qed.

Lemma varre_None {A B} (f : A → res (option B)) (l : list A) :
  varre f l = Ok None → ∀ a, a ∈ l → f a = Ok None.
Proof.
  induction l as [|a l IH]; simpl; intros H x Hx; [by apply elem_of_nil in Hx|].
  destruct (f a) as [[b'|]| |] eqn:Hfa; try discriminate.
  apply elem_of_cons in Hx as [->|Hx]; [done|by apply IH].
Qed.

Lemma elem_of_range (a b i : nat) : i ∈ range a b ↔ (a ≤ i < b)%nat.
Proof. unfold range. rewrite elem_of_seq. lia. Qed.

Lemma foldl_inv {A B} (P : A → Prop) (f : A → B → A) (l : list B) (a : A) :
  P a → (∀ x b, P x → b ∈ l → P (f x b)) → P (foldl f a l).
Proof.
  revert a. induction l as [|b l IH]; simpl; intros a Ha Hstep; [done|].
  apply IH.
  - apply Hstep; [done|left].
  - intros x b' Hx Hb'. apply Hstep; [done|by right].
Qed.

(** ** Sums *)

Lemma soma_cons (x : Z) (l : list Z) : soma (x :: l) = x + soma l.
Proof. done. Qed.

Lemma soma_app (l1 l2 : list Z) : soma (l1 ++ l2) = soma l1 + soma l2.
Proof.
  induction l1 as [|x l1 IH]; [done|].
  rewrite <- app_comm_cons, !soma_cons, IH. lia.
Qed.

Lemma soma_perm (l1 l2 : list Z) : l1 ≡ₚ l2 → soma l1 = soma l2.
Proof.
  unfold soma. induction 1 as [|x l1 l2 _ IH| |]; simpl; [done|by rewrite IH|lia|congruence].
Qed.

Lemma soma_insert {A} (f : A → Z) (l : list A) (i : nat) (x y : A) :
  l !! i = Some x → soma (f <$> <[i := y]> l) = soma (f <$> l) - f x + f y.
Proof.
  revert i. induction l as [|a l IH]; intros i Hi; [done|].
  destruct i as [|i]; simpl in Hi.
  - injection Hi as ->. change (<[0%nat := y]> (x :: l)) with (y :: l).
    rewrite !fmap_cons, !soma_cons. lia.
  - change (<[S i := y]> (a :: l)) with (a :: <[i := y]> l).
    rewrite !fmap_cons, !soma_cons, (IH i Hi). lia.
Qed.

Lemma soma_nonneg_elem {A} (f : A → Z) (l : list A) (x : A) :
  (∀ y, 0 ≤ f y) → x ∈ l → f x ≤ soma (f <$> l).
Proof.
  intros Hf. assert (∀ l', 0 ≤ soma (f <$> l')) as Hpos.
  { intros l'. induction l' as [|a l' IH]; [done|].
    rewrite fmap_cons, soma_cons. specialize (Hf a). lia. }
  induction l as [|a l IH]; intros Hx; [by apply elem_of_nil in Hx|].
  rewrite fmap_cons, soma_cons. apply elem_of_cons in Hx as [->|Hx].
  - specialize (Hpos l). lia.
  - specialize (IH Hx). specialize (Hf a). lia.
Qed.

(** ** Scans end, and end well on lists of equal length *)

Lemma varre_concluiu {A B} (f : A → res (option B)) (l : list A) :
  (∀ a, a ∈ l → concluiu (f a)) → concluiu (varre f l).
Proof.
  induction l as [|a l IH]; intros H; simpl; [done|].
  pose proof (H a ltac:(left)) as Ha.
  destruct (f a) as [[b|]| |]; try done.
  apply IH. intros a' Ha'. apply H. by right.
Qed.

Lemma varre_Ok {A B} (f : A → res (option B)) (l : list A) :
  (∀ a, a ∈ l → ∃ o, f a = Ok o) → ∃ o, varre f l = Ok o.
Proof.
  induction l as [|a l IH]; intros H; simpl; [by eexists|].
  destruct (H a ltac:(left)) as [[b|] ->]; [by eexists|].
  apply IH. intros a' Ha'. apply H. by right.
Qed.

Lemma item_lt {A} (l : list A) (i : nat) :
  (i < length l)%nat → ∃ a, item l i = Ok a.
Proof.
  intros H. apply lookup_lt_is_Some_2 in H as [a Ha]. exists a. by apply item_Ok.
Qed.

Lemma item_concluiu {A} (l : list A) (i : nat) : concluiu (item l i).
Proof. unfold item. by destruct (l !! i). Qed.

(** Replacing two routes changes the total by the change of the two. *)
Lemma custo_das_rotas_troca (m : matriz) (dep : Z) (rotas : list rota) (i j : nat)
    (ri rj ni nj : rota) :
  i ≠ j → rotas !! i = Some ri → rotas !! j = Some rj →
  custo_das_rotas m dep (<[j := nj]> (<[i := ni]> rotas))
  = custo_das_rotas m dep rotas
    - (rota_custo m dep ri + rota_custo m dep rj)
    + (rota_custo m dep ni + rota_custo m dep nj).
Proof.
  intros Hij Hi Hj. unfold custo_das_rotas.
  rewrite (soma_insert _ _ j rj) by (by rewrite list_lookup_insert_ne).
  rewrite (soma_insert _ _ i ri) by done. lia.
Qed.

(** ** Route cost *)

Section CustoRota.
Variable m : matriz.
Variable dep : Z.

Lemma soma_trechos (d : Z) (ds : list Z) :
  soma ((λ i, m (nth i (d :: ds) 0) (nth (S i) (d :: ds) 0)) <$> range 0 (length (d :: ds) - 1))
  + m (List.last (d :: ds) 0) dep
  = percurso m dep d ds.
Proof.
  revert d. induction ds as [|d' ds IH]; intros d; [simpl; lia|].
  cbn [percurso]. rewrite <- (IH d'). unfold range.
  replace (length (d :: d' :: ds) - 1 - 0)%nat with (S (length (d' :: ds) - 1 - 0)) by (simpl; lia).
  rewrite <- cons_seq, <- fmap_S_seq, fmap_cons, <- list_fmap_compose.
  unfold soma. cbn [foldr].
  change (List.last (d :: d' :: ds) 0) with (List.last (d' :: ds) 0).
  match goal with
  | |- _ + foldr Z.add 0 ?a + _ = _ + (foldr Z.add 0 ?b + _) => change a with b
  end.
  cbn [nth]. lia.
Qed.

(** What [rota_custo] computes: service costs plus the legs between
    consecutive destinations. *)
Lemma rota_custo_percurso (r : rota) :
  r ≠ [] →
  rota_custo m dep r = soma (custo_servico <$> r) + percurso m dep dep (destino <$> r).
Proof.
  destruct r as [|s r]; [done|intros _].
  unfold rota_custo. cbv zeta.
  change (destino <$> s :: r) with (destino s :: (destino <$> r)).
  cbn [List.hd percurso].
  pose proof (soma_trechos (destino s) (destino <$> r)) as H. lia.
Qed.

End CustoRota.

(** When every service starts where it ends (vertex services), the cost of
    the code and the cost of the specification agree. *)
Lemma transporte_spec_vertices (m : matriz) (dep ant : Z) (r : rota) :
  Forall (λ s, origem s = destino s) r →
  transporte_spec m dep ant r = percurso m dep ant (destino <$> r).
Proof.
  intros H. revert ant. induction H as [|s r Hs _ IH]; intros ant; [done|].
  cbn [transporte_spec percurso fmap list_fmap]. rewrite Hs, IH. done.
Qed.

Lemma rota_custo_vertices (m : matriz) (dep : Z) (r : rota) :
  r ≠ [] → Forall (λ s, origem s = destino s) r →
  rota_custo m dep r = custo_rota_spec m dep r.
Proof.
  intros Hr Hv. rewrite rota_custo_percurso by done.
  unfold custo_rota_spec. by rewrite transporte_spec_vertices.
Qed.

(** C1: on the route made of the single edge service 2 -> 3 (depot 1, line
    metric) [rota_custo] charges the leg depot -> destination, 5 in all,
    where the cost stated by the specification (depot -> origin) is 4. *)
Theorem rota_custo_ignora_origem :
  rota_custo linha_reta 1 [serv_aresta_2_3] = 5
  ∧ custo_rota_spec linha_reta 1 [serv_aresta_2_3] = 4
  ∧ Etapa2.custo_rota_transporte linha_reta 1 [serv_aresta_2_3]
    = transporte_spec linha_reta 1 1 [serv_aresta_2_3].
Proof. repeat split. Qed.

(** ** The cost functions of etapa2 enter every service at its origin *)

Lemma etapa2_trechos (m : matriz) (dep : Z) (s : servico) (r : rota) :
  soma ((λ i, match (s :: r) !! i, (s :: r) !! S i with
              | Some a, Some b => m (destino a) (origem b)
              | _, _ => 0
              end) <$> range 0 (length (s :: r) - 1))
  + match last (s :: r) with
    | Some sn => m (destino sn) dep
    | None => 0
    end
  = transporte_spec m dep (destino s) r.
Proof.
  revert s. induction r as [|s' r IH]; intros s; [simpl; unfold soma; simpl; lia|].
  cbn [transporte_spec]. rewrite <- (IH s'). unfold range.
  replace (length (s :: s' :: r) - 1 - 0)%nat with (S (length (s' :: r) - 1 - 0))
    by (simpl; lia).
  rewrite <- cons_seq, <- fmap_S_seq, fmap_cons, <- list_fmap_compose, soma_cons.
  change (last (s :: s' :: r)) with (last (s' :: r)).
  match goal with
  | |- _ + soma ?a + _ = _ + (soma ?b + _) => change a with b
  end.
  simpl. lia.
Qed.

Lemma etapa2_custo_rota_spec (m : matriz) (dep : Z) (r : rota) :
  r ≠ [] → Etapa2.custo_rota_transporte m dep r = transporte_spec m dep dep r.
Proof.
  destruct r as [|s r]; [done|intros _].
  unfold Etapa2.custo_rota_transporte. cbn [transporte_spec].
  pose proof (etapa2_trechos m dep s r). lia.
Qed.

(** ** 2-opt *)

Section DoisOpt.
Variable m : matriz.
Variable dep : Z.

Lemma inverte_trecho_perm (r : rota) (i j : nat) :
  (i ≤ j)%nat → inverte_trecho r i j ≡ₚ r.
Proof.
  intros Hij. unfold inverte_trecho.
  rewrite reverse_Permutation.
  replace (drop j r) with (drop (j - i) (drop i r)).
  - by rewrite (take_drop (j - i) (drop i r)), take_drop.
  - rewrite drop_drop. f_equal. lia.
Qed.

Lemma inverte_trecho_head (r : rota) (i j : nat) :
  (1 ≤ i)%nat → (i ≤ length r)%nat → head (inverte_trecho r i j) = head r.
Proof.
  intros Hi Hlen. unfold inverte_trecho.
  destruct r as [|s r]; [simpl in Hlen; lia|].
  destruct i as [|i]; [lia|]. done.
Qed.

Lemma two_opt_passo_inv (r : rota) (i j : nat) (st : rota * bool) :
  (1 ≤ i)%nat → (i ≤ j)%nat → (i ≤ length r)%nat →
  passada_inv r st → passada_inv r (two_opt_passo m dep i st j).
Proof.
  intros Hi Hij Hlen [Hp Hh]. unfold two_opt_passo.
  destruct (_ <? _); [|done].
  split; simpl.
  - by rewrite inverte_trecho_perm.
  - rewrite inverte_trecho_head; [done..|]. by rewrite Hp.
Qed.

Lemma two_opt_varredura_inv (r : rota) : passada_inv r (two_opt_varredura m dep r).
Proof.
  unfold two_opt_varredura.
  apply (foldl_inv (passada_inv r)); [done|].
  intros st i Hst Hi. apply elem_of_range in Hi.
  apply (foldl_inv (passada_inv r)); [done|].
  intros st' j Hst' Hj. apply elem_of_range in Hj.
  apply two_opt_passo_inv; [lia..|done].
Qed.

(** The [while] of [two_opt] is left after its first pass, whatever the
    pass found. *)
Lemma two_opt_while_uma_passada (fuel : nat) (r : rota) :
  two_opt_while m dep (S fuel) true r = Ok (two_opt_varredura m dep r).1.
Proof.
  simpl. destruct (two_opt_varredura m dep r) as [r' [|]]; [done|].
  by destruct fuel.
Qed.

Lemma two_opt_Ok (fuel : nat) (r : rota) :
  two_opt m dep (S fuel) r
  = Ok (if (length r <? 3)%nat then r else (two_opt_varredura m dep r).1).
Proof.
  unfold two_opt. destruct (length r <? 3)%nat; [done|].
  apply two_opt_while_uma_passada.
Qed.

Lemma two_opt_inv (fuel : nat) (r r' : rota) :
  two_opt m dep fuel r = Ok r' → r' ≡ₚ r ∧ head r' = head r.
Proof.
  destruct fuel as [|fuel].
  - unfold two_opt. destruct (length r <? 3)%nat; [|done].
    by intros [= <-].
  - rewrite two_opt_Ok. intros [= <-].
    destruct (length r <? 3)%nat; [done|]. apply two_opt_varredura_inv.
Qed.

End DoisOpt.

(** C10: [two_opt] returns a route (one unit of fuel runs the only pass of
    its loop) and the first service of that route is the first service of
    the route it was given. *)
Theorem two_opt_preserva_primeiro (m : matriz) (dep : Z) (fuel : nat) (r : rota) :
  ∃ r', two_opt m dep (S fuel) r = Ok r' ∧ head r' = head r.
Proof.
  eexists. split; [apply two_opt_Ok|].
  destruct (length r <? 3)%nat; [done|]. apply two_opt_varredura_inv.
Qed.

(** C5: on the five grid services (depot at vertex 33) [two_opt] returns
    after one pass the route 1, 2, 4, 3, 5 of cost 21, although reversing
    its positions 1..2 gives 1, 4, 2, 3, 5 of cost 19: the route returned is
    not a fixed point, and a second call moves it again. *)
Theorem two_opt_retorna_sem_ponto_fixo :
  ∃ r' : rota,
    two_opt grade 33 1 rota_grade = Ok r'
    ∧ id_servico <$> r' = [1; 2; 4; 3; 5]
    ∧ rota_custo grade 33 r' = 21
    ∧ rota_custo grade 33 (inverte_trecho r' 1 3) = 19
    ∧ two_opt grade 33 1 r' ≠ Ok r'.
Proof.
  eexists. split; [vm_compute; reflexivity|].
  repeat split; vm_compute; congruence.
Qed.

(** ** Multi-start driver *)

Lemma substitui_spec (c n c0 n0 : Z) r0 d0 k0 :
  substitui c n (Melhor (Fin c0) (Fin n0) r0 d0 k0) = true
  ↔ c < c0 ∨ (c = c0 ∧ n < n0).
Proof.
  unfold substitui; simpl.
  rewrite orb_true_iff, andb_true_iff, !Z.ltb_lt, Z.eqb_eq. done.
Qed.

(** C6: the incumbent [(c0, n0)] is replaced by a validated trial of cost
    [c] with [n] routes exactly when [c < c0], or [c = c0] and [n < n0];
    otherwise it is kept as it is.  With 100/3 routes against 100/2 routes
    the 2-route candidate is selected, with 90/5 against 100/2 the one of
    cost 90, in whichever order the trials come. *)
Theorem regra_de_selecao :
  (∀ (c0 n0 : Z) r0 d0 k0 (c : Z) (rotas : list rota) (dem : list Z) (clk : Z),
     let m := Melhor (Fin c0) (Fin n0) r0 d0 k0 in
     let n := Z.of_nat (length rotas) in
     (substitui c n m = true ↔ c < c0 ∨ (c = c0 ∧ n < n0))
     ∧ (substitui c n m = true →
        atualiza_melhor m c rotas dem clk
        = Melhor (Fin c) (Fin n) (Some rotas) (Some dem) (Some clk))
     ∧ (substitui c n m = false → atualiza_melhor m c rotas dem clk = m))
  ∧ melhor_rotas (seleciona [(100, n_rotas 3, []); (100, n_rotas 2, [])]) = Some (n_rotas 2)
  ∧ melhor_rotas (seleciona [(100, n_rotas 2, []); (100, n_rotas 3, [])]) = Some (n_rotas 2)
  ∧ sem_relogio (seleciona [(90, n_rotas 5, []); (100, n_rotas 2, [])])
    = (Fin 90, Fin 5, Some (n_rotas 5), Some [])
  ∧ sem_relogio (seleciona [(100, n_rotas 2, []); (90, n_rotas 5, [])])
    = (Fin 90, Fin 5, Some (n_rotas 5), Some []).
Proof.
  split; [|repeat split].
  intros c0 n0 r0 d0 k0 c rotas dem clk m n. split; [apply substitui_spec|].
  unfold atualiza_melhor. fold n. split; intros ->; done.
Qed.

Section Determinismo.
Variable R : prng.
Variable servicos : list servico.
Variable deposito : Z.
Variable matriz_distancias : matriz.
Variable capacidade : Z.
Variable servicos_obrigatorios : list servico.
Variable k_grasp : nat.

Local Abbreviation passo := (tentativa_passo R servicos deposito matriz_distancias
                              capacidade servicos_obrigatorios k_grasp).
Local Abbreviation laco := (tentativas R servicos deposito matriz_distancias
                              capacidade servicos_obrigatorios k_grasp).

Lemma atualiza_melhor_sem_relogio (m1 m2 : melhor) c rotas dem clk1 clk2 :
  sem_relogio m1 = sem_relogio m2 →
  sem_relogio (atualiza_melhor m1 c rotas dem clk1)
  = sem_relogio (atualiza_melhor m2 c rotas dem clk2).
Proof.
  destruct m1, m2. unfold sem_relogio, atualiza_melhor, substitui. simpl.
  intros [= -> -> -> ->]. by destruct (_ || _).
Qed.

(** A trial starts by seeding the generator, so what it leaves depends
    neither on the random state nor on the clock it found. *)
Lemma tentativa_passo_independente (rel1 rel2 : nat → Z) (fuel : nat)
    (m1 m2 : melhor) (g1 g2 : estado R) (t : nat) :
  sem_relogio m1 = sem_relogio m2 →
  match passo rel1 fuel m1 g1 t, passo rel2 fuel m2 g2 t with
  | Ok (m1', g1'), Ok (m2', g2') => sem_relogio m1' = sem_relogio m2' ∧ g1' = g2'
  | Raise e1, Raise e2 => e1 = e2
  | OutOfFuel, OutOfFuel => True
  | _, _ => False
  end.
Proof.
  intros Hm. unfold tentativa_passo.
  destruct (clarke_wright_grasp _ _ _ _ _ _ _) as [[[rotas dem] g]| |]; simpl; [|done..].
  destruct (vnd _ _ _ _ _ _) as [[rotas' dem']| |]; simpl; [|done..].
  destruct (segment_relocate _ _ _ _ _ _ _) as [[rotas'' dem'']| |]; simpl; [|done..].
  destruct (cobertura_invalida _ _); [done|].
  split; [|done]. by apply atualiza_melhor_sem_relogio.
Qed.

Lemma tentativas_independente (rel1 rel2 : nat → Z) (fuel : nat) (ts : list nat) :
  ∀ (m1 m2 : melhor) (g1 g2 : estado R),
    sem_relogio m1 = sem_relogio m2 →
    decisao (laco rel1 fuel m1 g1 ts) = decisao (laco rel2 fuel m2 g2 ts).
Proof.
  induction ts as [|t ts IH]; intros m1 m2 g1 g2 Hm; simpl.
  - by rewrite Hm.
  - pose proof (tentativa_passo_independente rel1 rel2 fuel m1 m2 g1 g2 t Hm) as H.
    destruct (passo rel1 fuel m1 g1 t) as [[m1' g1']|e1|],
             (passo rel2 fuel m2 g2 t) as [[m2' g2']|e2|]; simpl; try done.
    + destruct H as [H ->]. by apply IH.
    + by subst.
Qed.

End Determinismo.

(** Two runs of the driver that meet the same generator take the same
    decision on the same services, depot, matrix, capacity, pool size and
    number of trials (same best cost, same number of routes, same routes
    and demands, or the same failure), whatever the random state and the
    clock each run starts from: every trial seeds the generator with 12345
    plus its index. *)
Lemma multi_start_determinado_pelo_gerador (R : prng) (servicos : list servico)
    (deposito : Z) (matriz_distancias : matriz) (capacidade : Z)
    (servicos_obrigatorios : list servico) (k_grasp fuel num_tentativas : nat)
    (relogio1 relogio2 : nat → Z) (g1 g2 : estado R) :
  decisao (multi_start_melhor R servicos deposito matriz_distancias capacidade
             servicos_obrigatorios k_grasp relogio1 fuel num_tentativas g1)
  = decisao (multi_start_melhor R servicos deposito matriz_distancias capacidade
               servicos_obrigatorios k_grasp relogio2 fuel num_tentativas g2).
Proof. unfold multi_start_melhor. by apply tentativas_independente. Qed.

(** ** Serializer *)

Lemma imprime_inv (r : rota) :
  let st := foldl imprime (∅, []) r in
  st.1 = list_to_set (id_servico <$> r)
  ∧ NoDup (id_servico <$> st.2)
  ∧ list_to_set (id_servico <$> st.2) = st.1
  ∧ st.2 ⊆ r.
Proof.
  induction r as [|s r IH] using rev_ind; simpl.
  - split; [done|]. split; [constructor|]. split; [done|]. done.
  - rewrite foldl_snoc. destruct IH as (H1 & H2 & H3 & H4).
    rewrite fmap_app, list_to_set_app_L. simpl.
    destruct (foldl imprime (∅, []) r) as [vistos saida]. simpl in *.
    unfold imprime. simpl. case_bool_decide as Hin; simpl.
    + split; [set_solver|]. split; [done|]. split; [done|]. set_solver.
    + rewrite fmap_app, list_to_set_app_L. simpl.
      split; [set_solver|]. split; [|split; [set_solver|set_solver]].
      apply NoDup_app. split; [done|]. split; [|apply NoDup_singleton].
      intros x Hx Hx'. apply list_elem_of_singleton in Hx' as ->.
      apply Hin. rewrite <- H3. by apply elem_of_list_to_set.
Qed.

Lemma acumula_dom (r : rota) :
  dom (servicos_unicos (foldl acumula (Acumulado ∅ 0 0 []) r))
  = list_to_set (id_servico <$> r).
Proof.
  induction r as [|s r IH] using rev_ind; simpl.
  - by rewrite dom_empty_L.
  - rewrite foldl_snoc, fmap_app, list_to_set_app_L. simpl.
    unfold acumula at 1.
    destruct (servicos_unicos _ !! id_servico s) eqn:Hl.
    + rewrite IH. apply elem_of_dom_2 in Hl. rewrite IH in Hl. set_solver.
    + simpl. rewrite dom_insert_L, IH. set_solver.
Qed.

(** The record of a line holds one service per distinct service id of the
    route, each taken from the route and none twice, whatever repetitions
    the route has, and its visit count is 2 plus the number of distinct
    service ids of the route. *)
Lemma monta_linha_distintos (m : matriz) (dep : Z) (idx : nat) (r : rota) :
  let l := monta_linha m dep idx r in
  NoDup (id_servico <$> l_servicos l)
  ∧ (∀ s, s ∈ r → id_servico s ∈ id_servico <$> l_servicos l)
  ∧ l_servicos l ⊆ r
  ∧ l_total_visitas l = 2 + Z.of_nat (length (l_servicos l))
  ∧ length (l_servicos l) = size (list_to_set (id_servico <$> r) : gset Z).
Proof.
  simpl. unfold impressos.
  destruct (imprime_inv r) as (H1 & H2 & H3 & H4).
  assert (length (foldl imprime (∅, []) r).2
          = size (list_to_set (id_servico <$> r) : gset Z)) as Hlen.
  { rewrite <- H1, <- H3, size_list_to_set by done. by rewrite length_fmap. }
  split; [done|]. split; [|split; [done|split; [|done]]].
  - intros s Hs. apply (elem_of_list_to_set (C := gset Z)).
    rewrite H3, H1. apply elem_of_list_to_set. by apply list_elem_of_fmap_2.
  - rewrite Hlen, <- acumula_dom, size_dom. done.
Qed.

(** The text of a line: the route repeats service 1, the line does not. *)
Lemma texto_linha_exemplo :
  texto_linha 0 (monta_linha linha_reta 0 1
                   [serv_vertice 1 9 2; serv_vertice 2 8 2; serv_vertice 1 9 2])
  = "0 1 1 4 20 4 (D 0,1,1) (S 1,9,9) (S 2,8,8) (D 0,1,1)"%string.
Proof. vm_compute. reflexivity. Qed.

(** ** Lists of routes assigned by index *)

Lemma mjoin_insert {A} (l : list (list A)) (i : nat) (y : list A) :
  (i < length l)%nat → mjoin (<[i := y]> l) ≡ₚ y ++ mjoin (<[i := []]> l).
Proof.
  revert i. induction l as [|x l IH]; intros i Hi; [simpl in Hi; lia|].
  destruct i as [|i]; simpl; [done|].
  rewrite IH by (simpl in Hi; lia).
  rewrite !(assoc_L (++)). f_equiv. apply Permutation_app_comm.
Qed.

Lemma mjoin_lookup {A} (l : list (list A)) (i : nat) (x : list A) :
  l !! i = Some x → mjoin l ≡ₚ x ++ mjoin (<[i := []]> l).
Proof.
  intros H. rewrite <- (list_insert_id l i x) at 1 by done.
  apply mjoin_insert. by eapply lookup_lt_Some.
Qed.

(** Two routes are replaced by two routes with the same services. *)
Lemma mjoin_troca {A} (l : list (list A)) (i j : nat) (ri rj ni nj : list A) :
  i ≠ j → l !! i = Some ri → l !! j = Some rj → ni ++ nj ≡ₚ ri ++ rj →
  mjoin (<[j := nj]> (<[i := ni]> l)) ≡ₚ mjoin l.
Proof.
  intros Hij Hi Hj Hp.
  assert (i < length l)%nat as Hli by by eapply lookup_lt_Some.
  assert (j < length l)%nat as Hlj by by eapply lookup_lt_Some.
  rewrite mjoin_insert by (by rewrite length_insert).
  rewrite list_insert_insert_ne by done.
  rewrite mjoin_insert by (by rewrite length_insert).
  rewrite (mjoin_lookup l i ri) by done.
  rewrite (mjoin_lookup (<[i := []]> l) j rj) by (by rewrite list_lookup_insert_ne).
  rewrite (list_insert_insert_ne l j i) by done.
  rewrite !(assoc_L (++)). f_equiv. by rewrite (comm (++)).
Qed.

Lemma mjoin_filter_nao_vazia {A} (l : list (list A)) :
  mjoin (List.filter nao_vazia l) = mjoin l.
Proof.
  induction l as [|[|a x] l IH]; simpl; [done|done|]. by rewrite IH.
Qed.

Lemma cobertura_perm (rotas rotas' : list rota) (servicos : list servico) :
  mjoin rotas' ≡ₚ mjoin rotas → cobertura rotas servicos → cobertura rotas' servicos.
Proof.
  intros Hp [Hnd Hset]. unfold cobertura, ids_nas_rotas in *.
  split; [by rewrite Hp|]. intros x. rewrite Hp. apply Hset.
Qed.

Lemma cobertura_catalogo (rotas : list rota) (servicos : list servico) :
  NoDup (id_servico <$> servicos) → mjoin rotas ≡ₚ servicos → cobertura rotas servicos.
Proof.
  intros Hnd Hp. unfold cobertura, ids_nas_rotas. split; [by rewrite Hp|].
  intros x. by rewrite Hp.
Qed.

(** ** The validation of the driver and of segment_relocate *)

Lemma pertence_spec (x : Z) (l : list Z) : pertence x l = true ↔ x ∈ l.
Proof.
  unfold pertence. rewrite existsb_exists. split.
  - intros (y & Hy & Heq). apply Z.eqb_eq in Heq as ->. by apply list_elem_of_In.
  - intros H. exists x. split; [by apply list_elem_of_In|apply Z.eqb_refl].
Qed.

Lemma mesmo_conjunto_spec (a b : list Z) :
  mesmo_conjunto a b = true ↔ ∀ x, x ∈ a ↔ x ∈ b.
Proof.
  unfold mesmo_conjunto. rewrite andb_true_iff, !forallb_forall. split.
  - intros [H1 H2] x. split; intros Hx; apply pertence_spec;
      [apply H1|apply H2]; by apply list_elem_of_In.
  - intros H. split; intros x Hx; apply pertence_spec, H; by apply list_elem_of_In.
Qed.

Lemma distintos_length (l : list Z) : (length (distintos l) ≤ length l)%nat.
Proof.
  induction l as [|x l IH]; simpl; [done|].
  destruct (pertence x l); simpl; lia.
Qed.

Lemma distintos_NoDup (l : list Z) :
  length l = length (distintos l) → NoDup l.
Proof.
  induction l as [|x l IH]; simpl; [constructor|].
  pose proof (distintos_length l).
  destruct (pertence x l) eqn:Hx; simpl; intros Hlen; [lia|].
  constructor; [|apply IH; lia].
  intros Hin. apply pertence_spec in Hin. congruence.
Qed.

Lemma cobertura_valida (rotas : list rota) (servicos : list servico) :
  cobertura_invalida rotas servicos = false → cobertura rotas servicos.
Proof.
  unfold cobertura_invalida. rewrite orb_false_iff, !negb_false_iff.
  intros [Hset Hlen]. apply Nat.eqb_eq in Hlen. split.
  - by apply distintos_NoDup.
  - by apply mesmo_conjunto_spec.
Qed.

(** ** Pruning *)

Lemma poda_em_pares_rotas (rotas : list rota) (demandas : list Z) :
  length demandas = length rotas →
  (poda_em_pares rotas demandas).1 = List.filter nao_vazia rotas.
Proof.
  unfold poda_em_pares. simpl. revert demandas.
  induction rotas as [|r rotas IH]; intros [|d demandas] Hlen; try done.
  simpl in *. destruct (nao_vazia r); simpl; rewrite IH by lia; done.
Qed.

Lemma poda_em_pares_length (rotas : list rota) (demandas : list Z) :
  length (poda_em_pares rotas demandas).2 = length (poda_em_pares rotas demandas).1.
Proof. unfold poda_em_pares. simpl. by rewrite !length_fmap. Qed.

Lemma poda_apos_filtro_length (rotas : list rota) (demandas : list Z) :
  length demandas = length rotas →
  length (poda_apos_filtro rotas demandas).2 = length (poda_apos_filtro rotas demandas).1.
Proof.
  intros Hlen. unfold poda_apos_filtro. simpl.
  assert (length (List.filter nao_vazia rotas) ≤ length demandas)%nat as Hle.
  { rewrite Hlen. apply filter_length_le. }
  revert Hle. generalize demandas. clear.
  induction (List.filter nao_vazia rotas) as [|r l IH] eqn:Hf; intros demandas Hle;
    [done|].
  assert (Forall (λ r, nao_vazia r = true) (r :: l)) as Hall.
  { rewrite <- Hf. apply Forall_forall. intros x Hx.
    apply list_elem_of_In, filter_In in Hx. tauto. }
  clear Hf IH. revert demandas Hle.
  induction Hall as [|r' l' Hr' _ IH]; intros demandas Hle; [done|].
  destruct demandas as [|d demandas]; [simpl in Hle; lia|].
  simpl in *. rewrite Hr'. simpl. rewrite IH by lia. done.
Qed.

Lemma custo_das_rotas_filter (m : matriz) (dep : Z) (rotas : list rota) :
  custo_das_rotas m dep (List.filter nao_vazia rotas) = custo_das_rotas m dep rotas.
Proof.
  unfold custo_das_rotas. induction rotas as [|[|s r] rotas IH]; [done|..];
    cbn [List.filter nao_vazia]; rewrite ?fmap_cons, ?soma_cons, IH; [|done].
  change (rota_custo m dep []) with 0. lia.
Qed.

(** ** The savings list *)

Lemma insere_desc_perm (x : saving) (l : list saving) : insere_desc x l ≡ₚ x :: l.
Proof.
  induction l as [|y l IH]; simpl; [done|].
  destruct (saving_ltb x y); [|done]. rewrite IH. apply perm_swap.
Qed.

Lemma sort_reverse_perm (l : list saving) : sort_reverse l ≡ₚ l.
Proof.
  unfold sort_reverse. induction l as [|x l IH]; simpl; [done|].
  by rewrite insere_desc_perm, IH.
Qed.

Lemma saving_ltb_total (a b : saving) :
  saving_ltb a b = false → saving_ltb b a = true ∨ a = b.
Proof.
  destruct a as [[sa ia] ja], b as [[sb ib] jb]. unfold saving_ltb.
  rewrite !orb_false_iff, !andb_false_iff, !orb_true_iff, !andb_true_iff.
  rewrite !orb_false_iff, !andb_false_iff, !orb_true_iff, !andb_true_iff.
  rewrite !Z.ltb_lt, !Z.ltb_ge, !Z.eqb_eq, !Z.eqb_neq,
    !Nat.ltb_lt, !Nat.ltb_ge, !Nat.eqb_eq, !Nat.eqb_neq.
  intros H.
  destruct (decide (sa = sb)) as [->|]; [|left; lia].
  destruct (decide (ia = ib)) as [->|]; [|left; lia].
  destruct (decide (ja = jb)) as [->|]; [by right|left; lia].
Qed.

Lemma saving_ltb_trans (a b c : saving) :
  saving_ltb a b = true → saving_ltb b c = true → saving_ltb a c = true.
Proof.
  destruct a as [[sa ia] ja], b as [[sb ib] jb], c as [[sc ic] jc]. unfold saving_ltb.
  rewrite !orb_true_iff, !andb_true_iff, !orb_true_iff, !andb_true_iff.
  rewrite !Z.ltb_lt, !Z.eqb_eq, !Nat.ltb_lt, !Nat.eqb_eq. lia.
Qed.

(** The list sorted by [sort_reverse] never goes up. *)
Lemma insere_desc_sorted (x : saving) (l : list saving) :
  StronglySorted (λ a b, saving_ltb a b = false) l →
  StronglySorted (λ a b, saving_ltb a b = false) (insere_desc x l).
Proof.
  induction 1 as [|y l Hs IH Hall]; simpl.
  - repeat constructor.
  - destruct (saving_ltb x y) eqn:Hxy.
    + constructor; [done|].
      rewrite insere_desc_perm. constructor; [|done].
      destruct (saving_ltb y x) eqn:Hyx; [|done].
      destruct x as [[sx ix] jx], y as [[sy iy] jy]. unfold saving_ltb in *.
      rewrite !orb_true_iff, !andb_true_iff, !orb_true_iff, !andb_true_iff in *.
      rewrite !Z.ltb_lt, !Z.eqb_eq, !Nat.ltb_lt, !Nat.eqb_eq in *. lia.
    + constructor; [by constructor|]. constructor; [done|].
      eapply Forall_impl; [exact Hall|]. intros z Hyz. simpl in Hyz.
      destruct (saving_ltb x z) eqn:Hxz; [|done].
      destruct (saving_ltb_total _ _ Hyz) as [Hzy| ->]; [|congruence].
      pose proof (saving_ltb_trans _ _ _ Hxz Hzy). congruence.
Qed.

Lemma sort_reverse_sorted (l : list saving) :
  StronglySorted (λ a b, saving_ltb a b = false) (sort_reverse l).
Proof.
  unfold sort_reverse. induction l as [|x l IH]; simpl; [constructor|].
  by apply insere_desc_sorted.
Qed.

Lemma calcular_savings_validos (servicos : list servico) dep m :
  Forall (saving_valido (length servicos)) (calcular_savings servicos dep m).
Proof.
  unfold calcular_savings. rewrite sort_reverse_perm.
  apply Forall_forall. intros sv Hsv.
  apply list_elem_of_join in Hsv as (l & Hsv & Hl).
  apply elem_of_lookup_imap in Hl as (i & s_i & -> & Hi).
  apply elem_of_lookup_imap in Hsv as (dj & s_j & -> & Hj).
  apply lookup_lt_Some in Hi, Hj. rewrite length_drop in Hj.
  unfold saving_valido. simpl. lia.
Qed.

Lemma saving_eqb_refl (x : saving) : saving_eqb x x = true.
Proof.
  destruct x as [[s i] j]. unfold saving_eqb.
  by rewrite Z.eqb_refl, !Nat.eqb_refl.
Qed.

Lemma saving_eqb_eq (x y : saving) : saving_eqb x y = true → x = y.
Proof.
  destruct x as [[s i] j], y as [[s' i'] j']. unfold saving_eqb.
  rewrite !andb_true_iff, Z.eqb_eq, !Nat.eqb_eq. by intros [[-> ->] ->].
Qed.

Lemma remove_saving_length (x : saving) (l : list saving) :
  x ∈ l → S (length (remove_saving x l)) = length l.
Proof.
  induction l as [|y l IH]; intros Hx; [by apply elem_of_nil in Hx|]. simpl.
  destruct (saving_eqb x y) eqn:Heq; [done|].
  apply elem_of_cons in Hx as [->|Hx]; [by rewrite saving_eqb_refl in Heq|].
  simpl. by rewrite IH.
Qed.

Lemma remove_saving_subseteq (x : saving) (l : list saving) : remove_saving x l ⊆ l.
Proof.
  induction l as [|y l IH]; simpl; [done|].
  destruct (saving_eqb x y).
  - intros z Hz. by right.
  - intros z Hz. apply elem_of_cons in Hz as [->|Hz]; [left|right; by apply IH].
Qed.

(** ** Construction keeps the services *)

Lemma construir_rotas_iniciais_eq (servicos : list servico) dep m cap :
  construir_rotas_iniciais servicos dep m cap
  = ((λ s, [s]) <$> servicos, demanda <$> servicos).
Proof.
  unfold construir_rotas_iniciais.
  enough (∀ rs ds, foldl (λ '(rotas, demandas) serv,
                            (rotas ++ [[serv]], demandas ++ [demanda serv]))
                         (rs, ds) servicos
                   = (rs ++ ((λ s, [s]) <$> servicos), ds ++ (demanda <$> servicos)))
    as H by apply (H [] []).
  induction servicos as [|s l IH]; intros rs ds; simpl.
  - by rewrite !app_nil_r.
  - rewrite IH, <- !(assoc_L (++)). done.
Qed.

Lemma mjoin_singletons {A} (l : list A) : mjoin ((λ s, [s]) <$> l) = l.
Proof. induction l as [|a l IH]; simpl; [done|by f_equal]. Qed.

Lemma funde_perm cap (rotas : list rota) (demandas : list Z) idx_i idx_j rotas' demandas' :
  funde cap rotas demandas idx_i idx_j = Ok (rotas', demandas') →
  mjoin rotas' ≡ₚ mjoin rotas.
Proof.
  unfold funde. destruct idx_i as [a|], idx_j as [b|]; try (by intros [= <- <-]).
  case_bool_decide as Hab; [|by intros [= <- <-]].
  intros H. apply bind_Ok in H as (d_a & _ & H). apply bind_Ok in H as (d_b & _ & H).
  destruct (d_a + d_b <=? cap); [|by injection H as <- <-].
  apply bind_Ok in H as (r_a & Ha & H). apply bind_Ok in H as (r_b & Hb & H).
  apply item_Ok in Ha, Hb. injection H as <- <-.
  apply (mjoin_troca rotas a b r_a r_b); [done..|]. by rewrite app_nil_r.
Qed.

Lemma cw_while_perm (R : prng) (servicos : list servico) cap k (fuel : nat) :
  ∀ savings (rotas : list rota) demandas g rotas' demandas' g',
    cw_while R servicos cap k fuel savings rotas demandas g = Ok (rotas', demandas', g') →
    mjoin rotas' ≡ₚ mjoin rotas.
Proof.
  induction fuel as [|fuel IH]; intros savings rotas demandas g rotas' demandas' g';
    destruct savings as [|sv savings]; simpl; try (by intros [= <- <- <-]).
  intros H. apply bind_Ok in H as ([[[s i] j] g1] & _ & H).
  apply bind_Ok in H as (s_i & _ & H). apply bind_Ok in H as (s_j & _ & H).
  destruct (busca_rotas rotas _ _) as [idx_i idx_j].
  apply bind_Ok in H as ([rotas1 demandas1] & Hf & H).
  apply funde_perm in Hf. apply IH in H. by rewrite H.
Qed.

Lemma clarke_wright_grasp_perm (R : prng) (servicos : list servico) dep m cap k g
    rotas demandas g' :
  clarke_wright_grasp R servicos dep m cap k g = Ok (rotas, demandas, g') →
  mjoin rotas ≡ₚ servicos.
Proof.
  unfold clarke_wright_grasp. rewrite construir_rotas_iniciais_eq.
  intros H. apply bind_Ok in H as ([[rotas1 demandas1] g1] & Hw & H).
  apply cw_while_perm in Hw. rewrite mjoin_singletons in Hw.
  unfold poda_apos_filtro in H. destruct (negb _); [done|].
  injection H as <- _ _. by rewrite mjoin_filter_nao_vazia.
Qed.

(** ** The construction returns *)

Lemma choice_Ok (R : prng) {A} (l : list A) (g : estado R) :
  l ≠ [] → ∃ a g', choice R l g = Ok (a, g') ∧ a ∈ l.
Proof.
  intros Hl. unfold choice. destruct l as [|x l]; [done|].
  pose proof (sorteia_lt R (length (x :: l)) g ltac:(simpl; lia)) as Hlt.
  destruct (sorteia R (length (x :: l)) g) as [n g']. cbn [fst] in Hlt.
  apply lookup_lt_is_Some_2 in Hlt as [a Ha].
  exists a, g'. unfold item. rewrite Ha. split; [done|].
  by eapply list_elem_of_lookup_2.
Qed.

Lemma busca_rotas_lt (rotas : list rota) (id_i id_j : Z) :
  let '(idx_i, idx_j) := busca_rotas rotas id_i id_j in
  (∀ a, idx_i = Some a → (a < length rotas)%nat)
  ∧ (∀ b, idx_j = Some b → (b < length rotas)%nat).
Proof.
  unfold busca_rotas.
  apply (foldl_inv (λ st : option nat * option nat,
           let '(idx_i, idx_j) := st in
           (∀ a, idx_i = Some a → (a < length rotas)%nat)
           ∧ (∀ b, idx_j = Some b → (b < length rotas)%nat))); [done|].
  intros [idx_i idx_j] [idx r] [Hi Hj] Hin.
  apply elem_of_lookup_imap in Hin as (idx' & r' & [= -> ->] & Hidx).
  apply lookup_lt_Some in Hidx.
  split; intros x; repeat case_match; intros [= <-] || intros ?; eauto.
Qed.

Lemma funde_Ok cap (rotas : list rota) (demandas : list Z) idx_i idx_j :
  length demandas = length rotas →
  (∀ a, idx_i = Some a → (a < length rotas)%nat) →
  (∀ b, idx_j = Some b → (b < length rotas)%nat) →
  ∃ rotas' demandas',
    funde cap rotas demandas idx_i idx_j = Ok (rotas', demandas')
    ∧ length demandas' = length rotas'.
Proof.
  intros Hlen Hi Hj. unfold funde.
  destruct idx_i as [a|], idx_j as [b|]; try by eexists _, _.
  specialize (Hi a eq_refl). specialize (Hj b eq_refl).
  case_bool_decide; [|by eexists _, _].
  destruct (item_lt demandas a ltac:(lia)) as [d_a ->].
  destruct (item_lt demandas b ltac:(lia)) as [d_b ->]. simpl.
  destruct (_ <=? _); [|by eexists _, _].
  destruct (item_lt rotas a ltac:(lia)) as [r_a ->].
  destruct (item_lt rotas b ltac:(lia)) as [r_b ->]. simpl.
  eexists _, _. split; [done|]. by rewrite !length_insert.
Qed.

Section ConstrucaoRetorna.
Variable R : prng.
Variable servicos : list servico.
Variable capacidade : Z.
Variable k : nat.

Lemma cw_while_Ok (fuel : nat) :
  ∀ savings (rotas : list rota) demandas (g : estado R),
    Forall (saving_valido (length servicos)) savings →
    length demandas = length rotas →
    (length savings ≤ fuel)%nat →
    ∃ rotas' demandas' g',
      cw_while R servicos capacidade (S k) fuel savings rotas demandas g
      = Ok (rotas', demandas', g')
      ∧ length demandas' = length rotas'.
Proof.
  induction fuel as [|fuel IH]; intros savings rotas demandas g Hv Hlen Hfuel;
    destruct savings as [|sv0 savings]; try (by eexists _, _, _);
    [simpl in Hfuel; lia|].
  cbn [cw_while].
  destruct (choice_Ok R (take (S k) (sv0 :: savings)) g ltac:(done))
    as ([[s i] j] & g1 & -> & Hin).
  cbn [mbind res_bind].
  assert ((s, i, j) ∈ sv0 :: savings) as Hin'.
  { by eapply (subseteq_take (S k)). }
  rewrite Forall_forall in Hv. destruct (Hv _ Hin') as [Hi Hj]. simpl in Hi, Hj.
  destruct (item_lt servicos i Hi) as [s_i ->].
  destruct (item_lt servicos j Hj) as [s_j ->]. cbn [mbind res_bind].
  pose proof (busca_rotas_lt rotas (id_servico s_i) (id_servico s_j)) as Hb.
  destruct (busca_rotas rotas _ _) as [idx_i idx_j]. destruct Hb as [Hbi Hbj].
  destruct (funde_Ok capacidade rotas demandas idx_i idx_j Hlen Hbi Hbj)
    as (rotas1 & demandas1 & -> & Hlen1).
  cbn [mbind res_bind]. apply IH; [|done|].
  - apply Forall_forall. intros x Hx. apply Hv. by apply remove_saving_subseteq in Hx.
  - pose proof (remove_saving_length _ _ Hin'). simpl in *. lia.
Qed.

Lemma clarke_wright_grasp_Ok dep m (g : estado R) :
  ∃ rotas demandas g',
    clarke_wright_grasp R servicos dep m capacidade (S k) g = Ok (rotas, demandas, g')
    ∧ length demandas = length rotas
    ∧ mjoin rotas ≡ₚ servicos.
Proof.
  unfold clarke_wright_grasp. rewrite construir_rotas_iniciais_eq.
  destruct (cw_while_Ok (length (calcular_savings servicos dep m))
              (calcular_savings servicos dep m)
              ((λ s, [s]) <$> servicos) (demanda <$> servicos) g)
    as (rotas1 & demandas1 & g1 & Hw & Hlen1).
  { apply calcular_savings_validos. }
  { by rewrite !length_fmap. }
  { done. }
  rewrite Hw. cbn [mbind res_bind].
  pose proof (cw_while_perm _ _ _ _ _ _ _ _ _ _ _ _ Hw) as Hp.
  rewrite mjoin_singletons in Hp.
  pose proof (poda_apos_filtro_length rotas1 demandas1 Hlen1) as Hl.
  destruct (poda_apos_filtro rotas1 demandas1) as [rotas2 demandas2] eqn:Hpoda.
  assert (rotas2 = List.filter nao_vazia rotas1) as -> by (by injection Hpoda).
  assert (mjoin (List.filter nao_vazia rotas1) ≡ₚ servicos) as Hp2
    by (by rewrite mjoin_filter_nao_vazia).
  assert (mesmo_conjunto (id_servico <$> servicos)
            (ids_nas_rotas (List.filter nao_vazia rotas1)) = true) as ->.
  { apply mesmo_conjunto_spec. intros x. unfold ids_nas_rotas. by rewrite Hp2. }
  simpl. by eexists _, _, _.
Qed.

End ConstrucaoRetorna.

(** ** Relocate and 2-opt keep the services *)

Section BuscaLocalCobertura.
Variable capacidade : Z.
Variable m : matriz.
Variable dep : Z.

Lemma relocate_tenta_perm (rotas : list rota) demandas i j rota_i rota_j idx serv
    rotas' demandas' :
  i ≠ j → rotas !! i = Some rota_i → rotas !! j = Some rota_j →
  rota_i !! idx = Some serv →
  relocate_tenta capacidade m dep rotas demandas i j rota_i rota_j idx serv
    = Ok (Some (rotas', demandas')) →
  mjoin rotas' ≡ₚ mjoin rotas.
Proof.
  intros Hij Hi Hj Hidx. unfold relocate_tenta.
  intros H. apply bind_Ok in H as (d_j & _ & H).
  destruct (_ <=? _); [|done]. destruct (negb _); [done|].
  destruct (_ <? _); [|done].
  apply bind_Ok in H as (d_i & _ & H). apply bind_Ok in H as (d_j' & _ & H).
  injection H as <- _.
  apply (mjoin_troca rotas i j rota_i rota_j); [done..|].
  rewrite <- (take_drop_middle rota_i idx serv) at 3 by done.
  replace (idx + 1)%nat with (S idx) by lia.
  rewrite <- !app_assoc. f_equiv.
  rewrite (Permutation_app_comm rota_j [serv]). simpl.
  by rewrite Permutation_middle.
Qed.

Lemma relocate_varredura_perm (rotas : list rota) demandas rotas' demandas' :
  relocate_varredura capacidade m dep rotas demandas = Ok (Some (rotas', demandas')) →
  mjoin rotas' ≡ₚ mjoin rotas.
Proof.
  unfold relocate_varredura. intros H.
  apply varre_Some in H as (i & _ & H). apply varre_Some in H as (j & _ & H).
  apply bind_Ok in H as (rota_i & Hi & H). apply item_Ok in Hi.
  destruct (bool_decide (i = j)) eqn:Hij; [done|]. apply bool_decide_eq_false in Hij.
  destruct (negb (nao_vazia rota_i)); [done|]. simpl in H.
  apply bind_Ok in H as (rota_j & Hj & H). apply item_Ok in Hj.
  apply varre_Some in H as ([idx serv] & Hin & H).
  apply elem_of_lookup_imap in Hin as (idx' & serv' & [= -> ->] & Hidx).
  by eapply relocate_tenta_perm.
Qed.

Lemma relocate_while_perm (fuel : nat) :
  ∀ (rotas : list rota) demandas rotas' demandas',
    relocate_while capacidade m dep fuel rotas demandas = Ok (rotas', demandas') →
    mjoin rotas' ≡ₚ mjoin rotas.
Proof.
  induction fuel as [|fuel IH]; intros rotas demandas rotas' demandas'; simpl; [done|].
  intros H. apply bind_Ok in H as ([[rotas1 demandas1]|] & Hv & H).
  - apply relocate_varredura_perm in Hv. apply IH in H. by rewrite H.
  - by injection H as <- <-.
Qed.

Lemma relocate_perm (fuel : nat) (rotas : list rota) demandas rotas' demandas' :
  relocate capacidade m dep fuel rotas demandas = Ok (rotas', demandas') →
  mjoin rotas' ≡ₚ mjoin rotas.
Proof.
  unfold relocate. intros H. apply bind_Ok in H as ([rotas1 demandas1] & Hw & H).
  apply relocate_while_perm in Hw. injection H as <- _.
  by rewrite mjoin_filter_nao_vazia.
Qed.

Lemma two_opt_rotas_perm (fuel : nat) (rotas rotas' : list rota) :
  two_opt_rotas m dep fuel rotas = Ok rotas' → mjoin rotas' ≡ₚ mjoin rotas.
Proof.
  revert rotas'. induction rotas as [|r rotas IH]; intros rotas'; simpl.
  - by intros [= <-].
  - intros H. apply bind_Ok in H as (r' & Hr & H).
    apply bind_Ok in H as (rotas'' & Hrs & H). injection H as <-.
    apply two_opt_inv in Hr as [Hr _]. apply IH in Hrs. simpl. by rewrite Hr, Hrs.
Qed.

Lemma vnd_perm (fuel : nat) (rotas : list rota) demandas rotas' demandas' :
  vnd capacidade m dep fuel rotas demandas = Ok (rotas', demandas') →
  mjoin rotas' ≡ₚ mjoin rotas.
Proof.
  unfold vnd. intros H. apply bind_Ok in H as ([rotas1 demandas1] & Hr & H).
  apply bind_Ok in H as (rotas2 & Ht & H). injection H as <- _.
  apply relocate_perm in Hr. apply two_opt_rotas_perm in Ht. by rewrite Ht.
Qed.

End BuscaLocalCobertura.

(** ** A floor under the cost of every rearrangement *)

Section Piso.
Variable m : matriz.
Variable dep : Z.

Lemma cota_nonneg (vs : list Z) : 0 ≤ cota m vs.
Proof.
  unfold cota. induction (list_prod vs vs) as [|a l IH]; [done|].
  rewrite fmap_cons, soma_cons. lia.
Qed.

Lemma cota_spec (vs : list Z) (u v : Z) :
  u ∈ vs → v ∈ vs → - cota m vs ≤ m u v.
Proof.
  intros Hu Hv.
  pose proof (soma_nonneg_elem (λ uv, Z.abs (m uv.1 uv.2)) (list_prod vs vs) (u, v)) as H.
  simpl in H. unfold cota. 
  assert ((u, v) ∈ list_prod vs vs) as Hin.
  { apply list_elem_of_In, in_prod; by apply list_elem_of_In. }
  specialize (H ltac:(intros; lia) Hin). lia.
Qed.

Lemma percurso_piso (vs : list Z) (ant : Z) (ds : list Z) :
  dep ∈ vs → ant ∈ vs → ds ⊆ vs →
  - (Z.of_nat (length ds) + 1) * cota m vs ≤ percurso m dep ant ds.
Proof.
  intros Hdep. revert ant. induction ds as [|d ds IH]; intros ant Hant Hds; simpl.
  - pose proof (cota_spec vs ant dep Hant Hdep). lia.
  - assert (d ∈ vs) as Hd by (apply Hds; left).
    assert (ds ⊆ vs) as Hds' by (intros x Hx; apply Hds; by right).
    pose proof (cota_spec vs ant d Hant Hd).
    specialize (IH d Hd Hds'). lia.
Qed.

Lemma rota_custo_piso (vs : list Z) (r : rota) :
  dep ∈ vs → destino <$> r ⊆ vs →
  soma (custo_servico <$> r) - (Z.of_nat (length r) + 1) * cota m vs
  ≤ rota_custo m dep r.
Proof.
  intros Hdep Hr. destruct r as [|s r].
  - pose proof (cota_nonneg vs). simpl. unfold soma. simpl. lia.
  - rewrite rota_custo_percurso by done.
    pose proof (percurso_piso vs dep (destino <$> s :: r) Hdep Hdep Hr) as H.
    rewrite length_fmap in H. lia.
Qed.

Lemma custo_das_rotas_piso (vs : list Z) (rotas : list rota) :
  dep ∈ vs → destino <$> mjoin rotas ⊆ vs →
  soma (custo_servico <$> mjoin rotas)
  - (Z.of_nat (length (mjoin rotas)) + Z.of_nat (length rotas)) * cota m vs
  ≤ custo_das_rotas m dep rotas.
Proof.
  intros Hdep. unfold custo_das_rotas.
  induction rotas as [|r rotas IH]; intros Hvs; [simpl; unfold soma; simpl; lia|].
  simpl in Hvs. rewrite fmap_app in Hvs.
  assert (destino <$> r ⊆ vs) as Hr by (intros x Hx; apply Hvs, elem_of_app; by left).
  assert (destino <$> mjoin rotas ⊆ vs) as Hrs
    by (intros x Hx; apply Hvs, elem_of_app; by right).
  specialize (IH Hrs). pose proof (rota_custo_piso vs r Hdep Hr) as H1.
  change (mjoin (r :: rotas)) with (r ++ mjoin rotas).
  rewrite fmap_cons, soma_cons, fmap_app, soma_app, length_app, length_cons. lia.
Qed.

(** The floor of a solution holds for every rearrangement of its services
    over no more routes. *)
Lemma piso_rearranjo (rotas rotas' : list rota) :
  mjoin rotas' ≡ₚ mjoin rotas → (length rotas' ≤ length rotas)%nat →
  piso m dep rotas ≤ custo_das_rotas m dep rotas'.
Proof.
  intros Hp Hlen. unfold piso.
  pose proof (cota_nonneg (vertices_visitados dep rotas)) as Hc.
  pose proof (custo_das_rotas_piso (vertices_visitados dep rotas) rotas') as H.
  rewrite (soma_perm _ _ (fmap_Permutation custo_servico _ _ Hp)) in H.
  rewrite (Permutation_length Hp) in H.
  assert (dep ∈ vertices_visitados dep rotas) as Hdep by left.
  assert (destino <$> mjoin rotas' ⊆ vertices_visitados dep rotas) as Hsub.
  { intros x Hx. right. by rewrite <- Hp. }
  specialize (H Hdep Hsub). nia.
Qed.

End Piso.

(** ** [relocate] terminates *)

Section RelocateTermina.
Variable capacidade : Z.
Variable m : matriz.
Variable dep : Z.

Lemma relocate_tenta_concluiu (rotas : list rota) demandas i j rota_i rota_j idx serv :
  concluiu (relocate_tenta capacidade m dep rotas demandas i j rota_i rota_j idx serv).
Proof.
  unfold relocate_tenta, concluiu, item.
  repeat (case_match; simpl; try done).
Qed.

Lemma relocate_varredura_concluiu (rotas : list rota) demandas :
  concluiu (relocate_varredura capacidade m dep rotas demandas).
Proof.
  unfold relocate_varredura.
  apply varre_concluiu; intros i _. apply varre_concluiu; intros j _.
  unfold item. destruct (rotas !! i) as [rota_i|]; [|done]. simpl.
  destruct (_ || _); [done|].
  destruct (rotas !! j) as [rota_j|]; [|done]. simpl.
  apply varre_concluiu; intros [idx serv] _. apply relocate_tenta_concluiu.
Qed.

(** An applied move lowers the total cost and keeps the shape of the lists. *)
Lemma relocate_varredura_move (rotas : list rota) demandas rotas' demandas' :
  relocate_varredura capacidade m dep rotas demandas = Ok (Some (rotas', demandas')) →
  custo_das_rotas m dep rotas' < custo_das_rotas m dep rotas
  ∧ length rotas' = length rotas
  ∧ length demandas' = length demandas.
Proof.
  unfold relocate_varredura. intros H.
  apply varre_Some in H as (i & _ & H). apply varre_Some in H as (j & _ & H).
  apply bind_Ok in H as (rota_i & Hi & H). apply item_Ok in Hi.
  destruct (bool_decide (i = j)) eqn:Hij; [done|]. apply bool_decide_eq_false in Hij.
  destruct (negb (nao_vazia rota_i)); [done|]. simpl in H.
  apply bind_Ok in H as (rota_j & Hj & H). apply item_Ok in Hj.
  apply varre_Some in H as ([idx serv] & _ & H).
  unfold relocate_tenta in H.
  apply bind_Ok in H as (d_j & _ & H).
  destruct (_ <=? _); [|done]. destruct (negb _); [done|].
  destruct (_ <? _) eqn:Hlt; [|done]. apply Z.ltb_lt in Hlt.
  apply bind_Ok in H as (d_i & _ & H). apply bind_Ok in H as (d_j' & _ & H).
  injection H as <- <-.
  rewrite (custo_das_rotas_troca m dep rotas i j rota_i rota_j) by done.
  rewrite !length_insert. split; [lia|done].
Qed.

Lemma relocate_varredura_Ok (rotas : list rota) demandas :
  length demandas = length rotas →
  ∃ o, relocate_varredura capacidade m dep rotas demandas = Ok o.
Proof.
  intros Hlen. unfold relocate_varredura.
  apply varre_Ok; intros i Hi. apply elem_of_range in Hi.
  apply varre_Ok; intros j Hj. apply elem_of_range in Hj.
  destruct (item_lt rotas i ltac:(lia)) as [rota_i ->]. simpl.
  destruct (_ || _); [by eexists|].
  destruct (item_lt rotas j ltac:(lia)) as [rota_j ->]. simpl.
  apply varre_Ok; intros [idx serv] _. unfold relocate_tenta.
  destruct (item_lt demandas j ltac:(lia)) as [d_j ->]. simpl.
  destruct (_ <=? _); [|by eexists]. destruct (negb _); [by eexists|].
  destruct (_ <? _); [|by eexists].
  destruct (item_lt demandas i ltac:(lia)) as [d_i ->]. simpl.
  destruct (item_lt (<[i := d_i - demanda serv]> demandas) j
              ltac:(rewrite length_insert; lia)) as [d_j' ->]. simpl.
  by eexists.
Qed.

Lemma relocate_while_termina_aux (rotas0 : list rota) (n : nat) :
  ∀ (rotas : list rota) demandas,
    mjoin rotas ≡ₚ mjoin rotas0 → length rotas = length rotas0 →
    custo_das_rotas m dep rotas - piso m dep rotas0 < Z.of_nat n →
    ∃ fuel, concluiu (relocate_while capacidade m dep fuel rotas demandas).
Proof.
  induction n as [|n IH]; intros rotas demandas Hp Hlen Hn.
  - pose proof (piso_rearranjo m dep rotas0 rotas Hp ltac:(lia)). lia.
  - pose proof (relocate_varredura_concluiu rotas demandas) as Hc.
    destruct (relocate_varredura capacidade m dep rotas demandas)
      as [[[rotas1 demandas1]|]|e|] eqn:Hv; [| | |done].
    + pose proof (relocate_varredura_move _ _ _ _ Hv) as (Hlt & Hl1 & _).
      pose proof (relocate_varredura_perm _ _ _ _ _ _ _ Hv) as Hp1.
      destruct (IH rotas1 demandas1) as [fuel Hfuel]; [by rewrite Hp1|lia|lia|].
      exists (S fuel). simpl. by rewrite Hv.
    + exists 1%nat. simpl. by rewrite Hv.
    + exists 1%nat. simpl. by rewrite Hv.
Qed.

Lemma relocate_while_termina (rotas : list rota) demandas :
  ∃ fuel, concluiu (relocate_while capacidade m dep fuel rotas demandas).
Proof.
  apply (relocate_while_termina_aux rotas
           (Z.to_nat (custo_das_rotas m dep rotas - piso m dep rotas + 1)));
    [done|done|].
  pose proof (piso_rearranjo m dep rotas rotas ltac:(done) ltac:(done)). lia.
Qed.

(** More fuel does not change what a finished loop returned. *)
Lemma relocate_while_mono (fuel : nat) :
  ∀ (fuel' : nat) (rotas : list rota) demandas,
    (fuel ≤ fuel')%nat →
    concluiu (relocate_while capacidade m dep fuel rotas demandas) →
    relocate_while capacidade m dep fuel' rotas demandas
    = relocate_while capacidade m dep fuel rotas demandas.
Proof.
  induction fuel as [|fuel IH]; intros fuel' rotas demandas Hle Hc; [done|].
  destruct fuel' as [|fuel']; [lia|]. simpl in *.
  destruct (relocate_varredura capacidade m dep rotas demandas)
    as [[[rotas1 demandas1]|]|e|]; try done.
  simpl in *. apply IH; [lia|done].
Qed.

(** On lists of equal length the loop raises nothing. *)
Lemma relocate_while_Ok (fuel : nat) :
  ∀ (rotas : list rota) demandas,
    length demandas = length rotas →
    concluiu (relocate_while capacidade m dep fuel rotas demandas) →
    ∃ rotas' demandas',
      relocate_while capacidade m dep fuel rotas demandas = Ok (rotas', demandas')
      ∧ length demandas' = length rotas'.
Proof.
  induction fuel as [|fuel IH]; intros rotas demandas Hlen Hc; [done|].
  simpl in *. destruct (relocate_varredura_Ok rotas demandas Hlen) as [o Ho].
  rewrite Ho in *. simpl in *. destruct o as [[rotas1 demandas1]|].
  - apply relocate_varredura_move in Ho as (_ & Hl1 & Hl2).
    apply IH; [congruence|done].
  - by eexists _, _.
Qed.

End RelocateTermina.

(** ** [segment_relocate] terminates *)

Section SegmentTermina.
Variable capacidade : Z.
Variable m : matriz.
Variable dep : Z.

Lemma segment_tenta_concluiu (rotas : list rota) demandas i j ro rd dd n start end_ :
  concluiu (segment_tenta capacidade m dep rotas demandas i j ro rd dd n start end_).
Proof. unfold segment_tenta, concluiu. repeat (case_match; simpl; try done). Qed.

Lemma segment_varredura_concluiu (rotas : list rota) demandas :
  concluiu (segment_varredura capacidade m dep rotas demandas).
Proof.
  unfold segment_varredura.
  apply varre_concluiu; intros i _. apply varre_concluiu; intros j _.
  unfold item. destruct (rotas !! i) as [rota_i|]; [|done]. simpl.
  destruct (rotas !! j) as [rota_j|]; [|done]. simpl.
  destruct (_ || _); [done|].
  destruct (demandas !! i) as [d_i|]; [|done]. simpl.
  destruct (demandas !! j) as [d_j|]; [|done]. simpl.
  apply varre_concluiu; intros start _. apply varre_concluiu; intros end_ _.
  apply segment_tenta_concluiu.
Qed.

Lemma segment_varredura_move (rotas : list rota) demandas rotas' demandas' :
  segment_varredura capacidade m dep rotas demandas = Ok (Some (rotas', demandas')) →
  custo_das_rotas m dep rotas' < custo_das_rotas m dep rotas
  ∧ mjoin rotas' ≡ₚ mjoin rotas
  ∧ length rotas' = length rotas
  ∧ length demandas' = length demandas.
Proof.
  unfold segment_varredura. intros H.
  apply varre_Some in H as (i & _ & H). apply varre_Some in H as (j & _ & H).
  apply bind_Ok in H as (rota_i & Hi & H). apply item_Ok in Hi.
  apply bind_Ok in H as (rota_j & Hj & H). apply item_Ok in Hj.
  destruct (bool_decide (i = j)) eqn:Hij; [done|]. apply bool_decide_eq_false in Hij.
  destruct (_ || _); [done|].
  apply bind_Ok in H as (d_i & _ & H). apply bind_Ok in H as (d_j & _ & H).
  apply varre_Some in H as (start & _ & H).
  apply varre_Some in H as (end_ & Hend & H). apply elem_of_range in Hend.
  unfold segment_tenta in H.
  destruct (_ || _); [done|]. destruct (_ <? _); [done|].
  destruct (negb _); [done|].
  destruct (_ <? _) eqn:Hlt; [|done]. apply Z.ltb_lt in Hlt.
  injection H as <- <-.
  rewrite (custo_das_rotas_troca m dep rotas i j rota_i rota_j) by done.
  rewrite !length_insert. split; [lia|]. split; [|done].
  apply (mjoin_troca rotas i j rota_i rota_j); [done..|].
  rewrite <- (take_drop start rota_i) at 4.
  rewrite <- (take_drop (end_ - start) (drop start rota_i)) at 2.
  rewrite drop_drop. replace (start + (end_ - start))%nat with end_ by lia.
  rewrite <- !app_assoc. f_equiv.
  rewrite (Permutation_app_comm rota_j). by rewrite !app_assoc, (Permutation_app_comm (drop _ _)).
Qed.

Lemma segment_varredura_Ok (rotas : list rota) demandas :
  length demandas = length rotas →
  ∃ o, segment_varredura capacidade m dep rotas demandas = Ok o.
Proof.
  intros Hlen. unfold segment_varredura.
  apply varre_Ok; intros i Hi. apply elem_of_range in Hi.
  apply varre_Ok; intros j Hj. apply elem_of_range in Hj.
  destruct (item_lt rotas i ltac:(lia)) as [rota_i ->]. simpl.
  destruct (item_lt rotas j ltac:(lia)) as [rota_j ->]. simpl.
  destruct (_ || _); [by eexists|].
  destruct (item_lt demandas i ltac:(lia)) as [d_i ->]. simpl.
  destruct (item_lt demandas j ltac:(lia)) as [d_j ->]. simpl.
  apply varre_Ok; intros start _. apply varre_Ok; intros end_ _.
  unfold segment_tenta. repeat (case_match; try by eexists).
Qed.

Lemma segment_while_termina_aux (rotas0 : list rota) (n : nat) :
  ∀ (rotas : list rota) demandas,
    length demandas = length rotas →
    mjoin rotas ≡ₚ mjoin rotas0 → (length rotas ≤ length rotas0)%nat →
    custo_das_rotas m dep rotas - piso m dep rotas0 < Z.of_nat n →
    ∃ fuel rotas' demandas',
      segment_while capacidade m dep fuel rotas demandas = Ok (rotas', demandas')
      ∧ mjoin rotas' ≡ₚ mjoin rotas0
      ∧ length demandas' = length rotas'.
Proof.
  induction n as [|n IH]; intros rotas demandas Hld Hp Hlen Hn.
  - pose proof (piso_rearranjo m dep rotas0 rotas Hp Hlen). lia.
  - destruct (segment_varredura_Ok rotas demandas Hld) as [[[rotas1 demandas1]|] Hv].
    + pose proof (segment_varredura_move _ _ _ _ Hv) as (Hlt & Hp1 & Hl1 & Hd1).
      pose proof (poda_em_pares_rotas rotas1 demandas1 ltac:(congruence)) as Hr2.
      pose proof (poda_em_pares_length rotas1 demandas1) as Hl2.
      destruct (poda_em_pares rotas1 demandas1) as [rotas2 demandas2] eqn:Hpoda.
      simpl in Hr2, Hl2. subst rotas2.
      destruct (IH (List.filter nao_vazia rotas1) demandas2)
        as (fuel & rotas' & demandas' & Hw & Hp' & Hl'); [done|..].
      * by rewrite mjoin_filter_nao_vazia, Hp1.
      * pose proof (filter_length_le nao_vazia rotas1). lia.
      * rewrite custo_das_rotas_filter. lia.
      * exists (S fuel), rotas', demandas'. cbn [segment_while]. rewrite Hv.
        cbn [mbind res_bind]. by rewrite Hpoda.
    + exists 1%nat. cbn [segment_while]. rewrite Hv. cbn [mbind res_bind].
      pose proof (poda_em_pares_rotas rotas demandas Hld) as Hr2.
      pose proof (poda_em_pares_length rotas demandas) as Hl2.
      destruct (poda_em_pares rotas demandas) as [rotas2 demandas2].
      simpl in *. subst. eexists _, _. split; [done|]. split; [|done].
      by rewrite mjoin_filter_nao_vazia.
Qed.

Lemma segment_while_termina (rotas : list rota) demandas :
  length demandas = length rotas →
  ∃ fuel rotas' demandas',
    segment_while capacidade m dep fuel rotas demandas = Ok (rotas', demandas')
    ∧ mjoin rotas' ≡ₚ mjoin rotas
    ∧ length demandas' = length rotas'.
Proof.
  intros Hlen.
  apply (segment_while_termina_aux rotas
           (Z.to_nat (custo_das_rotas m dep rotas - piso m dep rotas + 1)));
    [done..|].
  pose proof (piso_rearranjo m dep rotas rotas ltac:(done) ltac:(done)). lia.
Qed.

Lemma segment_while_mono (fuel : nat) :
  ∀ (fuel' : nat) (rotas : list rota) demandas,
    (fuel ≤ fuel')%nat →
    concluiu (segment_while capacidade m dep fuel rotas demandas) →
    segment_while capacidade m dep fuel' rotas demandas
    = segment_while capacidade m dep fuel rotas demandas.
Proof.
  induction fuel as [|fuel IH]; intros fuel' rotas demandas Hle Hc; [done|].
  destruct fuel' as [|fuel']; [lia|]. simpl in *.
  destruct (segment_varredura capacidade m dep rotas demandas)
    as [[[rotas1 demandas1]|]|e|]; try done.
  simpl in *. destruct (poda_em_pares rotas1 demandas1). apply IH; [lia|done].
Qed.

End SegmentTermina.

(** ** Coverage along the pipeline *)

Lemma segment_relocate_cobertura cap m dep fuel (rotas : list rota) demandas obrig
    rotas' demandas' :
  segment_relocate cap m dep fuel rotas demandas obrig = Ok (rotas', demandas') →
  cobertura rotas' obrig.
Proof.
  unfold segment_relocate. intros H.
  apply bind_Ok in H as ([rotas1 demandas1] & _ & H).
  destruct (cobertura_invalida rotas1 obrig) eqn:Hc; [done|].
  injection H as <- _. by apply cobertura_valida.
Qed.

Section PipelineCobertura.
Variable R : prng.
Variable servicos : list servico.
Variable deposito : Z.
Variable matriz_distancias : matriz.
Variable capacidade : Z.
Variable servicos_obrigatorios : list servico.
Variable k_grasp : nat.
Variable relogio : nat → Z.

Local Abbreviation melhor_coberto := (melhor_coberto servicos_obrigatorios).

Lemma tentativa_passo_cobertura fuel (m : melhor) g t m' g' :
  melhor_coberto m →
  tentativa_passo R servicos deposito matriz_distancias capacidade
    servicos_obrigatorios k_grasp relogio fuel m g t = Ok (m', g') →
  melhor_coberto m'.
Proof.
  intros Hm. unfold tentativa_passo. intros H.
  apply bind_Ok in H as ([[rotas dem] g1] & _ & H).
  apply bind_Ok in H as ([rotas1 dem1] & _ & H).
  apply bind_Ok in H as ([rotas2 dem2] & _ & H).
  destruct (cobertura_invalida rotas2 servicos_obrigatorios) eqn:Hc.
  - by injection H as <- _.
  - injection H as <- _. unfold atualiza_melhor.
    destruct (substitui _ _ _); [|done].
    intros rotas' [= <-]. by apply cobertura_valida.
Qed.

Lemma tentativas_cobertura fuel (ts : list nat) :
  ∀ (m : melhor) g m' g',
    melhor_coberto m →
    tentativas R servicos deposito matriz_distancias capacidade
      servicos_obrigatorios k_grasp relogio fuel m g ts = Ok (m', g') →
    melhor_coberto m'.
Proof.
  induction ts as [|t ts IH]; intros m g m' g' Hm; simpl.
  - by intros [= <- _].
  - intros H. apply bind_Ok in H as ([m1 g1] & Hp & H).
    apply tentativa_passo_cobertura in Hp; [|done]. by eapply IH.
Qed.

Lemma multi_start_melhor_cobertura fuel num_tentativas g m' g' :
  multi_start_melhor R servicos deposito matriz_distancias capacidade
    servicos_obrigatorios k_grasp relogio fuel num_tentativas g = Ok (m', g') →
  melhor_coberto m'.
Proof. apply tentativas_cobertura. by intros rotas. Qed.

End PipelineCobertura.

(** ** The driver returns a solution *)

Lemma distintos_NoDup_length (l : list Z) : NoDup l → length (distintos l) = length l.
Proof.
  induction 1 as [|x l Hx _ IH]; simpl; [done|].
  destruct (pertence x l) eqn:Hp; [by apply pertence_spec in Hp|].
  simpl. by rewrite IH.
Qed.

Lemma cobertura_invalida_false (rotas : list rota) (servicos : list servico) :
  NoDup (id_servico <$> servicos) → mjoin rotas ≡ₚ servicos →
  cobertura_invalida rotas servicos = false.
Proof.
  intros Hnd Hp. unfold cobertura_invalida, ids_nas_rotas.
  assert (NoDup (id_servico <$> mjoin rotas)) as Hnd' by (by rewrite Hp).
  rewrite (distintos_NoDup_length _ Hnd'), Nat.eqb_refl.
  assert (mesmo_conjunto (id_servico <$> mjoin rotas) (id_servico <$> servicos) = true)
    as ->; [|done].
  apply mesmo_conjunto_spec. intros x. by rewrite Hp.
Qed.

Section EtapasRetornam.
Variable capacidade : Z.
Variable m : matriz.
Variable dep : Z.

Lemma two_opt_rotas_Ok (fuel : nat) (rotas : list rota) :
  ∃ rotas', two_opt_rotas m dep (S fuel) rotas = Ok rotas'
            ∧ length rotas' = length rotas.
Proof.
  induction rotas as [|r rotas (rotas' & IH & Hlen)]; [by eexists|].
  cbn [two_opt_rotas]. rewrite two_opt_Ok, IH. cbn [mbind res_bind].
  eexists. split; [done|]. simpl. by rewrite Hlen.
Qed.

(** From some fuel on, [vnd] returns the same rearrangement of the routes,
    with as many demands as routes. *)
Lemma vnd_retorna (rotas : list rota) (demandas : list Z) :
  length demandas = length rotas →
  ∃ fuel0 rotas' demandas',
    (∀ fuel, (fuel0 ≤ fuel)%nat →
       vnd capacidade m dep fuel rotas demandas = Ok (rotas', demandas'))
    ∧ mjoin rotas' ≡ₚ mjoin rotas
    ∧ length demandas' = length rotas'.
Proof.
  intros Hlen.
  destruct (relocate_while_termina capacidade m dep rotas demandas) as [f1 Hc].
  destruct (relocate_while_Ok capacidade m dep f1 rotas demandas Hlen Hc)
    as (rotas1 & demandas1 & Hw & Hlen1).
  pose proof (relocate_while_perm _ _ _ _ _ _ _ _ Hw) as Hp1.
  pose proof (poda_apos_filtro_length rotas1 demandas1 Hlen1) as Hl2.
  destruct (poda_apos_filtro rotas1 demandas1) as [rotas2 demandas2] eqn:Hpoda.
  assert (rotas2 = List.filter nao_vazia rotas1) as Hr2 by (by injection Hpoda).
  destruct (two_opt_rotas_Ok f1 rotas2) as (rotas3 & Ht & Hlen3).
  pose proof (two_opt_rotas_perm _ _ _ _ _ Ht) as Hp3.
  exists (S f1), rotas3, demandas2. split; [|split].
  - intros fuel Hfuel. unfold vnd, relocate.
    rewrite (relocate_while_mono capacidade m dep f1 fuel) by (done || lia).
    rewrite Hw. cbn [mbind res_bind]. rewrite Hpoda. cbn [mbind res_bind].
    destruct fuel as [|fuel]; [lia|].
    destruct (two_opt_rotas_Ok fuel rotas2) as (rotas3' & Ht' & _).
    rewrite Ht'. cbn [mbind res_bind]. f_equal. f_equal.
    clear -Ht Ht'. revert rotas3 rotas3' Ht Ht'.
    induction rotas2 as [|r rotas2 IH]; intros rotas3 rotas3'; cbn [two_opt_rotas].
    + congruence.
    + rewrite !two_opt_Ok. cbn [mbind res_bind].
      destruct (two_opt_rotas m dep (S f1) rotas2) as [x| |]; [|done..].
      destruct (two_opt_rotas m dep (S fuel) rotas2) as [y| |]; [|done..].
      cbn [mbind res_bind]. intros [= <-] [= <-]. f_equal. by apply IH.
  - rewrite Hp3, Hr2, mjoin_filter_nao_vazia. done.
  - simpl in Hl2. congruence.
Qed.

Lemma segment_relocate_retorna (rotas : list rota) (demandas : list Z)
    (servicos : list servico) :
  length demandas = length rotas →
  NoDup (id_servico <$> servicos) → mjoin rotas ≡ₚ servicos →
  ∃ fuel0 rotas' demandas',
    (∀ fuel, (fuel0 ≤ fuel)%nat →
       segment_relocate capacidade m dep fuel rotas demandas servicos
       = Ok (rotas', demandas'))
    ∧ mjoin rotas' ≡ₚ servicos.
Proof.
  intros Hlen Hnd Hp.
  destruct (segment_while_termina capacidade m dep rotas demandas Hlen)
    as (f2 & rotas' & demandas' & Hw & Hp' & _).
  exists f2, rotas', demandas'. split; [|by rewrite Hp'].
  intros fuel Hfuel. unfold segment_relocate.
  rewrite (segment_while_mono capacidade m dep f2 fuel) by (by rewrite ?Hw).
  rewrite Hw. cbn [mbind res_bind].
  rewrite cobertura_invalida_false; [done|done|by rewrite Hp'].
Qed.

End EtapasRetornam.

Section DriverRetorna.
Variable R : prng.
Variable servicos : list servico.
Variable deposito : Z.
Variable matriz_distancias : matriz.
Variable capacidade : Z.
Variable k : nat.
Variable relogio : nat → Z.
Hypothesis ids_distintos : NoDup (id_servico <$> servicos).

Local Abbreviation passo := (tentativa_passo R servicos deposito matriz_distancias
                              capacidade servicos (S k) relogio).
Local Abbreviation laco := (tentativas R servicos deposito matriz_distancias
                              capacidade servicos (S k) relogio).

Lemma tentativa_passo_retorna (mel : melhor) (g : estado R) (t : nat) :
  ∃ fuel0 custo rotas demandas g',
    (∀ fuel, (fuel0 ≤ fuel)%nat →
       passo fuel mel g t
       = Ok (atualiza_melhor mel custo rotas demandas (relogio (1 + t)), g'))
    ∧ mjoin rotas ≡ₚ servicos.
Proof.
  destruct (clarke_wright_grasp_Ok R servicos capacidade k deposito matriz_distancias
              (semente R (12345 + Z.of_nat t)))
    as (rotas1 & demandas1 & g1 & Hcw & Hlen1 & Hp1).
  destruct (vnd_retorna capacidade matriz_distancias deposito rotas1 demandas1 Hlen1)
    as (f1 & rotas2 & demandas2 & Hvnd & Hp2 & Hlen2).
  destruct (segment_relocate_retorna capacidade matriz_distancias deposito
              rotas2 demandas2 servicos Hlen2 ids_distintos ltac:(by rewrite Hp2))
    as (f2 & rotas3 & demandas3 & Hseg & Hp3).
  exists (f1 `max` f2)%nat,
    (soma (rota_custo matriz_distancias deposito <$> rotas3)), rotas3, demandas3, g1.
  split; [|done].
  intros fuel Hfuel. unfold tentativa_passo.
  rewrite Hcw. cbn [mbind res_bind]. rewrite Hvnd by lia. cbn [mbind res_bind].
  rewrite Hseg by lia. cbn [mbind res_bind].
  by rewrite cobertura_invalida_false.
Qed.

Lemma atualiza_melhor_guarda (mel : melhor) custo rotas demandas clk :
  melhor_custo mel = Inf ∨ melhor_rotas mel ≠ None →
  melhor_rotas (atualiza_melhor mel custo rotas demandas clk) ≠ None.
Proof.
  intros H. unfold atualiza_melhor, substitui.
  destruct H as [-> | H]; [done|]. by destruct (_ || _).
Qed.

Lemma tentativas_retorna (ts : list nat) :
  ∀ (mel : melhor) (g : estado R),
    melhor_custo mel = Inf ∨ melhor_rotas mel ≠ None →
    ∃ fuel0 mel' g',
      (∀ fuel, (fuel0 ≤ fuel)%nat → laco fuel mel g ts = Ok (mel', g'))
      ∧ (ts ≠ [] → melhor_rotas mel' ≠ None).
Proof.
  induction ts as [|t ts IH]; intros mel g Hmel; [by exists 0%nat, mel, g|].
  destruct (tentativa_passo_retorna mel g t)
    as (f1 & custo & rotas & demandas & g1 & Hp & _).
  pose proof (atualiza_melhor_guarda mel custo rotas demandas (relogio (1 + t)) Hmel)
    as Hg.
  destruct (IH (atualiza_melhor mel custo rotas demandas (relogio (1 + t))) g1)
    as (f2 & mel' & g' & Hl & Hts); [by right|].
  exists (f1 `max` f2)%nat, mel', g'. split.
  - intros fuel Hfuel. cbn [tentativas]. rewrite Hp by lia.
    cbn [mbind res_bind]. apply Hl. lia.
  - intros _. destruct ts as [|t' ts]; [|by apply Hts].
    specialize (Hl f2 ltac:(done)). by injection Hl as <- _.
Qed.

End DriverRetorna.

(** With distinct ids, a pool of at least one candidate and at least one
    trial, the driver returns an incumbent from some fuel on, the same for
    every larger fuel. *)
Lemma multi_start_melhor_retorna (R : prng) (servicos : list servico) dep m cap
    (k n : nat) relogio (g : estado R) :
  NoDup (id_servico <$> servicos) →
  ∃ fuel0 mel g' rotas,
    (∀ fuel, (fuel0 ≤ fuel)%nat →
       multi_start_melhor R servicos dep m cap servicos (S k) relogio fuel (S n) g
       = Ok (mel, g'))
    ∧ melhor_rotas mel = Some rotas.
Proof.
  intros Hnd. unfold multi_start_melhor.
  destruct (tentativas_retorna R servicos dep m cap k relogio Hnd (range 0 (S n))
              melhor_inicial g ltac:(by left))
    as (fuel0 & mel & g' & Hl & Hsome).
  specialize (Hsome ltac:(done)).
  destruct (melhor_rotas mel) as [rotas|] eqn:Hr; [|done].
  by exists fuel0, mel, g', rotas.
Qed.

(** ** Coverage, from the construction to the incumbent *)

(** C4: with a catalogue whose ids are distinct, every solution the engine
    hands on carries each catalogue id once and nothing else: the routes
    built by [clarke_wright_grasp], those left by [relocate], by the 2-opt
    of every route and by [vnd] on covering routes, those returned by
    [segment_relocate], and the routes retained by the multi-start
    driver.  Such routes are produced: with a pool of at least one
    candidate and at least one trial the driver returns an incumbent from
    some fuel on, the same for every larger fuel. *)
Theorem cobertura_em_cada_etapa (servicos : list servico) :
  NoDup (id_servico <$> servicos) →
  (∀ R dep m cap k g rotas dem g',
     clarke_wright_grasp R servicos dep m cap k g = Ok (rotas, dem, g') →
     cobertura rotas servicos)
  ∧ (∀ cap m dep fuel rotas dem rotas' dem',
       cobertura rotas servicos →
       relocate cap m dep fuel rotas dem = Ok (rotas', dem') →
       cobertura rotas' servicos)
  ∧ (∀ m dep fuel rotas rotas',
       cobertura rotas servicos →
       two_opt_rotas m dep fuel rotas = Ok rotas' →
       cobertura rotas' servicos)
  ∧ (∀ cap m dep fuel rotas dem rotas' dem',
       cobertura rotas servicos →
       vnd cap m dep fuel rotas dem = Ok (rotas', dem') →
       cobertura rotas' servicos)
  ∧ (∀ cap m dep fuel rotas dem rotas' dem',
       segment_relocate cap m dep fuel rotas dem servicos = Ok (rotas', dem') →
       cobertura rotas' servicos)
  ∧ (∀ R dep m cap k relogio fuel num_tentativas g mel g' rotas,
       multi_start_melhor R servicos dep m cap servicos k relogio fuel num_tentativas g
         = Ok (mel, g') →
       melhor_rotas mel = Some rotas →
       cobertura rotas servicos)
  ∧ (∀ R dep m cap (k n : nat) relogio (g : estado R),
       ∃ fuel0 mel g' rotas,
         (∀ fuel, (fuel0 ≤ fuel)%nat →
            multi_start_melhor R servicos dep m cap servicos (S k) relogio fuel (S n) g
            = Ok (mel, g'))
         ∧ melhor_rotas mel = Some rotas
         ∧ cobertura rotas servicos).
Proof.
  intros Hnd. split_and!.
  - intros R dep m cap k g rotas dem g' H.
    apply cobertura_catalogo; [done|]. by eapply clarke_wright_grasp_perm.
  - intros cap m dep fuel rotas dem rotas' dem' Hc H.
    eapply cobertura_perm; [by eapply relocate_perm|done].
  - intros m dep fuel rotas rotas' Hc H.
    eapply cobertura_perm; [by eapply two_opt_rotas_perm|done].
  - intros cap m dep fuel rotas dem rotas' dem' Hc H.
    eapply cobertura_perm; [by eapply vnd_perm|done].
  - intros cap m dep fuel rotas dem rotas' dem' H.
    by eapply segment_relocate_cobertura.
  - intros R dep m cap k relogio fuel num_tentativas g mel g' rotas H Hr.
    eapply multi_start_melhor_cobertura in H. by apply H.
  - intros R dep m cap k n relogio g.
    destruct (multi_start_melhor_retorna R servicos dep m cap k n relogio g Hnd)
      as (fuel0 & mel & g' & rotas & Hrun & Hr).
    exists fuel0, mel, g', rotas. split; [done|]. split; [done|].
    specialize (Hrun fuel0 ltac:(done)).
    eapply multi_start_melhor_cobertura in Hrun. by apply Hrun.
Qed.

Lemma cobertura_em_cada_etapa_witness :
  NoDup (id_servico <$> catalogo_346)
  ∧ cobertura [[serv_vertice 1 10 3; serv_vertice 2 1 4]; [serv_vertice 3 11 6]]
              catalogo_346
  ∧ cobertura [[serv_vertice 2 1 4]; [serv_vertice 3 11 6; serv_vertice 1 10 3]]
              catalogo_346.
Proof.
  assert (NoDup (id_servico <$> catalogo_346)) as Hnd
    by (apply (bool_decide_unpack _); vm_compute; exact I).
  destruct (cobertura_em_cada_etapa catalogo_346 Hnd)
    as (Hcw & _ & _ & _ & _ & Hms & _).
  split; [exact Hnd|]. split.
  - eapply (Hcw prng_zero 0 linha_reta 8 10%nat tt). vm_compute. reflexivity.
  - eapply (Hms prng_zero 0 linha_reta 8 10%nat relogio_unitario 100%nat 5%nat tt).
    + vm_compute. reflexivity.
    + reflexivity.
Defined.

(** ** What holds while the demand list is in sync

    The merges, the moves of [relocate] and of [segment_relocate] and the
    pruning of [segment_relocate] keep the demand list in sync and the
    routes within the capacity; the pruning of [clarke_wright_grasp] and of
    [relocate] does so only when there is no empty route to drop. *)

Lemma demandas_reais_insert (rotas : list rota) (i : nat) (r : rota) :
  demandas_reais (<[i := r]> rotas)
  = <[i := soma (demanda <$> r)]> (demandas_reais rotas).
Proof. unfold demandas_reais. by rewrite list_fmap_insert. Qed.

Lemma demandas_reais_lookup (rotas : list rota) (i : nat) (r : rota) :
  rotas !! i = Some r → demandas_reais rotas !! i = Some (soma (demanda <$> r)).
Proof. intros H. unfold demandas_reais. by rewrite list_lookup_fmap, H. Qed.

Lemma dentro_da_capacidade_insert cap (rotas : list rota) (i : nat) (r : rota) :
  dentro_da_capacidade cap rotas → soma (demanda <$> r) ≤ cap →
  dentro_da_capacidade cap (<[i := r]> rotas).
Proof. intros H Hr. by apply Forall_insert. Qed.

Lemma soma_demanda_nonneg (r : rota) :
  Forall (λ s, 0 ≤ demanda s) r → 0 ≤ soma (demanda <$> r).
Proof.
  induction 1 as [|s r Hs _ IH]; [done|]. rewrite fmap_cons, soma_cons. lia.
Qed.

Lemma funde_sincronizadas cap (rotas : list rota) demandas idx_i idx_j rotas' demandas' :
  sincronizadas rotas demandas →
  funde cap rotas demandas idx_i idx_j = Ok (rotas', demandas') →
  sincronizadas rotas' demandas'
  ∧ (dentro_da_capacidade cap rotas → Forall (Forall (λ s, 0 ≤ demanda s)) rotas →
     dentro_da_capacidade cap rotas').
Proof.
  unfold funde, sincronizadas. intros ->.
  destruct idx_i as [a|], idx_j as [b|]; try (by intros [= <- <-]).
  case_bool_decide as Hab; [|by intros [= <- <-]].
  intros H. apply bind_Ok in H as (d_a & Ha & H). apply bind_Ok in H as (d_b & Hb & H).
  destruct (d_a + d_b <=? cap) eqn:Hcap; [|by injection H as <- <-].
  apply Z.leb_le in Hcap.
  apply bind_Ok in H as (r_a & Hra & H). apply bind_Ok in H as (r_b & Hrb & H).
  apply item_Ok in Ha, Hb, Hra, Hrb. injection H as <- <-.
  rewrite (demandas_reais_lookup _ _ _ Hra) in Ha.
  rewrite (demandas_reais_lookup _ _ _ Hrb) in Hb.
  injection Ha as <-. injection Hb as <-. split.
  - rewrite !demandas_reais_insert, fmap_app, soma_app. done.
  - intros Hc Hpos. apply dentro_da_capacidade_insert; [|simpl; unfold soma; simpl].
    + apply dentro_da_capacidade_insert; [done|]. by rewrite fmap_app, soma_app.
    + rewrite Forall_forall in Hpos.
      pose proof (soma_demanda_nonneg r_a
                    (Hpos r_a (list_elem_of_lookup_2 _ _ _ Hra))).
      pose proof (soma_demanda_nonneg r_b
                    (Hpos r_b (list_elem_of_lookup_2 _ _ _ Hrb))).
      lia.
Qed.

Section BuscaLocalSincronizada.
Variable capacidade : Z.
Variable m : matriz.
Variable dep : Z.

Lemma relocate_varredura_sincronizadas (rotas : list rota) demandas rotas' demandas' :
  sincronizadas rotas demandas →
  Forall (Forall (λ s, 0 ≤ demanda s)) rotas →
  relocate_varredura capacidade m dep rotas demandas = Ok (Some (rotas', demandas')) →
  sincronizadas rotas' demandas'
  ∧ (dentro_da_capacidade capacidade rotas → dentro_da_capacidade capacidade rotas')
  ∧ (Forall (λ r, r ≠ []) rotas → Forall (λ r, r ≠ []) rotas').
Proof.
  unfold sincronizadas, relocate_varredura. intros -> Hpos H.
  apply varre_Some in H as (i & _ & H). apply varre_Some in H as (j & _ & H).
  apply bind_Ok in H as (rota_i & Hi & H). apply item_Ok in Hi.
  destruct (bool_decide (i = j)) eqn:Hij; [done|]. apply bool_decide_eq_false in Hij.
  destruct (negb (nao_vazia rota_i)); [done|]. simpl in H.
  apply bind_Ok in H as (rota_j & Hj & H). apply item_Ok in Hj.
  apply varre_Some in H as ([idx serv] & Hin & H).
  apply elem_of_lookup_imap in Hin as (idx' & serv' & [= -> ->] & Hidx).
  unfold relocate_tenta in H.
  apply bind_Ok in H as (d_j & Hdj & H). apply item_Ok in Hdj.
  rewrite (demandas_reais_lookup _ _ _ Hj) in Hdj. injection Hdj as <-.
  destruct (_ <=? _) eqn:Hcap; [|done]. apply Z.leb_le in Hcap.
  destruct (nao_vazia (take idx' rota_i ++ drop (idx' + 1) rota_i)) eqn:Hne; [|done].
  simpl in H. destruct (_ <? _); [|done].
  apply bind_Ok in H as (d_i & Hdi & H). apply item_Ok in Hdi.
  rewrite (demandas_reais_lookup _ _ _ Hi) in Hdi. injection Hdi as <-.
  apply bind_Ok in H as (d_j' & Hdj' & H). apply item_Ok in Hdj'.
  rewrite list_lookup_insert_ne in Hdj' by done.
  rewrite (demandas_reais_lookup _ _ _ Hj) in Hdj'. injection Hdj' as <-.
  injection H as <- <-.
  assert (soma (demanda <$> rota_i)
          = soma (demanda <$> take idx' rota_i ++ drop (idx' + 1) rota_i) + demanda serv')
    as Hsplit.
  { rewrite <- (take_drop_middle rota_i idx' serv') at 1 by done.
    replace (idx' + 1)%nat with (S idx') by lia.
    rewrite !fmap_app, fmap_cons, !soma_app, soma_cons. lia. }
  assert (0 ≤ demanda serv') as Hserv.
  { rewrite Forall_forall in Hpos.
    pose proof (Hpos rota_i (list_elem_of_lookup_2 _ _ _ Hi)) as Hri.
    rewrite Forall_forall in Hri. apply Hri. by eapply list_elem_of_lookup_2. }
  assert (soma (demanda <$> rota_j ++ [serv'])
          = soma (demanda <$> rota_j) + demanda serv') as Hjunta.
  { rewrite fmap_app, soma_app.
    change (soma (demanda <$> [serv'])) with (demanda serv' + 0). lia. }
  split; [|split].
  - rewrite !demandas_reais_insert, Hjunta. do 2 f_equal. lia.
  - intros Hc. apply dentro_da_capacidade_insert.
    + apply dentro_da_capacidade_insert; [done|].
      unfold dentro_da_capacidade in Hc. rewrite Forall_forall in Hc.
      specialize (Hc rota_i (list_elem_of_lookup_2 _ _ _ Hi)). simpl in Hc. lia.
    + rewrite Hjunta. lia.
  - intros Hv. apply Forall_insert; [apply Forall_insert; [done|]|].
    + by destruct (take idx' rota_i ++ drop (idx' + 1) rota_i).
    + by destruct rota_j.
Qed.

Lemma poda_apos_filtro_sem_vazias (rotas : list rota) (demandas : list Z) :
  Forall (λ r, r ≠ []) rotas → length demandas = length rotas →
  poda_apos_filtro rotas demandas = (rotas, demandas).
Proof.
  intros Hv Hlen. unfold poda_apos_filtro.
  assert (List.filter nao_vazia rotas = rotas) as ->.
  { clear Hlen. induction Hv as [|r rotas Hr _ IH]; [done|]. simpl.
    destruct r; [done|]. simpl. by rewrite IH. }
  f_equal. revert demandas Hlen.
  induction Hv as [|r rotas Hr _ IH]; intros [|d demandas] Hlen; try done.
  simpl in *. destruct r; [done|]. simpl. f_equal. apply IH. lia.
Qed.

(** [relocate] on routes without an empty one and a demand list in sync. *)
Lemma relocate_sincronizadas (fuel : nat) :
  ∀ (rotas : list rota) demandas rotas' demandas',
    sincronizadas rotas demandas →
    Forall (Forall (λ s, 0 ≤ demanda s)) rotas →
    Forall (λ r, r ≠ []) rotas →
    dentro_da_capacidade capacidade rotas →
    relocate capacidade m dep fuel rotas demandas = Ok (rotas', demandas') →
    sincronizadas rotas' demandas' ∧ dentro_da_capacidade capacidade rotas'.
Proof.
  unfold relocate.
  enough (∀ rotas demandas rotas' demandas',
            sincronizadas rotas demandas →
            Forall (Forall (λ s, 0 ≤ demanda s)) rotas →
            Forall (λ r, r ≠ []) rotas →
            dentro_da_capacidade capacidade rotas →
            relocate_while capacidade m dep fuel rotas demandas = Ok (rotas', demandas') →
            sincronizadas rotas' demandas' ∧ Forall (λ r, r ≠ []) rotas'
            ∧ dentro_da_capacidade capacidade rotas') as Hw.
  { intros rotas demandas rotas' demandas' Hs Hpos Hv Hc H.
    apply bind_Ok in H as ([rotas1 demandas1] & H1 & H).
    destruct (Hw _ _ _ _ Hs Hpos Hv Hc H1) as (Hs1 & Hv1 & Hc1).
    rewrite poda_apos_filtro_sem_vazias in H; [by injection H as <- <-|done|].
    rewrite Hs1. unfold demandas_reais. by rewrite length_fmap. }
  induction fuel as [|fuel IH]; intros rotas demandas rotas' demandas' Hs Hpos Hv Hc;
    simpl; [done|].
  intros H. apply bind_Ok in H as ([[rotas1 demandas1]|] & Hmov & H).
  - pose proof (relocate_varredura_perm _ _ _ _ _ _ _ Hmov) as Hp.
    destruct (relocate_varredura_sincronizadas _ _ _ _ Hs Hpos Hmov) as (Hs1 & Hc1 & Hv1).
    apply (IH rotas1 demandas1); [done| |by apply Hv1|by apply Hc1|done].
    apply Forall_forall. intros r Hr. apply Forall_forall. intros s Hsr.
    assert (s ∈ mjoin rotas1) as Hin by (apply list_elem_of_join; eauto).
    rewrite Hp in Hin. apply list_elem_of_join in Hin as (r0 & Hs0 & Hr0).
    rewrite Forall_forall in Hpos. specialize (Hpos r0 Hr0).
    rewrite Forall_forall in Hpos. by apply Hpos.
  - by injection H as <- <-.
Qed.

End BuscaLocalSincronizada.

Lemma poda_em_pares_sincronizadas (rotas : list rota) :
  poda_em_pares rotas (demandas_reais rotas)
  = (List.filter nao_vazia rotas, demandas_reais (List.filter nao_vazia rotas)).
Proof.
  unfold poda_em_pares, demandas_reais.
  induction rotas as [|r rotas IH]; [done|].
  cbn [fmap list_fmap zip zip_with List.filter fst].
  injection IH as IH1 IH2.
  destruct (nao_vazia r); cbn [fmap list_fmap fst snd]; by rewrite IH1, IH2.
Qed.

Section SegmentSincronizada.
Variable capacidade : Z.
Variable m : matriz.
Variable dep : Z.

Lemma segment_varredura_sincronizadas (rotas : list rota) demandas rotas' demandas' :
  sincronizadas rotas demandas →
  Forall (Forall (λ s, 0 ≤ demanda s)) rotas →
  segment_varredura capacidade m dep rotas demandas = Ok (Some (rotas', demandas')) →
  sincronizadas rotas' demandas'
  ∧ (dentro_da_capacidade capacidade rotas → dentro_da_capacidade capacidade rotas').
Proof.
  unfold sincronizadas, segment_varredura. intros -> Hpos H.
  apply varre_Some in H as (i & _ & H). apply varre_Some in H as (j & _ & H).
  apply bind_Ok in H as (rota_i & Hi & H). apply item_Ok in Hi.
  apply bind_Ok in H as (rota_j & Hj & H). apply item_Ok in Hj.
  destruct (_ || _); [done|].
  apply bind_Ok in H as (d_i & _ & H).
  apply bind_Ok in H as (d_j & Hdj & H). apply item_Ok in Hdj.
  rewrite (demandas_reais_lookup _ _ _ Hj) in Hdj. injection Hdj as <-.
  apply varre_Some in H as (start & _ & H).
  apply varre_Some in H as (end_ & Hend & H). apply elem_of_range in Hend.
  unfold segment_tenta in H.
  destruct (_ || _); [done|].
  destruct (_ <? _) eqn:Hcap; [done|]. apply Z.ltb_ge in Hcap.
  destruct (negb _); [done|]. destruct (_ <? _); [|done].
  injection H as <- <-. split.
  - by rewrite !demandas_reais_insert.
  - intros Hc. apply dentro_da_capacidade_insert.
    + apply dentro_da_capacidade_insert; [done|].
      unfold dentro_da_capacidade in Hc. rewrite Forall_forall in Hc.
      specialize (Hc rota_i (list_elem_of_lookup_2 _ _ _ Hi)). simpl in Hc.
      rewrite Forall_forall in Hpos.
      pose proof (Hpos rota_i (list_elem_of_lookup_2 _ _ _ Hi)) as Hri.
      assert (0 ≤ soma (demanda <$> take (end_ - start) (drop start rota_i))) as Hb.
      { apply soma_demanda_nonneg.
        eapply Forall_take, Forall_drop, Hri. }
      rewrite <- (take_drop start rota_i) in Hc at 1.
      rewrite <- (take_drop (end_ - start) (drop start rota_i)) in Hc at 1.
      rewrite drop_drop in Hc.
      replace (start + (end_ - start))%nat with end_ in Hc by lia.
      rewrite !fmap_app, !soma_app in Hc. rewrite fmap_app, soma_app. lia.
    + rewrite fmap_app, soma_app. lia.
Qed.

(** [segment_relocate] keeps a demand list in sync and the capacity. *)
Lemma segment_relocate_sincronizadas (fuel : nat) (rotas : list rota) demandas obrig
    rotas' demandas' :
  sincronizadas rotas demandas →
  Forall (Forall (λ s, 0 ≤ demanda s)) rotas →
  dentro_da_capacidade capacidade rotas →
  segment_relocate capacidade m dep fuel rotas demandas obrig = Ok (rotas', demandas') →
  sincronizadas rotas' demandas' ∧ dentro_da_capacidade capacidade rotas'.
Proof.
  unfold segment_relocate. intros Hs Hpos Hc H.
  apply bind_Ok in H as ([rotas1 demandas1] & Hw & H).
  destruct (cobertura_invalida rotas1 obrig); [done|]. injection H as <- <-.
  revert rotas demandas Hs Hpos Hc Hw.
  induction fuel as [|fuel IH]; intros rotas demandas Hs Hpos Hc; [done|].
  cbn [segment_while].
  intros H. apply bind_Ok in H as ([[rotas2 demandas2]|] & Hmov & H).
  - pose proof (segment_varredura_move _ _ _ _ _ _ _ Hmov) as (_ & Hp & _).
    destruct (segment_varredura_sincronizadas _ _ _ _ Hs Hpos Hmov) as (Hs2 & Hc2).
    unfold sincronizadas in Hs2. subst demandas2.
    rewrite poda_em_pares_sincronizadas in H.
    apply (IH _ _) in H; [done|done|..].
    + apply Forall_forall. intros r Hr. apply Forall_forall. intros s Hsr.
      apply list_elem_of_In, filter_In in Hr as [Hr _]. apply list_elem_of_In in Hr.
      assert (s ∈ mjoin rotas2) as Hin by (apply list_elem_of_join; eauto).
      rewrite Hp in Hin. apply list_elem_of_join in Hin as (r0 & Hs0 & Hr0).
      rewrite Forall_forall in Hpos. specialize (Hpos r0 Hr0).
      rewrite Forall_forall in Hpos. by apply Hpos.
    + apply Forall_forall. intros r Hr.
      apply list_elem_of_In, filter_In in Hr as [Hr _]. apply list_elem_of_In in Hr.
      specialize (Hc2 Hc). unfold dentro_da_capacidade in Hc2.
      rewrite Forall_forall in Hc2. by apply Hc2.
  - unfold sincronizadas in Hs. subst demandas.
    rewrite poda_em_pares_sincronizadas in H. injection H as <- <-. split; [done|].
    apply Forall_forall. intros r Hr.
    apply list_elem_of_In, filter_In in Hr as [Hr _]. apply list_elem_of_In in Hr.
    unfold dentro_da_capacidade in Hc. rewrite Forall_forall in Hc. by apply Hc.
Qed.

End SegmentSincronizada.

(** Before its pruning, the construction holds routes within the capacity
    and a demand list in sync with them. *)
Lemma cw_while_sincronizadas (R : prng) (servicos : list servico) cap k (fuel : nat) :
  ∀ savings (rotas : list rota) demandas g rotas' demandas' g',
    sincronizadas rotas demandas →
    Forall (Forall (λ s, 0 ≤ demanda s)) rotas →
    dentro_da_capacidade cap rotas →
    cw_while R servicos cap k fuel savings rotas demandas g = Ok (rotas', demandas', g') →
    sincronizadas rotas' demandas' ∧ dentro_da_capacidade cap rotas'.
Proof.
  induction fuel as [|fuel IH];
    intros savings rotas demandas g rotas' demandas' g' Hs Hpos Hc;
    destruct savings as [|sv savings]; simpl; try (by intros [= <- <- <-]).
  intros H. apply bind_Ok in H as ([[[s i] j] g1] & _ & H).
  apply bind_Ok in H as (s_i & _ & H). apply bind_Ok in H as (s_j & _ & H).
  destruct (busca_rotas rotas _ _) as [idx_i idx_j].
  apply bind_Ok in H as ([rotas1 demandas1] & Hf & H).
  pose proof (funde_perm _ _ _ _ _ _ _ Hf) as Hp.
  destruct (funde_sincronizadas _ _ _ _ _ _ _ Hs Hf) as [Hs1 Hc1].
  apply IH in H; [done|done| |by apply Hc1].
  apply Forall_forall. intros r Hr. apply Forall_forall. intros x Hx.
  assert (x ∈ mjoin rotas1) as Hin by (apply list_elem_of_join; eauto).
  rewrite Hp in Hin. apply list_elem_of_join in Hin as (r0 & Hs0 & Hr0).
  rewrite Forall_forall in Hpos. specialize (Hpos r0 Hr0).
  rewrite Forall_forall in Hpos. by apply Hpos.
Qed.

(** ** The scenario of demands 3, 4, 6 under capacity 8

    Whatever the generator draws and whatever the pool size, the only merge
    that the capacity lets through is the one of the first two services. *)

Lemma savings_346 :
  calcular_savings catalogo_346 0 linha_reta = [(20, 0%nat, 2%nat); (2, 1%nat, 2%nat); (2, 0%nat, 1%nat)].
Proof. reflexivity. Qed.

Ltac sorteio R :=
  match goal with
  | |- context [sorteia R ?n ?g] =>
    let H := fresh "Hlt" in
    pose proof (sorteia_lt R n g ltac:(lia)) as H;
    destruct (sorteia R n g) as [[|[|[|?]]] ?]; simpl in H; try lia; clear H
  end.

Lemma clarke_wright_grasp_346 (R : prng) (k : nat) (g : estado R) :
  sem_estado (clarke_wright_grasp R catalogo_346 0 linha_reta 8 (S k) g)
  = Ok ([[serv_vertice 1 10 3; serv_vertice 2 1 4]; [serv_vertice 3 11 6]], [7; 0]).
Proof.
  unfold clarke_wright_grasp. rewrite savings_346, construir_rotas_iniciais_eq.
  destruct k as [|[|k]]; cbn [length cw_while take choice];
    repeat (rewrite ?take_nil; cbn [length]; sorteio R; cbn -[Z.add Z.leb]);
    reflexivity.
Qed.

Section Driver346.
Variable R : prng.
Variable k fuel : nat.
Variable relogio : nat → Z.

Local Abbreviation rotas_346 :=
  [[serv_vertice 2 1 4]; [serv_vertice 3 11 6; serv_vertice 1 10 3]].

Lemma tentativa_passo_346 (m : melhor) (g : estado R) (t : nat) :
  sem_estado (tentativa_passo R catalogo_346 0 linha_reta 8 catalogo_346 (S k) relogio
                (S (S fuel)) m g t)
  = Ok (atualiza_melhor m 27 rotas_346 [4; 3] (relogio (1 + t))).
Proof.
  unfold tentativa_passo.
  pose proof (clarke_wright_grasp_346 R k (semente R (12345 + Z.of_nat t))) as H.
  destruct (clarke_wright_grasp R _ _ _ _ _ _) as [[[r d] g1]| |]; [|done..].
  injection H as -> ->. reflexivity.
Qed.

Lemma tentativas_346 (ts : list nat) :
  ∀ (m : melhor) (g : estado R),
    sem_estado (tentativas R catalogo_346 0 linha_reta 8 catalogo_346 (S k) relogio
                  (S (S fuel)) m g ts)
    = Ok (foldl (λ m t, atualiza_melhor m 27 rotas_346 [4; 3] (relogio (1 + t))) m ts).
Proof.
  induction ts as [|t ts IH]; intros m g; [done|]. cbn [tentativas foldl].
  pose proof (tentativa_passo_346 m g t) as H.
  destruct (tentativa_passo R _ _ _ _ _ _ _ _ _ _ _) as [[m1 g1]| |]; [|done..].
  injection H as ->. apply IH.
Qed.

Lemma selecao_346 (ts : list nat) (clk : option Z) :
  sem_relogio (foldl (λ m t, atualiza_melhor m 27 rotas_346 [4; 3] (relogio (1 + t)))
                 (Melhor (Fin 27) (Fin 2) (Some rotas_346) (Some [4; 3]) clk) ts)
  = (Fin 27, Fin 2, Some rotas_346, Some [4; 3]).
Proof. revert clk. induction ts as [|t ts IH]; intros clk; [done|apply IH]. Qed.

Lemma multi_start_346 (n : nat) (g : estado R) :
  decisao (multi_start_melhor R catalogo_346 0 linha_reta 8 catalogo_346 (S k) relogio
             (S (S fuel)) (S n) g)
  = Ok (Fin 27, Fin 2, Some rotas_346, Some [4; 3]).
Proof.
  unfold multi_start_melhor.
  pose proof (tentativas_346 (range 0 (S n)) melhor_inicial g) as H.
  destruct (tentativas R _ _ _ _ _ _ _ _ _ _ _) as [[m1 g1]| |]; [|done..].
  injection H as ->. simpl. f_equal. apply selecao_346.
Qed.

End Driver346.

(** ** Demand bookkeeping and capacity: where the code departs *)

(** C2: on [catalogo_346] (capacity 8, any pool size from 1 on, any
    generator) the construction merges the route of service 2 into the
    route of service 1 and returns the two routes (1, 2) and (3) with the
    demand list [7; 0]: the route of service 3 is given the demand 0 of
    the emptied route, while its service carries 6.  The pruning of
    [segment_relocate], applied to the same lists, keeps [7; 6]. *)
Theorem construcao_dessincroniza_demandas (R : prng) (k : nat) (g : estado R) :
  let r12 := [serv_vertice 1 10 3; serv_vertice 2 1 4] in
  let r3 := [serv_vertice 3 11 6] in
  sem_estado (clarke_wright_grasp R catalogo_346 0 linha_reta 8 (S k) g)
  = Ok ([r12; r3], [7; 0])
  ∧ demandas_reais [r12; r3] = [7; 6]
  ∧ poda_apos_filtro [r12; []; r3] [7; 0; 6] = ([r12; r3], [7; 0])
  ∧ poda_em_pares [r12; []; r3] [7; 0; 6] = ([r12; r3], [7; 6]).
Proof. intros r12 r3. split; [apply clarke_wright_grasp_346|done]. Qed.

(** C3: every service of [catalogo_346] fits the capacity 8, yet the driver
    (any generator, clock and pool size from 1 on, any number of trials
    from 1 on, fuel for two passes) retains the two routes (2) and (3, 1):
    the second carries a demand of 9.  [relocate] moved service 1 (demand 3)
    behind service 3 (demand 6) because the demand list of the construction
    said 0 for that route. *)
Theorem capacidade_violada (R : prng) (k fuel n : nat) (relogio : nat → Z)
    (g : estado R) :
  let r2 := [serv_vertice 2 1 4] in
  let r31 := [serv_vertice 3 11 6; serv_vertice 1 10 3] in
  Forall (λ s, 0 ≤ demanda s ≤ 8) catalogo_346
  ∧ decisao (multi_start_melhor R catalogo_346 0 linha_reta 8 catalogo_346 (S k)
               relogio (S (S fuel)) (S n) g)
    = Ok (Fin 27, Fin 2, Some [r2; r31], Some [4; 3])
  ∧ demandas_reais [r2; r31] = [4; 9]
  ∧ relocate 8 linha_reta 0 (S (S fuel))
      [[serv_vertice 1 10 3; serv_vertice 2 1 4]; [serv_vertice 3 11 6]] [7; 0]
    = Ok ([r2; r31], [4; 3]).
Proof.
  intros r2 r31. split_and!.
  - repeat constructor; simpl; lia.
  - apply multi_start_346.
  - done.
  - reflexivity.
Qed.

(** C8: for the service of demand 9 and the capacity 8 the constructor of
    etapa2 raises [ValueError]; the constructor of the engine builds the
    route, [clarke_wright_grasp] returns it and the driver retains it. *)
Theorem construcao_sem_guarda (R : prng) (k : nat) (relogio : nat → Z) (g : estado R) :
  Etapa2.construir_rotas_iniciais catalogo_inviavel 0 linha_reta 8 = Raise ValueError
  ∧ construir_rotas_iniciais catalogo_inviavel 0 linha_reta 8
    = ([catalogo_inviavel], [9])
  ∧ clarke_wright_grasp R catalogo_inviavel 0 linha_reta 8 k g
    = Ok ([catalogo_inviavel], [9], g)
  ∧ decisao (multi_start_melhor R catalogo_inviavel 0 linha_reta 8 catalogo_inviavel
               k relogio 1 1 g)
    = Ok (Fin 11, Fin 1, Some [catalogo_inviavel], Some [9]).
Proof. split_and!; reflexivity. Qed.

(** ** The generator shared with the other threads *)

Lemma savings_123 :
  calcular_savings catalogo_123 0 linha_reta
  = [(4, 0%nat, 2%nat); (2, 1%nat, 2%nat); (2, 0%nat, 1%nat)].
Proof. reflexivity. Qed.

Lemma par_atualiza_melhor (m : melhor) (c : Z) (rotas : list rota) (dem : list Z) (clk : Z) :
  par (atualiza_melhor m c rotas dem clk) = atualiza_par (par m) c (Z.of_nat (length rotas)).
Proof.
  unfold atualiza_melhor, atualiza_par, substitui, par. cbn [fst snd].
  by destruct (_ || _).
Qed.

Section Catalogo123.
Variable R : prng.
Variable relogio : nat → Z.
Variable fuel : nat.

Local Abbreviation s1 := (serv_vertice 1 2 1).
Local Abbreviation s2 := (serv_vertice 2 1 2).
Local Abbreviation s3 := (serv_vertice 3 3 3).

(** Merging services 1 and 3 first leaves the route 2, 1, 3 or 1, 3, 2,
    of cost 9; any other first merge leaves 1, 2, 3, of cost 11. *)
Lemma clarke_wright_grasp_123 (g : estado R) :
  match clarke_wright_grasp R catalogo_123 0 linha_reta 6 10 g with
  | Ok (rotas, demandas, _) =>
    if (sorteia R 3 g).1 is 0%nat
    then (rotas, demandas) = ([[s2; s1; s3]], [0]) ∨ (rotas, demandas) = ([[s1; s3; s2]], [6])
    else (rotas, demandas) = ([[s1; s2; s3]], [6])
  | _ => False
  end.
Proof.
  unfold clarke_wright_grasp. rewrite savings_123, construir_rotas_iniciais_eq.
  cbn [length cw_while take choice].
  repeat (rewrite ?take_nil; cbn [length]; sorteio R; cbn -[Z.add Z.leb]);
    vm_compute; auto.
Qed.

(** The local searches leave each of the three routes as it is. *)
Lemma tentativa_passo_123 (m : melhor) (g : estado R) (t : nat) :
  ∃ rotas demandas g',
    tentativa_passo R catalogo_123 0 linha_reta 6 catalogo_123 10 relogio (S (S fuel)) m g t
    = Ok (atualiza_melhor m (custo_123 (primeiro_sorteio R t)) rotas demandas
            (relogio (1 + t)), g')
    ∧ length rotas = 1%nat.
Proof.
  unfold tentativa_passo, primeiro_sorteio.
  pose proof (clarke_wright_grasp_123 (semente R (12345 + Z.of_nat t))) as H.
  destruct (clarke_wright_grasp R _ _ _ _ _ _) as [[[r d] g1]| |]; [|done..].
  destruct (sorteia R 3 _).1 as [|n]; [destruct H as [H|H]|]; injection H as -> ->;
    eexists _, _, _; (split; [reflexivity|done]).
Qed.

Lemma tentativas_123 (ts : list nat) :
  ∀ (m : melhor) (g : estado R),
    ∃ m' g',
      tentativas R catalogo_123 0 linha_reta 6 catalogo_123 10 relogio (S (S fuel)) m g ts
      = Ok (m', g')
      ∧ par m' = foldl (λ p t, atualiza_par p (custo_123 (primeiro_sorteio R t)) 1) (par m) ts.
Proof.
  induction ts as [|t ts IH]; intros m g; [by exists m, g|].
  cbn [tentativas foldl].
  destruct (tentativa_passo_123 m g t) as (rotas & dem & g1 & -> & Hlen).
  cbn [mbind res_bind].
  destruct (IH (atualiza_melhor m (custo_123 (primeiro_sorteio R t)) rotas dem
                  (relogio (1 + t))) g1) as (m' & g' & -> & Hpar).
  exists m', g'. split; [done|].
  by rewrite Hpar, par_atualiza_melhor, Hlen.
Qed.

(** On [catalogo_123] the run reports the best of the costs its trials
    reach, each decided by the first draw of the trial. *)
Lemma multi_start_123 (num_tentativas : nat) (g : estado R) :
  custo_e_rotas (multi_start_melhor R catalogo_123 0 linha_reta 6 catalogo_123 10
                   relogio (S (S fuel)) num_tentativas g)
  = Ok (foldl (λ p t, atualiza_par p (custo_123 (primeiro_sorteio R t)) 1) (Inf, Inf)
          (range 0 num_tentativas)).
Proof.
  unfold multi_start_melhor.
  destruct (tentativas_123 (range 0 num_tentativas) melhor_inicial g)
    as (m' & g' & -> & Hpar).
  unfold custo_e_rotas. cbn [mbind res_bind]. f_equal. exact Hpar.
Qed.

End Catalogo123.

(** The first draw of a trial, as the pipeline meets it under [agenda]. *)
Lemma primeiro_sorteio_compartilhado (G : prng) (agenda : Z → nat → list acesso_alheio)
    (t : nat) :
  primeiro_sorteio (compartilhado G agenda) t
  = (sorteia G 3 (foldl (efeito G) (semente G (12345 + Z.of_nat t))
                    (agenda (12345 + Z.of_nat t) 0%nat))).1.
Proof. reflexivity. Qed.

(** With the same agenda two runs meet the same generator: they report the
    same best cost and route count, or fail alike. *)
Lemma multi_start_mesma_agenda (G : prng) (agenda : Z → nat → list acesso_alheio)
    (servicos : list servico) (deposito : Z) (matriz_distancias : matriz)
    (capacidade : Z) (servicos_obrigatorios : list servico)
    (k_grasp fuel num_tentativas : nat) (relogio1 relogio2 : nat → Z)
    (g1 g2 : estado (compartilhado G agenda)) :
  custo_e_rotas (multi_start_melhor (compartilhado G agenda) servicos deposito
                   matriz_distancias capacidade servicos_obrigatorios k_grasp relogio1
                   fuel num_tentativas g1)
  = custo_e_rotas (multi_start_melhor (compartilhado G agenda) servicos deposito
                     matriz_distancias capacidade servicos_obrigatorios k_grasp relogio2
                     fuel num_tentativas g2).
Proof.
  pose proof (tentativas_independente (compartilhado G agenda) servicos deposito
                matriz_distancias capacidade servicos_obrigatorios k_grasp relogio1
                relogio2 fuel (range 0 num_tentativas) melhor_inicial melhor_inicial
                g1 g2 eq_refl) as H.
  unfold multi_start_melhor, custo_e_rotas, decisao in *.
  destruct (tentativas _ _ _ _ _ _ _ relogio1 _ _ _ _) as [[m1 ?]| |],
           (tentativas _ _ _ _ _ _ _ relogio2 _ _ _ _) as [[m2 ?]| |];
    simpl in *; try done.
  - destruct m1, m2. unfold sem_relogio, par in *. simpl in *. congruence.
  - congruence.
Qed.

(** C7: two runs of the driver with the same services, depot, matrix,
    capacity, pool size (10, as [processar_arquivo] passes) and number of
    trials (1) report different best costs when another thread reaches the
    generator of the process in one of them.  For every generator whose
    first draw among three is not 0 after [random.seed(12345)] and is 0
    after [random.seed(12348)]: the run that no other thread disturbs
    reports cost 11 in 1 route; the run in which another pipeline calls
    [random.seed(12348)], for its fourth trial, between this pipeline's
    [random.seed(12345)] and its first [random.choice], reports cost 9 in
    1 route. *)
Theorem multi_start_depende_das_outras_threads (G : prng) (relogio1 relogio2 : nat → Z)
    (fuel : nat) (g1 : estado (compartilhado G sozinha))
    (g2 : estado (compartilhado G semente_alheia)) :
  (sorteia G 3 (semente G 12345)).1 ≠ 0%nat →
  (sorteia G 3 (semente G 12348)).1 = 0%nat →
  custo_e_rotas (multi_start_melhor (compartilhado G sozinha) catalogo_123 0 linha_reta 6
                   catalogo_123 10 relogio1 (S (S fuel)) 1 g1)
  = Ok (Fin 11, Fin 1)
  ∧ custo_e_rotas (multi_start_melhor (compartilhado G semente_alheia) catalogo_123 0
                     linha_reta 6 catalogo_123 10 relogio2 (S (S fuel)) 1 g2)
    = Ok (Fin 9, Fin 1).
Proof.
  intros H1 H2. rewrite !multi_start_123. cbn [range seq Nat.sub foldl].
  rewrite !primeiro_sorteio_compartilhado.
  change (foldl (efeito G) (semente G (12345 + Z.of_nat 0)) (sozinha _ _))
    with (semente G 12345).
  change (foldl (efeito G) (semente G (12345 + Z.of_nat 0)) (semente_alheia _ _))
    with (semente G 12348).
  rewrite H2. by destruct (sorteia G 3 (semente G 12345)).1.
Qed.

Lemma multi_start_depende_das_outras_threads_witness :
  custo_e_rotas (multi_start_melhor (compartilhado gerador_congruente sozinha)
                   catalogo_123 0 linha_reta 6 catalogo_123 10 relogio_unitario 2 1
                   (0, (0, 0%nat)))
  = Ok (Fin 11, Fin 1)
  ∧ custo_e_rotas (multi_start_melhor (compartilhado gerador_congruente semente_alheia)
                     catalogo_123 0 linha_reta 6 catalogo_123 10 relogio_unitario 2 1
                     (0, (0, 0%nat)))
    = Ok (Fin 9, Fin 1).
Proof.
  apply (multi_start_depende_das_outras_threads gerador_congruente relogio_unitario
           relogio_unitario 0 (0, (0, 0%nat)) (0, (0, 0%nat))).
  - vm_compute. lia.
  - vm_compute. reflexivity.
Defined.

(** The same with the five trials of [processar_arquivo]: alone the run
    finds the cost 9 in its fourth trial; when other pipelines start their
    first trial right after the [random.seed] of its fourth and of its
    fifth trial, all five trials draw as the first one does and the run
    reports the cost 11. *)
Lemma processar_arquivo_depende_das_outras_threads (G : prng)
    (relogio1 relogio2 : nat → Z) (fuel : nat)
    (g1 : estado (compartilhado G sozinha))
    (g2 : estado (compartilhado G sementes_alheias)) :
  (sorteia G 3 (semente G 12345)).1 ≠ 0%nat →
  (sorteia G 3 (semente G 12346)).1 ≠ 0%nat →
  (sorteia G 3 (semente G 12347)).1 ≠ 0%nat →
  (sorteia G 3 (semente G 12348)).1 = 0%nat →
  custo_e_rotas (multi_start_melhor (compartilhado G sozinha) catalogo_123 0 linha_reta 6
                   catalogo_123 10 relogio1 (S (S fuel)) 5 g1)
  = Ok (Fin 9, Fin 1)
  ∧ custo_e_rotas (multi_start_melhor (compartilhado G sementes_alheias) catalogo_123 0
                     linha_reta 6 catalogo_123 10 relogio2 (S (S fuel)) 5 g2)
    = Ok (Fin 11, Fin 1).
Proof.
  intros H5 H6 H7 H8. rewrite !multi_start_123. cbn [range seq Nat.sub foldl].
  rewrite !primeiro_sorteio_compartilhado.
  change (12345 + Z.of_nat 0) with 12345. change (12345 + Z.of_nat 1) with 12346.
  change (12345 + Z.of_nat 2) with 12347. change (12345 + Z.of_nat 3) with 12348.
  change (12345 + Z.of_nat 4) with 12349.
  change (sozinha _ _) with (@nil acesso_alheio).
  change (sementes_alheias 12345 0%nat) with (@nil acesso_alheio).
  change (sementes_alheias 12346 0%nat) with (@nil acesso_alheio).
  change (sementes_alheias 12347 0%nat) with (@nil acesso_alheio).
  change (sementes_alheias 12348 0%nat) with [OutraSemente 0].
  change (sementes_alheias 12349 0%nat) with [OutraSemente 0].
  cbn [foldl efeito]. change (12345 + Z.of_nat 0) with 12345.
  rewrite H8.
  destruct (sorteia G 3 (semente G 12345)).1; [done|].
  destruct (sorteia G 3 (semente G 12346)).1; [done|].
  destruct (sorteia G 3 (semente G 12347)).1; [done|].
  split; [|done]. by destruct (sorteia G 3 (semente G 12349)).1.
Qed.

(** The first draws of the congruential generator in the trials 0 to 4:
    both statements above apply to it. *)
Lemma gerador_congruente_primeiros :
  primeiro_sorteio gerador_congruente <$> [0; 1; 2; 3; 4]%nat = [1; 1; 1; 0; 0]%nat.
Proof. vm_compute. reflexivity. Qed.

(** * The remaining behaviour of the engine

    ** The savings list *)

Lemma calcular_savings_elem (servicos : list servico) (dep : Z) (m : matriz)
    (s : Z) (i j : nat) :
  (s, i, j) ∈ calcular_savings servicos dep m
  ↔ (i < j)%nat
    ∧ ∃ s_i s_j, servicos !! i = Some s_i ∧ servicos !! j = Some s_j
      ∧ s = m dep (destino s_i) + m dep (destino s_j) - m (destino s_i) (destino s_j).
Proof.
  unfold calcular_savings. rewrite sort_reverse_perm. split.
  - intros Hsv. apply list_elem_of_join in Hsv as (l & Hsv & Hl).
    apply elem_of_lookup_imap in Hl as (i' & s_i & -> & Hi).
    apply elem_of_lookup_imap in Hsv as (dj & s_j & Heq & Hj).
    injection Heq as -> -> ->. rewrite lookup_drop in Hj.
    split; [lia|]. eauto.
  - intros (Hij & s_i & s_j & Hi & Hj & ->).
    apply list_elem_of_join. eexists. split; last first.
    + apply elem_of_lookup_imap. exists i, s_i. by split.
    + apply elem_of_lookup_imap. exists (j - (i + 1))%nat, s_j. split.
      * repeat f_equal. lia.
      * rewrite lookup_drop. rewrite <- Hj. f_equal. lia.
Qed.

Lemma NoDup_posicoes {A} (F : nat → A → list saving) (l : list A) (off : nat) :
  (∀ i x sv, sv ∈ F i x → sv.1.2 = (off + i)%nat) →
  (∀ i x, NoDup ((λ sv : saving, (sv.1.2, sv.2)) <$> F i x)) →
  NoDup ((λ sv : saving, (sv.1.2, sv.2)) <$> mjoin (imap F l)).
Proof.
  revert F off. induction l as [|x l IH]; intros F off HF HN; [constructor|].
  cbn [imap mjoin list_join]. rewrite fmap_app. apply NoDup_app. split_and!.
  - apply HN.
  - intros p Hp Hq.
    apply list_elem_of_fmap in Hp as (sv & -> & Hsv).
    apply list_elem_of_fmap in Hq as (sv' & Heq & Hsv').
    apply list_elem_of_join in Hsv' as (l' & Hsv' & Hl').
    apply elem_of_lookup_imap in Hl' as (i & y & -> & _).
    apply HF in Hsv, Hsv'. simpl in *. injection Heq as H1 H2. lia.
  - apply (IH _ (S off)).
    + intros i y sv Hsv. apply HF in Hsv. simpl in *. lia.
    + intros i y. apply HN.
Qed.

(** X1: the savings list of the engine holds exactly one entry for every
    pair of positions [i < j] of the catalogue, with the saving
    [d(dep, dest_i) + d(dep, dest_j) - d(dest_i, dest_j)], and no entry is
    followed by a greater tuple. *)
Theorem calcular_savings_completa (servicos : list servico) (dep : Z) (m : matriz) :
  let savings := calcular_savings servicos dep m in
  StronglySorted (λ a b, saving_ltb a b = false) savings
  ∧ NoDup ((λ sv : saving, (sv.1.2, sv.2)) <$> savings)
  ∧ ∀ s i j,
      (s, i, j) ∈ savings
      ↔ (i < j)%nat
        ∧ ∃ s_i s_j, servicos !! i = Some s_i ∧ servicos !! j = Some s_j
          ∧ s = m dep (destino s_i) + m dep (destino s_j)
                - m (destino s_i) (destino s_j).
Proof.
  split_and!.
  - apply sort_reverse_sorted.
  - unfold calcular_savings. rewrite sort_reverse_perm.
    apply (NoDup_posicoes _ _ 0).
    + intros i x sv Hsv. apply elem_of_lookup_imap in Hsv as (dj & s_j & -> & _). done.
    + intros i x. rewrite fmap_imap.
      rewrite (imap_ext _ (λ dj _, (i, (i + 1 + dj)%nat))) by done.
      rewrite imap_seq_0. apply NoDup_fmap_2; [|apply NoDup_seq].
      intros a b [= ?]. lia.
  - apply calcular_savings_elem.
Qed.

(** ** The construction *)

Lemma clarke_wright_grasp_sem_vazias (R : prng) (servicos : list servico) dep m cap k g
    rotas demandas g' :
  clarke_wright_grasp R servicos dep m cap k g = Ok (rotas, demandas, g') →
  Forall (λ r, r ≠ []) rotas.
Proof.
  unfold clarke_wright_grasp. rewrite construir_rotas_iniciais_eq.
  intros H. apply bind_Ok in H as ([[rotas1 demandas1] g1] & _ & H).
  unfold poda_apos_filtro in H. case_match; [done|]. injection H as <- <- <-.
  apply Forall_forall. intros r Hr. apply list_elem_of_In, filter_In in Hr as [_ Hr].
  by destruct r.
Qed.

(** X2: with a candidate pool of at least one saving the construction
    always returns, whatever the generator draws: every service sits in
    exactly one route, no route is empty and there is one demand entry
    per route. *)
Theorem construcao_sempre_retorna (R : prng) (servicos : list servico) (dep : Z)
    (m : matriz) (cap : Z) (k : nat) (g : estado R) :
  ∃ rotas demandas g',
    clarke_wright_grasp R servicos dep m cap (S k) g = Ok (rotas, demandas, g')
    ∧ mjoin rotas ≡ₚ servicos
    ∧ Forall (λ r, r ≠ []) rotas
    ∧ length demandas = length rotas.
Proof.
  destruct (clarke_wright_grasp_Ok R servicos cap k dep m g)
    as (rotas & demandas & g' & H & Hlen & Hp).
  exists rotas, demandas, g'. split_and!; try done.
  by eapply clarke_wright_grasp_sem_vazias.
Qed.

(** X3: with a pool of size 0 the construction draws from an empty list as
    soon as there is a saving to choose, that is, for two services or more;
    up to one service it returns the initial routes. *)
Theorem construcao_pool_vazio (R : prng) (servicos : list servico) (dep : Z)
    (m : matriz) (cap : Z) (g : estado R) :
  clarke_wright_grasp R servicos dep m cap 0 g
  = if (length servicos <? 2)%nat
    then Ok ((λ s, [s]) <$> servicos, demanda <$> servicos, g)
    else Raise IndexError.
Proof.
  unfold clarke_wright_grasp. rewrite construir_rotas_iniciais_eq.
  destruct (length servicos <? 2)%nat eqn:Hn.
  - apply Nat.ltb_lt in Hn.
    assert (calcular_savings servicos dep m = []) as ->.
    { destruct (calcular_savings servicos dep m) as [|[[s i] j] l] eqn:Hs; [done|].
      assert ((s, i, j) ∈ calcular_savings servicos dep m) as Hin
        by (rewrite Hs; left).
      apply calcular_savings_elem in Hin as (Hij & s_i & s_j & Hi & Hj & _).
      apply lookup_lt_Some in Hj. lia. }
    cbn [cw_while length mbind res_bind].
    destruct servicos as [|s [|s' l]]; [done| |simpl in Hn; lia].
    unfold poda_apos_filtro, mesmo_conjunto, ids_nas_rotas. simpl.
    by rewrite Z.eqb_refl.
  - apply Nat.ltb_ge in Hn.
    destruct servicos as [|s_0 [|s_1 l]]; [simpl in Hn; lia|simpl in Hn; lia|].
    assert ((m dep (destino s_0) + m dep (destino s_1) - m (destino s_0) (destino s_1),
             0%nat, 1%nat) ∈ calcular_savings (s_0 :: s_1 :: l) dep m) as Hin.
    { apply calcular_savings_elem. split; [lia|]. by exists s_0, s_1. }
    destruct (calcular_savings (s_0 :: s_1 :: l) dep m) as [|sv savings];
      [by apply elem_of_nil in Hin|].
    reflexivity.
Qed.

Lemma sincronizadas_iniciais (servicos : list servico) :
  sincronizadas ((λ s, [s]) <$> servicos) (demanda <$> servicos).
Proof.
  unfold sincronizadas, demandas_reais. rewrite <- list_fmap_compose.
  apply list_fmap_ext. intros i s _. simpl. lia.
Qed.

(** X4: when every demand lies between 0 and the capacity, no route
    returned by the construction carries more than the capacity. *)
Theorem construcao_respeita_capacidade (R : prng) (servicos : list servico) (dep : Z)
    (m : matriz) (cap : Z) (k : nat) (g : estado R) rotas demandas g' :
  Forall (λ s, 0 ≤ demanda s ≤ cap) servicos →
  clarke_wright_grasp R servicos dep m cap k g = Ok (rotas, demandas, g') →
  dentro_da_capacidade cap rotas.
Proof.
  intros Hd. unfold clarke_wright_grasp. rewrite construir_rotas_iniciais_eq.
  intros H. apply bind_Ok in H as ([[rotas1 demandas1] g1] & Hw & H).
  apply cw_while_sincronizadas in Hw as [_ Hc].
  - unfold poda_apos_filtro in H. case_match; [done|]. injection H as <- <- <-.
    unfold dentro_da_capacidade in *. rewrite Forall_forall in Hc.
    apply Forall_forall. intros r Hr. apply Hc.
    by apply list_elem_of_In, filter_In in Hr as [Hr%list_elem_of_In _].
  - apply sincronizadas_iniciais.
  - apply Forall_fmap. eapply Forall_impl; [exact Hd|].
    intros s Hs. simpl in *. constructor; [lia|constructor].
  - apply Forall_fmap. eapply Forall_impl; [exact Hd|].
    intros s Hs. unfold compose, soma. simpl in *. lia.
Qed.

Lemma construcao_respeita_capacidade_witness :
  dentro_da_capacidade 8
    [[serv_vertice 1 10 3; serv_vertice 2 1 4]; [serv_vertice 3 11 6]].
Proof.
  apply (construcao_respeita_capacidade prng_zero catalogo_346 0 linha_reta 8 1 tt
           _ [7; 0] tt).
  - repeat constructor; simpl; lia.
  - vm_compute. reflexivity.
Defined.

(** ** [relocate] *)

Section Relocate.
Variable capacidade : Z.
Variable m : matriz.
Variable dep : Z.

(** X5: the [while] of [relocate] stops on every input, whatever the
    distances (every applied move lowers the total cost, which no
    rearrangement of the same services can push below a fixed floor); with
    one demand entry per route it raises nothing. *)
Theorem relocate_termina (rotas : list rota) (demandas : list Z) :
  ∃ fuel0 r,
    concluiu r
    ∧ (∀ fuel, (fuel0 ≤ fuel)%nat →
         relocate capacidade m dep fuel rotas demandas = r)
    ∧ (length demandas = length rotas →
       ∃ rotas' demandas', r = Ok (rotas', demandas')
                           ∧ length demandas' = length rotas').
Proof.
  destruct (relocate_while_termina capacidade m dep rotas demandas) as [fuel0 Hc].
  exists fuel0, (relocate capacidade m dep fuel0 rotas demandas). split_and!.
  - unfold relocate, concluiu in *.
    destruct (relocate_while _ _ _ _ _ _) as [[rotas1 demandas1]| |]; done.
  - intros fuel Hle. unfold relocate. by rewrite (relocate_while_mono _ _ _ fuel0 fuel).
  - intros Hlen.
    destruct (relocate_while_Ok _ _ _ fuel0 rotas demandas Hlen Hc)
      as (rotas1 & demandas1 & Hw & Hlen1).
    unfold relocate. rewrite Hw. simpl.
    pose proof (poda_apos_filtro_length rotas1 demandas1 Hlen1).
    destruct (poda_apos_filtro rotas1 demandas1) as [rotas2 demandas2]. by eexists _, _.
Qed.

Lemma relocate_while_custo (fuel : nat) :
  ∀ (rotas : list rota) demandas rotas' demandas',
    relocate_while capacidade m dep fuel rotas demandas = Ok (rotas', demandas') →
    custo_das_rotas m dep rotas' ≤ custo_das_rotas m dep rotas
    ∧ (custo_das_rotas m dep rotas' = custo_das_rotas m dep rotas → rotas' = rotas).
Proof.
  induction fuel as [|fuel IH]; intros rotas demandas rotas' demandas'; simpl; [done|].
  intros H. apply bind_Ok in H as ([[rotas1 demandas1]|] & Hmov & H).
  - apply relocate_varredura_move in Hmov as (Hlt & _ & _).
    apply IH in H as [Hle _]. split; lia.
  - by injection H as <- <-.
Qed.

(** X6: [relocate] never returns a dearer solution: either no service was
    moved, and the routes are those given without the empty ones, or the
    total cost went strictly down. *)
Theorem relocate_nao_aumenta_custo (fuel : nat) (rotas : list rota) (demandas : list Z)
    (rotas' : list rota) (demandas' : list Z) :
  relocate capacidade m dep fuel rotas demandas = Ok (rotas', demandas') →
  custo_das_rotas m dep rotas' ≤ custo_das_rotas m dep rotas
  ∧ (custo_das_rotas m dep rotas' = custo_das_rotas m dep rotas →
     rotas' = List.filter nao_vazia rotas).
Proof.
  unfold relocate. intros H. apply bind_Ok in H as ([rotas1 demandas1] & Hw & H).
  unfold poda_apos_filtro in H. injection H as <- <-.
  rewrite custo_das_rotas_filter. apply relocate_while_custo in Hw as [Hle Heq].
  split; [done|]. intros Hc. by rewrite Heq.
Qed.

Lemma relocate_varredura_sem_vazias (rotas : list rota) demandas rotas' demandas' :
  Forall (λ r, r ≠ []) rotas →
  relocate_varredura capacidade m dep rotas demandas = Ok (Some (rotas', demandas')) →
  Forall (λ r, r ≠ []) rotas'.
Proof.
  unfold relocate_varredura. intros Hv H.
  apply varre_Some in H as (i & _ & H). apply varre_Some in H as (j & _ & H).
  apply bind_Ok in H as (rota_i & Hi & H).
  destruct (_ || _); [done|].
  apply bind_Ok in H as (rota_j & Hj & H).
  apply varre_Some in H as ([idx serv] & _ & H).
  unfold relocate_tenta in H.
  apply bind_Ok in H as (d_j & _ & H).
  destruct (_ <=? _); [|done].
  destruct (nao_vazia (take idx rota_i ++ drop (idx + 1) rota_i)) eqn:Hne; [|done].
  simpl in H. destruct (_ <? _); [|done].
  apply bind_Ok in H as (d_i & _ & H). apply bind_Ok in H as (d_j' & _ & H).
  injection H as <- <-.
  apply Forall_insert; [apply Forall_insert; [done|]|].
  - by destruct (take idx rota_i ++ drop (idx + 1) rota_i).
  - by destruct rota_j.
Qed.

Lemma filter_nao_vazia_id {A} (l : list (list A)) :
  Forall (λ r, r ≠ []) l → List.filter nao_vazia l = l.
Proof.
  induction 1 as [|r l Hr _ IH]; [done|]. simpl.
  destruct r; [done|]. simpl. by rewrite IH.
Qed.

(** X7: on routes none of which is empty, [relocate] neither empties nor
    drops a route: it returns as many routes as it was given, all of them
    non-empty. *)
Theorem relocate_nao_esvazia (fuel : nat) (rotas : list rota) (demandas : list Z)
    (rotas' : list rota) (demandas' : list Z) :
  Forall (λ r, r ≠ []) rotas →
  relocate capacidade m dep fuel rotas demandas = Ok (rotas', demandas') →
  length rotas' = length rotas ∧ Forall (λ r, r ≠ []) rotas'.
Proof.
  unfold relocate. intros Hv H. apply bind_Ok in H as ([rotas1 demandas1] & Hw & H).
  unfold poda_apos_filtro in H. injection H as <- <-.
  enough (length rotas1 = length rotas ∧ Forall (λ r, r ≠ []) rotas1) as [Hl Hv1].
  { by rewrite filter_nao_vazia_id. }
  revert rotas demandas Hv Hw.
  induction fuel as [|fuel IH]; intros rotas demandas Hv; simpl; [done|].
  intros H. apply bind_Ok in H as ([[rotas2 demandas2]|] & Hmov & H).
  - pose proof (relocate_varredura_sem_vazias _ _ _ _ Hv Hmov) as Hv2.
    apply relocate_varredura_move in Hmov as (_ & Hl2 & _).
    apply IH in H as [Hl Hv1]; [|done]. split; [congruence|done].
  - by injection H as <- <-.
Qed.

(** X8: on non-empty routes within the capacity, with non-negative demands
    and a demand list that says what the routes carry, [relocate] returns
    routes within the capacity and a demand list that still says what they
    carry. *)
Theorem relocate_mantem_capacidade (fuel : nat) (rotas : list rota) (demandas : list Z)
    (rotas' : list rota) (demandas' : list Z) :
  sincronizadas rotas demandas →
  Forall (Forall (λ s, 0 ≤ demanda s)) rotas →
  Forall (λ r, r ≠ []) rotas →
  dentro_da_capacidade capacidade rotas →
  relocate capacidade m dep fuel rotas demandas = Ok (rotas', demandas') →
  sincronizadas rotas' demandas' ∧ dentro_da_capacidade capacidade rotas'.
Proof. apply relocate_sincronizadas. Qed.

End Relocate.

Lemma relocate_nao_aumenta_custo_witness :
  let r12 := [serv_vertice 1 10 3; serv_vertice 2 1 4] in
  let r3 := [serv_vertice 3 11 6] in
  let r2 := [serv_vertice 2 1 4] in
  let r31 := [serv_vertice 3 11 6; serv_vertice 1 10 3] in
  custo_das_rotas linha_reta 0 [r2; r31] ≤ custo_das_rotas linha_reta 0 [r12; r3]
  ∧ (custo_das_rotas linha_reta 0 [r2; r31] = custo_das_rotas linha_reta 0 [r12; r3] →
     [r2; r31] = List.filter nao_vazia [r12; r3]).
Proof.
  apply (relocate_nao_aumenta_custo 8 linha_reta 0 2 _ [7; 0] _ [4; 3]).
  vm_compute. reflexivity.
Defined.

Lemma relocate_nao_esvazia_witness :
  let r2 := [serv_vertice 2 1 4] in
  let r31 := [serv_vertice 3 11 6; serv_vertice 1 10 3] in
  length [r2; r31] = 2%nat ∧ Forall (λ r, r ≠ []) [r2; r31].
Proof.
  apply (relocate_nao_esvazia 8 linha_reta 0 2
           [[serv_vertice 1 10 3; serv_vertice 2 1 4]; [serv_vertice 3 11 6]]
           [7; 0] _ [4; 3]).
  - repeat constructor; discriminate.
  - vm_compute. reflexivity.
Defined.

Lemma relocate_mantem_capacidade_witness :
  let r2 := [serv_vertice 2 1 4] in
  let r31 := [serv_vertice 3 11 6; serv_vertice 1 10 3] in
  sincronizadas [r2; r31] [4; 9] ∧ dentro_da_capacidade 10 [r2; r31].
Proof.
  apply (relocate_mantem_capacidade 10 linha_reta 0 3
           [[serv_vertice 1 10 3; serv_vertice 2 1 4]; [serv_vertice 3 11 6]]
           [7; 6]).
  - reflexivity.
  - repeat constructor; simpl; lia.
  - repeat constructor; discriminate.
  - repeat constructor; simpl; lia.
  - vm_compute. reflexivity.
Defined.

(** ** [two_opt] and [vnd] *)

Section DoisOptCusto.
Variable m : matriz.
Variable dep : Z.

Lemma inverte_trecho_last (r : rota) (i j : nat) :
  (j < length r)%nat → last (inverte_trecho r i j) = last r.
Proof.
  intros Hj. unfold inverte_trecho.
  assert (is_Some (last (drop j r))) as [x Hx].
  { apply last_is_Some. intros Hnil. apply (f_equal length) in Hnil.
    rewrite length_drop in Hnil. simpl in Hnil. lia. }
  rewrite app_assoc, last_app, Hx.
  rewrite <- (take_drop j r). by rewrite last_app, Hx.
Qed.

Lemma two_opt_varredura_custo (r : rota) :
  let st := two_opt_varredura m dep r in
  st.1 ≡ₚ r ∧ last st.1 = last r ∧ rota_custo m dep st.1 ≤ rota_custo m dep r.
Proof.
  unfold two_opt_varredura.
  apply (foldl_inv (λ st : rota * bool,
           st.1 ≡ₚ r ∧ last st.1 = last r ∧ rota_custo m dep st.1 ≤ rota_custo m dep r));
    [by split_and!; simpl; try lia|].
  intros st i Hst Hi. apply elem_of_range in Hi.
  apply (foldl_inv (λ st' : rota * bool,
           length st'.1 = length st.1 ∧ st'.1 ≡ₚ r ∧ last st'.1 = last r
           ∧ rota_custo m dep st'.1 ≤ rota_custo m dep r)).
  - done.
  - intros st' j (Hlen & Hp & Hl & Hc) Hj. apply elem_of_range in Hj.
    unfold two_opt_passo. destruct (_ <? _) eqn:Hlt; [|done].
    apply Z.ltb_lt in Hlt. cbn [fst].
    pose proof (inverte_trecho_perm st'.1 i j ltac:(lia)) as Hp'.
    split_and!.
    + by rewrite Hp'.
    + by rewrite Hp'.
    + rewrite inverte_trecho_last; [done|lia].
    + lia.

Qed.

(** X9: [two_opt] returns a route with the services of the one it was
    given, ending with the same service and costing no more; a route of up
    to three services comes back unchanged. *)
Theorem two_opt_rearranja (fuel : nat) (r : rota) :
  ∃ r', two_opt m dep (S fuel) r = Ok r'
    ∧ r' ≡ₚ r
    ∧ last r' = last r
    ∧ rota_custo m dep r' ≤ rota_custo m dep r
    ∧ ((length r ≤ 3)%nat → r' = r).
Proof.
  rewrite two_opt_Ok. eexists. split; [done|].
  destruct (length r <? 3)%nat eqn:Hlen.
  - split_and!; done.
  - pose proof (two_opt_varredura_custo r) as (Hp & Hl & Hc).
    split_and!; try done.
    intros Hle. apply Nat.ltb_ge in Hlen.
    destruct r as [|a [|b [|c [|d r]]]]; simpl in Hlen, Hle; try lia.
    unfold two_opt_varredura, range, two_opt_passo. cbn [length Nat.sub seq foldl fst Nat.add].
    change (inverte_trecho [a; b; c] 1 2) with [a; b; c].
    by rewrite Z.ltb_irrefl.
Qed.

Lemma two_opt_custo (fuel : nat) (r r' : rota) :
  two_opt m dep fuel r = Ok r' →
  r' ≡ₚ r ∧ rota_custo m dep r' ≤ rota_custo m dep r.
Proof.
  destruct fuel as [|fuel].
  - unfold two_opt. destruct (length r <? 3)%nat; [|done].
    intros [= <-]. split; [done|lia].
  - rewrite two_opt_Ok. intros [= <-].
    destruct (length r <? 3)%nat; [split; [done|lia]|].
    pose proof (two_opt_varredura_custo r) as (Hp & _ & Hc). done.
Qed.

Lemma two_opt_rotas_custo (fuel : nat) (rotas rotas' : list rota) :
  two_opt_rotas m dep fuel rotas = Ok rotas' →
  Forall2 (λ r r', r' ≡ₚ r ∧ rota_custo m dep r' ≤ rota_custo m dep r) rotas rotas'.
Proof.
  revert rotas'. induction rotas as [|r rotas IH]; intros rotas'; simpl.
  - intros [= <-]. constructor.
  - intros H. apply bind_Ok in H as (r' & Hr & H).
    apply bind_Ok in H as (rotas'' & Hrs & H). injection H as <-.
    constructor; [by apply (two_opt_custo fuel)|by apply IH].
Qed.

End DoisOptCusto.

Lemma Forall2_custo_das_rotas (m : matriz) (dep : Z) (rotas rotas' : list rota) :
  Forall2 (λ r r', r' ≡ₚ r ∧ rota_custo m dep r' ≤ rota_custo m dep r) rotas rotas' →
  custo_das_rotas m dep rotas' ≤ custo_das_rotas m dep rotas
  ∧ demandas_reais rotas' = demandas_reais rotas
  ∧ (Forall (λ r, r ≠ []) rotas → Forall (λ r, r ≠ []) rotas').
Proof.
  unfold custo_das_rotas, demandas_reais.
  induction 1 as [|r r' rotas rotas' [Hp Hc] _ (IH1 & IH2 & IH3)].
  - split_and!; [done|done|done].
  - rewrite !fmap_cons, !soma_cons. split_and!.
    + lia.
    + rewrite IH2. f_equal. apply soma_perm. by rewrite Hp.
    + intros Hv. apply Forall_cons in Hv as [Hr Hv]. constructor; [|by apply IH3].
      intros ->. by apply Permutation_nil_l in Hp.
Qed.

Lemma relocate_custo (cap : Z) (m : matriz) (dep : Z) (fuel : nat)
    (rotas : list rota) (demandas : list Z) (rotas' : list rota) (demandas' : list Z) :
  relocate cap m dep fuel rotas demandas = Ok (rotas', demandas') →
  custo_das_rotas m dep rotas' ≤ custo_das_rotas m dep rotas
  ∧ (length rotas' ≤ length rotas)%nat.
Proof.
  unfold relocate. intros H. apply bind_Ok in H as ([rotas1 demandas1] & Hw & H).
  unfold poda_apos_filtro in H. injection H as <- <-.
  rewrite custo_das_rotas_filter.
  pose proof (relocate_while_custo _ _ _ _ _ _ _ _ Hw) as [Hle _].
  split; [done|].
  pose proof (filter_length_le nao_vazia rotas1) as Hf.
  enough (length rotas1 = length rotas) by lia.
  clear Hle Hf. revert rotas demandas Hw.
  induction fuel as [|fuel IH]; intros rotas demandas; simpl; [done|].
  intros H. apply bind_Ok in H as ([[rotas2 demandas2]|] & Hmov & H).
  - apply relocate_varredura_move in Hmov as (_ & Hl2 & _).
    apply IH in H. congruence.
  - by injection H as <- <-.
Qed.

(** X10: [vnd] returns the services it was given, spread over no more
    routes, at a total cost that is not higher. *)
Theorem vnd_nao_aumenta_custo (cap : Z) (m : matriz) (dep : Z) (fuel : nat)
    (rotas : list rota) (demandas : list Z) (rotas' : list rota) (demandas' : list Z) :
  vnd cap m dep fuel rotas demandas = Ok (rotas', demandas') →
  custo_das_rotas m dep rotas' ≤ custo_das_rotas m dep rotas
  ∧ mjoin rotas' ≡ₚ mjoin rotas
  ∧ (length rotas' ≤ length rotas)%nat.
Proof.
  intros H. pose proof (vnd_perm _ _ _ _ _ _ _ _ H) as Hp.
  unfold vnd in H. apply bind_Ok in H as ([rotas1 demandas1] & Hr & H).
  apply bind_Ok in H as (rotas2 & H2 & H). injection H as <- <-.
  pose proof (relocate_custo cap m dep fuel _ _ _ _ Hr) as [Hc Hl].
  apply two_opt_rotas_custo in H2.
  pose proof (Forall2_length _ _ _ H2) as Hlen.
  apply Forall2_custo_das_rotas in H2 as (Hc2 & _ & _).
  split_and!; [lia|done|lia].
Qed.

Lemma vnd_nao_aumenta_custo_witness :
  let r12 := [serv_vertice 1 10 3; serv_vertice 2 1 4] in
  let r3 := [serv_vertice 3 11 6] in
  let r2 := [serv_vertice 2 1 4] in
  let r31 := [serv_vertice 3 11 6; serv_vertice 1 10 3] in
  custo_das_rotas linha_reta 0 [r2; r31] ≤ custo_das_rotas linha_reta 0 [r12; r3]
  ∧ mjoin [r2; r31] ≡ₚ mjoin [r12; r3]
  ∧ (length [r2; r31] ≤ length [r12; r3])%nat.
Proof.
  apply (vnd_nao_aumenta_custo 8 linha_reta 0 2 _ [7; 0] _ [4; 3]).
  vm_compute. reflexivity.
Defined.

Lemma filter_nao_vazia_Forall {A} (l : list (list A)) :
  Forall (λ r, r ≠ []) (List.filter nao_vazia l).
Proof.
  apply Forall_forall. intros r Hr.
  apply list_elem_of_In, filter_In in Hr as [_ Hr]. by destruct r.
Qed.

Lemma dentro_da_capacidade_reais (cap : Z) (rotas : list rota) :
  dentro_da_capacidade cap rotas ↔ Forall (λ d, d ≤ cap) (demandas_reais rotas).
Proof. unfold dentro_da_capacidade, demandas_reais. by rewrite Forall_fmap. Qed.

(** X11: on non-empty routes within the capacity, with non-negative demands
    and a demand list that says what the routes carry, [vnd] returns
    non-empty routes within the capacity and a demand list that says what
    they carry. *)
Theorem vnd_mantem_capacidade (cap : Z) (m : matriz) (dep : Z) (fuel : nat)
    (rotas : list rota) (demandas : list Z) (rotas' : list rota) (demandas' : list Z) :
  sincronizadas rotas demandas →
  Forall (Forall (λ s, 0 ≤ demanda s)) rotas →
  Forall (λ r, r ≠ []) rotas →
  dentro_da_capacidade cap rotas →
  vnd cap m dep fuel rotas demandas = Ok (rotas', demandas') →
  sincronizadas rotas' demandas'
  ∧ dentro_da_capacidade cap rotas'
  ∧ Forall (λ r, r ≠ []) rotas'.
Proof.
  intros Hs Hpos Hv Hc H. unfold vnd in H.
  apply bind_Ok in H as ([rotas1 demandas1] & Hr & H).
  apply bind_Ok in H as (rotas2 & H2 & H). injection H as <- <-.
  destruct (relocate_sincronizadas cap m dep fuel _ _ _ _ Hs Hpos Hv Hc Hr) as [Hs1 Hc1].
  assert (Forall (λ r, r ≠ []) rotas1) as Hv1.
  { unfold relocate in Hr. apply bind_Ok in Hr as ([rotas0 demandas0] & _ & Hr).
    unfold poda_apos_filtro in Hr. injection Hr as <- _. apply filter_nao_vazia_Forall. }
  apply two_opt_rotas_custo, Forall2_custo_das_rotas in H2 as (_ & Hd & Hne).
  unfold sincronizadas in *. split_and!.
  - congruence.
  - apply dentro_da_capacidade_reais. rewrite Hd. by apply dentro_da_capacidade_reais.
  - by apply Hne.
Qed.

Lemma vnd_mantem_capacidade_witness :
  let r2 := [serv_vertice 2 1 4] in
  let r31 := [serv_vertice 3 11 6; serv_vertice 1 10 3] in
  sincronizadas [r2; r31] [4; 9]
  ∧ dentro_da_capacidade 10 [r2; r31]
  ∧ Forall (λ r, r ≠ []) [r2; r31].
Proof.
  apply (vnd_mantem_capacidade 10 linha_reta 0 3
           [[serv_vertice 1 10 3; serv_vertice 2 1 4]; [serv_vertice 3 11 6]]
           [7; 6]).
  - reflexivity.
  - repeat constructor; simpl; lia.
  - repeat constructor; discriminate.
  - repeat constructor; simpl; lia.
  - vm_compute. reflexivity.
Defined.

(** ** [segment_relocate] *)

Section SegmentRelocate.
Variable capacidade : Z.
Variable m : matriz.
Variable dep : Z.

(** X12: on a solution that covers a catalogue of distinct ids, with one
    demand entry per route, [segment_relocate] stops and returns a solution
    that covers the catalogue: its closing test does not raise. *)
Theorem segment_relocate_termina (rotas : list rota) (demandas : list Z)
    (servicos : list servico) :
  length demandas = length rotas →
  NoDup (id_servico <$> servicos) →
  mjoin rotas ≡ₚ servicos →
  ∃ fuel0 rotas' demandas',
    (∀ fuel, (fuel0 ≤ fuel)%nat →
       segment_relocate capacidade m dep fuel rotas demandas servicos
       = Ok (rotas', demandas'))
    ∧ mjoin rotas' ≡ₚ servicos.
Proof. apply segment_relocate_retorna. Qed.

Lemma segment_varredura_vazias (rotas : list rota) demandas rotas' demandas' :
  segment_varredura capacidade m dep rotas demandas = Ok (Some (rotas', demandas')) →
  nao_vazia <$> rotas' = nao_vazia <$> rotas.
Proof.
  unfold segment_varredura. intros H.
  apply varre_Some in H as (i & _ & H). apply varre_Some in H as (j & _ & H).
  apply bind_Ok in H as (rota_i & Hi & H). apply item_Ok in Hi.
  apply bind_Ok in H as (rota_j & Hj & H). apply item_Ok in Hj.
  destruct (bool_decide (i = j)) eqn:Hij; [done|].
  destruct (nao_vazia rota_i) eqn:Hni; [|done].
  destruct (nao_vazia rota_j) eqn:Hnj; [|done]. simpl in H.
  apply bind_Ok in H as (d_i & _ & H). apply bind_Ok in H as (d_j & _ & H).
  apply varre_Some in H as (start & _ & H).
  apply varre_Some in H as (end_ & _ & H).
  unfold segment_tenta in H.
  destruct (_ || _); [done|]. destruct (_ <? _); [done|].
  destruct (nao_vazia (take start rota_i ++ drop end_ rota_i)) eqn:Hno; [|done].
  simpl in H. destruct (_ <? _); [|done].
  injection H as <- <-.
  rewrite !list_fmap_insert, Hno.
  assert (nao_vazia (rota_j ++ take (end_ - start) (drop start rota_i)) = true) as ->
    by (by destruct rota_j).
  rewrite (list_insert_id (nao_vazia <$> rotas) i)
    by (by rewrite list_lookup_fmap, Hi; simpl; rewrite Hni).
  rewrite list_insert_id; [done|]. rewrite list_lookup_fmap, Hj. simpl. by rewrite Hnj.
Qed.

Lemma filter_length_fmap {A} (f : A → bool) (l l' : list A) :
  f <$> l = f <$> l' → length (List.filter f l) = length (List.filter f l').
Proof.
  revert l'. induction l as [|x l IH]; intros [|x' l'] H; try done.
  simpl in *. injection H as Hx Hl. rewrite Hx. destruct (f x'); simpl; auto.
Qed.

Lemma segment_while_custo (fuel : nat) :
  ∀ (rotas : list rota) demandas rotas' demandas',
    length demandas = length rotas →
    segment_while capacidade m dep fuel rotas demandas = Ok (rotas', demandas') →
    custo_das_rotas m dep rotas' ≤ custo_das_rotas m dep rotas
    ∧ Forall (λ r, r ≠ []) rotas'
    ∧ length rotas' = length (List.filter nao_vazia rotas)
    ∧ length demandas' = length rotas'.
Proof.
  induction fuel as [|fuel IH]; intros rotas demandas rotas' demandas' Hlen;
    cbn [segment_while]; [done|].
  intros H. apply bind_Ok in H as ([[rotas1 demandas1]|] & Hmov & H).
  - pose proof (segment_varredura_vazias _ _ _ _ Hmov) as Hvz.
    apply segment_varredura_move in Hmov as (Hlt & _ & Hl1 & Hd1).
    pose proof (poda_em_pares_rotas rotas1 demandas1 ltac:(congruence)) as Hr2.
    pose proof (poda_em_pares_length rotas1 demandas1) as Hl2.
    destruct (poda_em_pares rotas1 demandas1) as [rotas2 demandas2]. simpl in Hr2, Hl2.
    subst rotas2. apply IH in H as (Hc & Hv & Hl & Hd); [|done].
    rewrite custo_das_rotas_filter in Hc.
    rewrite (filter_nao_vazia_id (List.filter nao_vazia rotas1)) in Hl
      by apply filter_nao_vazia_Forall.
    split_and!; [lia|done| |done].
    rewrite Hl. by apply filter_length_fmap.
  - pose proof (poda_em_pares_rotas rotas demandas Hlen) as Hr2.
    pose proof (poda_em_pares_length rotas demandas) as Hl2.
    destruct (poda_em_pares rotas demandas) as [rotas2 demandas2]. simpl in Hr2, Hl2.
    injection H as <- <-. subst rotas2.
    rewrite custo_das_rotas_filter. split_and!; [done| |done|done].
    apply filter_nao_vazia_Forall.
Qed.

(** X13: [segment_relocate] never returns a dearer solution, and it neither
    empties a route nor opens an empty one: it returns the non-empty
    routes it was given, rearranged, with one demand entry for each. *)
Theorem segment_relocate_nao_aumenta_custo (fuel : nat) (rotas : list rota)
    (demandas : list Z) (obrig : list servico) (rotas' : list rota) (demandas' : list Z) :
  length demandas = length rotas →
  segment_relocate capacidade m dep fuel rotas demandas obrig = Ok (rotas', demandas') →
  custo_das_rotas m dep rotas' ≤ custo_das_rotas m dep rotas
  ∧ Forall (λ r, r ≠ []) rotas'
  ∧ length rotas' = length (List.filter nao_vazia rotas)
  ∧ length demandas' = length rotas'.
Proof.
  intros Hlen H. unfold segment_relocate in H.
  apply bind_Ok in H as ([rotas1 demandas1] & Hw & H).
  destruct (cobertura_invalida _ _); [done|]. injection H as <- <-.
  by apply (segment_while_custo fuel rotas demandas).
Qed.

(** X14: on routes within the capacity, with non-negative demands and a
    demand list that says what the routes carry, [segment_relocate] returns
    routes within the capacity and a demand list that says what they
    carry. *)
Theorem segment_relocate_mantem_capacidade (fuel : nat) (rotas : list rota)
    (demandas : list Z) (obrig : list servico) (rotas' : list rota) (demandas' : list Z) :
  sincronizadas rotas demandas →
  Forall (Forall (λ s, 0 ≤ demanda s)) rotas →
  dentro_da_capacidade capacidade rotas →
  segment_relocate capacidade m dep fuel rotas demandas obrig = Ok (rotas', demandas') →
  sincronizadas rotas' demandas' ∧ dentro_da_capacidade capacidade rotas'.
Proof. apply segment_relocate_sincronizadas. Qed.

End SegmentRelocate.

Lemma segment_relocate_termina_witness :
  ∃ fuel0 rotas' demandas',
    (∀ fuel, (fuel0 ≤ fuel)%nat →
       segment_relocate 10 linha_reta 0 fuel
         [[serv_vertice 1 10 3; serv_vertice 2 1 4]; [serv_vertice 3 11 6]] [7; 6]
         catalogo_346
       = Ok (rotas', demandas'))
    ∧ mjoin rotas' ≡ₚ catalogo_346.
Proof.
  apply (segment_relocate_termina 10 linha_reta 0
           [[serv_vertice 1 10 3; serv_vertice 2 1 4]; [serv_vertice 3 11 6]] [7; 6]
           catalogo_346).
  - reflexivity.
  - apply (bool_decide_unpack _). vm_compute. exact I.
  - reflexivity.
Defined.

Lemma segment_relocate_nao_aumenta_custo_witness :
  let r12 := [serv_vertice 1 10 3; serv_vertice 2 1 4] in
  let r3 := [serv_vertice 3 11 6] in
  let r2 := [serv_vertice 2 1 4] in
  let r31 := [serv_vertice 3 11 6; serv_vertice 1 10 3] in
  custo_das_rotas linha_reta 0 [r2; r31] ≤ custo_das_rotas linha_reta 0 [r12; r3]
  ∧ Forall (λ r, r ≠ []) [r2; r31]
  ∧ length [r2; r31] = length (List.filter nao_vazia [r12; r3])
  ∧ length [4; 9] = length [r2; r31].
Proof.
  apply (segment_relocate_nao_aumenta_custo 10 linha_reta 0 3 _ [7; 6] catalogo_346).
  - reflexivity.
  - vm_compute. reflexivity.
Defined.

Lemma segment_relocate_mantem_capacidade_witness :
  let r2 := [serv_vertice 2 1 4] in
  let r31 := [serv_vertice 3 11 6; serv_vertice 1 10 3] in
  sincronizadas [r2; r31] [4; 9] ∧ dentro_da_capacidade 10 [r2; r31].
Proof.
  apply (segment_relocate_mantem_capacidade 10 linha_reta 0 3
           [[serv_vertice 1 10 3; serv_vertice 2 1 4]; [serv_vertice 3 11 6]] [7; 6]
           catalogo_346).
  - reflexivity.
  - repeat constructor; simpl; lia.
  - repeat constructor; simpl; lia.
  - vm_compute. reflexivity.
Defined.

(** ** The validation and the driver *)

(** X15: the validation shared by [segment_relocate] and the driver accepts
    a solution exactly when the ids along its routes are those of the
    catalogue, each of them once. *)
Theorem validacao_exata (rotas : list rota) (servicos : list servico) :
  cobertura_invalida rotas servicos = false ↔ cobertura rotas servicos.
Proof.
  split; [apply cobertura_valida|].
  intros [Hnd Hx]. unfold cobertura_invalida.
  apply orb_false_iff. split; apply negb_false_iff.
  - by apply mesmo_conjunto_spec.
  - apply Nat.eqb_eq. by rewrite distintos_NoDup_length.
Qed.

Section Selecao.
Variable R : prng.
Variable servicos : list servico.
Variable dep : Z.
Variable m : matriz.
Variable cap : Z.
Variable obrig : list servico.
Variable k : nat.
Variable relogio : nat → Z.
Variable fuel : nat.

Local Abbreviation passo := (tentativa_passo R servicos dep m cap obrig k relogio fuel).
Local Abbreviation laco := (tentativas R servicos dep m cap obrig k relogio fuel).
Local Abbreviation solucao := (tentativa_solucao R servicos dep m cap obrig k fuel).

(** A trial that returns has built a solution, and that solution reaches
    the comparison with the incumbent: the [continue] of the driver's own
    validation is never taken, [segment_relocate] having raised on the
    same test. *)
Lemma tentativa_passo_solucao (mel : melhor) (g : estado R) (t : nat) mel' g' :
  passo mel g t = Ok (mel', g') →
  ∃ c rotas dem,
    solucao t = Ok (c, rotas, dem)
    ∧ mel' = atualiza_melhor mel c rotas dem (relogio (1 + t)).
Proof.
  unfold tentativa_passo, tentativa_solucao. intros H.
  apply bind_Ok in H as ([[rotas1 dem1] g1] & -> & H). cbn [mbind res_bind].
  apply bind_Ok in H as ([rotas2 dem2] & -> & H). cbn [mbind res_bind].
  apply bind_Ok in H as ([rotas3 dem3] & H3 & H). rewrite H3. cbn [mbind res_bind].
  unfold segment_relocate in H3. apply bind_Ok in H3 as ([rotas4 dem4] & _ & H3).
  destruct (cobertura_invalida rotas4 obrig) eqn:Hv; [done|].
  injection H3 as <- <-. rewrite Hv in H. injection H as <- <-.
  by eexists _, _, _.
Qed.

Lemma tentativas_app (ts1 ts2 : list nat) :
  ∀ (mel : melhor) (g : estado R),
    laco mel g (ts1 ++ ts2) = '(mel1, g1) ← laco mel g ts1; laco mel1 g1 ts2.
Proof.
  induction ts1 as [|t ts1 IH]; intros mel g; [done|]. simpl.
  destruct (passo mel g t) as [[mel1 g1]| |]; [|done..]. simpl. apply IH.
Qed.

(** X16: when the driver returns, every trial has returned a solution and
    the incumbent is the solution of one of them, with its cost, its
    number of routes and the clock reading of its trial; no trial found a
    cheaper solution, none found one of the same cost with fewer routes,
    and every earlier trial is strictly worse in that order.  With no
    trial at all the incumbent is the initial one. *)
Theorem multi_start_escolhe_o_melhor (n : nat) (g : estado R) (mel : melhor)
    (g' : estado R) :
  multi_start_melhor R servicos dep m cap obrig k relogio fuel n g = Ok (mel, g') →
  (∀ t, (t < n)%nat → ∃ v, solucao t = Ok v)
  ∧ ((n = 0%nat ∧ mel = melhor_inicial)
     ∨ ∃ t c rotas dem,
         (t < n)%nat
         ∧ solucao t = Ok (c, rotas, dem)
         ∧ mel = Melhor (Fin c) (Fin (Z.of_nat (length rotas))) (Some rotas) (Some dem)
                   (Some (relogio (1 + t)))
         ∧ ∀ t' c' rotas' dem',
             (t' < n)%nat → solucao t' = Ok (c', rotas', dem') →
             (c < c' ∨ (c = c' ∧ (length rotas ≤ length rotas')%nat))
             ∧ ((t' < t)%nat → c < c' ∨ (c = c' ∧ (length rotas < length rotas')%nat))).
Proof.
  unfold multi_start_melhor, range. rewrite Nat.sub_0_r.
  revert mel g'. induction n as [|n IH]; intros mel g'.
  - simpl. intros [= <- <-]. split; [intros t Ht; lia|]. by left.
  - rewrite seq_S, tentativas_app. simpl. intros H.
    apply bind_Ok in H as ([mel0 g0] & H0 & H).
    apply bind_Ok in H as ([mel1 g1] & H1 & H). injection H as <- <-.
    apply IH in H0 as [Hall Hmel].
    apply tentativa_passo_solucao in H1 as (c_n & rotas_n & dem_n & Hn & ->).
    split.
    { intros t Ht. destruct (decide (t = n)) as [->|]; [by eexists|].
      apply Hall. lia. }
    right. destruct Hmel as [[-> ->]|(t & c & rotas & dem & Ht & Hsol & -> & Hmin)].
    + exists 0%nat, c_n, rotas_n, dem_n. split_and!; [lia|done|done|].
      intros t' c' rotas' dem' Ht' Hs'. assert (t' = 0%nat) as -> by lia.
      rewrite Hn in Hs'. injection Hs' as <- <- <-. split; [lia|lia].
    + unfold atualiza_melhor.
      destruct (substitui c_n (Z.of_nat (length rotas_n)) _) eqn:Hsub.
      * apply substitui_spec in Hsub.
        exists n, c_n, rotas_n, dem_n. split_and!; [lia|done|done|].
        intros t' c' rotas' dem' Ht' Hs'.
        destruct (decide (t' = n)) as [->|Hne].
        { rewrite Hn in Hs'. injection Hs' as <- <- <-. split; lia. }
        destruct (Hmin t' c' rotas' dem' ltac:(lia) Hs') as [Hle _].
        split; [lia|]. intros _. lia.
      * assert (¬ (c_n < c ∨ c_n = c ∧ Z.of_nat (length rotas_n) < Z.of_nat (length rotas)))
          as Hno.
        { intros Hyes.
          apply (substitui_spec _ _ _ _ (Some rotas) (Some dem) (Some (relogio (1 + t))))
            in Hyes.
          congruence. }
        exists t, c, rotas, dem. split_and!; [lia|done|done|].
        intros t' c' rotas' dem' Ht' Hs'.
        destruct (decide (t' = n)) as [->|Hne].
        { rewrite Hn in Hs'. injection Hs' as <- <- <-. split; lia. }
        apply (Hmin t' c' rotas' dem'); [lia|done].
Qed.

End Selecao.

Lemma multi_start_escolhe_o_melhor_witness :
  let rotas_0 := [[serv_vertice 2 1 4]; [serv_vertice 3 11 6; serv_vertice 1 10 3]] in
  (∀ t, (t < 3)%nat →
     ∃ v, tentativa_solucao prng_zero catalogo_346 0 linha_reta 8 catalogo_346 1 5 t = Ok v)
  ∧ ((3%nat = 0%nat
      ∧ Melhor (Fin 27) (Fin 2) (Some rotas_0) (Some [4; 3]) (Some 1) = melhor_inicial)
     ∨ ∃ t c rotas dem,
         (t < 3)%nat
         ∧ tentativa_solucao prng_zero catalogo_346 0 linha_reta 8 catalogo_346 1 5 t
           = Ok (c, rotas, dem)
         ∧ Melhor (Fin 27) (Fin 2) (Some rotas_0) (Some [4; 3]) (Some 1)
           = Melhor (Fin c) (Fin (Z.of_nat (length rotas))) (Some rotas) (Some dem)
               (Some (relogio_unitario (1 + t)))
         ∧ ∀ t' c' rotas' dem',
             (t' < 3)%nat →
             tentativa_solucao prng_zero catalogo_346 0 linha_reta 8 catalogo_346 1 5 t'
             = Ok (c', rotas', dem') →
             (c < c' ∨ (c = c' ∧ (length rotas ≤ length rotas')%nat))
             ∧ ((t' < t)%nat → c < c' ∨ (c = c' ∧ (length rotas < length rotas')%nat))).
Proof.
  apply (multi_start_escolhe_o_melhor prng_zero catalogo_346 0 linha_reta 8 catalogo_346
           1 relogio_unitario 5 3 tt _ tt).
  vm_compute. reflexivity.
Defined.

(** ** The serializer on routes without repeated ids *)

Lemma acumula_sem_repeticao (r : rota) :
  ∀ a : acumulado,
    NoDup (id_servico <$> r) →
    (∀ s, s ∈ r → servicos_unicos a !! id_servico s = None) →
    let a' := foldl acumula a r in
    demanda_rota a' = demanda_rota a + soma (demanda <$> r)
    ∧ custo_servico_rota a' = custo_servico_rota a + soma (custo_servico <$> r)
    ∧ destinos a' = destinos a ++ (destino <$> r).
Proof.
  induction r as [|s r IH]; intros a Hnd Hnovo; cbn zeta.
  - simpl. rewrite app_nil_r. unfold soma. simpl. split_and!; [lia|lia|done].
  - rewrite fmap_cons in Hnd. apply NoDup_cons in Hnd as [Hs Hnd].
    cbn [foldl].
    assert (acumula a s
            = {| servicos_unicos := <[id_servico s := s]> (servicos_unicos a);
                 demanda_rota := demanda_rota a + demanda s;
                 custo_servico_rota := custo_servico_rota a + custo_servico s;
                 destinos := destinos a ++ [destino s] |}) as ->.
    { unfold acumula. by rewrite (Hnovo s) by left. }
    match goal with |- context [foldl acumula ?b r] => destruct (IH b) as (H1 & H2 & H3) end.
    { done. }
    { intros s' Hs'. simpl. rewrite lookup_insert_ne.
      - apply Hnovo. by right.
      - intros Heq. apply Hs. rewrite Heq. by apply list_elem_of_fmap_2. }
    rewrite H1, H2, H3, !fmap_cons, !soma_cons.
    cbn [demanda_rota custo_servico_rota destinos]. rewrite <- app_assoc.
    split_and!; [lia|lia|done].
Qed.

Lemma acumula_etapa2_sem_repeticao (r : rota) :
  ∀ a : acumulado,
    NoDup (id_servico <$> r) →
    (∀ s, s ∈ r → servicos_unicos a !! id_servico s = None) →
    foldl Etapa2.acumula a r = foldl acumula a r.
Proof.
  induction r as [|s r IH]; intros a Hnd Hnovo; [done|].
  rewrite fmap_cons in Hnd. apply NoDup_cons in Hnd as [Hs Hnd].
  cbn [foldl].
  assert (Etapa2.acumula a s = acumula a s) as ->.
  { unfold Etapa2.acumula, acumula. by rewrite (Hnovo s) by left. }
  apply IH; [done|]. unfold acumula. rewrite (Hnovo s) by left.
  intros s' Hs'. simpl. rewrite lookup_insert_ne.
  - apply Hnovo. by right.
  - intros Heq. apply Hs. rewrite Heq. by apply list_elem_of_fmap_2.
Qed.

Lemma impressos_sem_repeticao (r : rota) :
  NoDup (id_servico <$> r) → impressos r = r.
Proof.
  unfold impressos.
  enough (∀ (vistos : gset Z) (saida : list servico),
            NoDup (id_servico <$> r) → (∀ s, s ∈ r → id_servico s ∉ vistos) →
            (foldl imprime (vistos, saida) r).2 = saida ++ r) as H.
  { intros Hnd. apply (H ∅ []); [done|]. intros s _. set_solver. }
  induction r as [|s r IH]; intros vistos saida Hnd Hnovo.
  - simpl. by rewrite app_nil_r.
  - rewrite fmap_cons in Hnd. apply NoDup_cons in Hnd as [Hs Hnd].
    cbn [foldl]. unfold imprime at 2. cbn [fst snd].
    rewrite bool_decide_eq_false_2 by (apply Hnovo; left).
    rewrite IH; [by rewrite <- app_assoc|done|].
    intros s' Hs'. apply not_elem_of_union. split.
    + apply not_elem_of_singleton. intros Heq. apply Hs. rewrite <- Heq.
      by apply list_elem_of_fmap_2.
    + apply Hnovo. by right.
Qed.

Lemma monta_linha_sem_repeticao (m : matriz) (dep : Z) (idx : nat) (r : rota) :
  NoDup (id_servico <$> r) → monta_linha m dep idx r = linha_da_rota m dep idx r.
Proof.
  intros Hnd. unfold monta_linha, linha_da_rota.
  destruct (acumula_sem_repeticao r (Acumulado ∅ 0 0 []) Hnd) as (H1 & H2 & H3).
  { intros s _. apply lookup_empty. }
  simpl in H1, H2, H3. rewrite H1, H2, H3, impressos_sem_repeticao by done.
  f_equal.
  - unfold custo_transporte_rota, rota_custo.
    destruct r as [|s r]; [done|]. cbn [fmap list_fmap]. cbn zeta. lia.
  - rewrite <- size_dom, acumula_dom, size_list_to_set by done.
    by rewrite length_fmap.
Qed.



(** X18: for routes in which no service id is repeated the writer of
    etapa2 and the writer of etapa3 produce the same lines. *)
Theorem salvar_solucao_etapas_coincidem (m : matriz) (dep : Z) (rotas : list rota)
    (t_exec t_sol : Z) :
  Forall (λ r, NoDup (id_servico <$> r)) rotas →
  Etapa2.salvar_solucao m dep rotas t_exec t_sol
  = salvar_solucao m dep rotas t_exec t_sol.
Proof.
  intros Hnd. unfold Etapa2.salvar_solucao, salvar_solucao.
  assert (imap (λ i r, Etapa2.monta_linha m dep (1 + i) r) rotas
          = imap (λ i r, monta_linha m dep (1 + i) r) rotas) as ->; [|done].
  apply imap_ext. intros i r Hr. unfold Etapa2.monta_linha, monta_linha.
  rewrite acumula_etapa2_sem_repeticao; [done| |].
  - rewrite Forall_forall in Hnd. apply Hnd. by eapply list_elem_of_lookup_2.
  - intros s _. apply lookup_empty.
Qed.

Lemma salvar_solucao_etapas_coincidem_witness :
  let rotas := [[serv_vertice 2 1 4]; [serv_vertice 3 11 6; serv_vertice 1 10 3]] in
  Etapa2.salvar_solucao linha_reta 0 rotas 40 7 = salvar_solucao linha_reta 0 rotas 40 7.
Proof.
  apply (salvar_solucao_etapas_coincidem linha_reta 0
           [[serv_vertice 2 1 4]; [serv_vertice 3 11 6; serv_vertice 1 10 3]] 40 7).
  repeat constructor; apply (bool_decide_unpack _); vm_compute; exact I.
Defined.

(** ** The line of a route that repeats service ids *)

Lemma acumula_repetido (a : acumulado) (s : servico) :
  is_Some (servicos_unicos a !! id_servico s) → acumula a s = a.
Proof. intros [s' Hs']. unfold acumula. by rewrite Hs'. Qed.

Lemma acumula_mantem (a : acumulado) (s : servico) (x : Z) :
  is_Some (servicos_unicos a !! x) → is_Some (servicos_unicos (acumula a s) !! x).
Proof.
  intros Hx. unfold acumula. destruct (servicos_unicos a !! id_servico s); [done|].
  simpl. apply lookup_insert_is_Some'. by right.
Qed.

Lemma acumula_registra (a : acumulado) (s : servico) :
  is_Some (servicos_unicos (acumula a s) !! id_servico s).
Proof.
  unfold acumula. destruct (servicos_unicos a !! id_servico s) eqn:H.
  - by rewrite H.
  - simpl. apply lookup_insert_is_Some'. by left.
Qed.

Lemma acumula_filter (x : Z) (l : list servico) :
  ∀ a, is_Some (servicos_unicos a !! x) →
       foldl acumula a (filter (λ s, id_servico s ≠ x) l) = foldl acumula a l.
Proof.
  induction l as [|s l IH]; intros a Hx; [done|].
  rewrite filter_cons. cbn [foldl]. case_decide as Hs.
  - cbn [foldl]. apply IH. by apply acumula_mantem.
  - rewrite (acumula_repetido a s) by (by rewrite Hs).
    by apply IH.
Qed.

Lemma acumula_primeiras (r : rota) :
  ∀ a, foldl acumula a (primeiras_ocorrencias r) = foldl acumula a r.
Proof.
  induction r as [|s r IH]; intros a; [done|].
  cbn [primeiras_ocorrencias foldl].
  rewrite acumula_filter by apply acumula_registra. apply IH.
Qed.

Lemma imprime_filter (x : Z) (l : list servico) :
  ∀ st, x ∈ st.1 →
        foldl imprime st (filter (λ s, id_servico s ≠ x) l) = foldl imprime st l.
Proof.
  induction l as [|s l IH]; intros st Hx; [done|].
  rewrite filter_cons. cbn [foldl]. case_decide as Hs.
  - cbn [foldl]. apply IH. unfold imprime. case_bool_decide; [done|]. simpl. set_solver.
  - assert (imprime st s = st) as ->; [|by apply IH].
    unfold imprime. rewrite bool_decide_eq_true_2; [done|by rewrite Hs].
Qed.

Lemma imprime_primeiras (r : rota) :
  ∀ st, foldl imprime st (primeiras_ocorrencias r) = foldl imprime st r.
Proof.
  induction r as [|s r IH]; intros st; [done|].
  cbn [primeiras_ocorrencias foldl].
  rewrite imprime_filter; [apply IH|].
  unfold imprime. case_bool_decide; [done|]. simpl. set_solver.
Qed.

Lemma primeiras_ocorrencias_ids (r : rota) (x : Z) :
  x ∈ id_servico <$> primeiras_ocorrencias r ↔ x ∈ id_servico <$> r.
Proof.
  induction r as [|s r IH]; [done|]. cbn [primeiras_ocorrencias].
  rewrite !fmap_cons, !elem_of_cons, <- IH, !list_elem_of_fmap.
  split.
  - intros [->|(s' & -> & Hs')]; [by left|].
    apply list_elem_of_filter in Hs' as [_ Hs']. right. by exists s'.
  - intros [->|(s' & -> & Hs')]; [by left|].
    destruct (decide (id_servico s' = id_servico s)) as [Heq|Hne]; [by left|].
    right. exists s'. split; [done|]. by apply list_elem_of_filter.
Qed.

Lemma primeiras_ocorrencias_sublist (r : rota) : sublist (primeiras_ocorrencias r) r.
Proof.
  induction r as [|s r IH]; [done|]. cbn [primeiras_ocorrencias].
  apply sublist_skip. etrans; [apply sublist_filter|done].
Qed.

Lemma primeiras_ocorrencias_NoDup (r : rota) :
  NoDup (id_servico <$> primeiras_ocorrencias r).
Proof.
  induction r as [|s r IH]; [constructor|]. cbn [primeiras_ocorrencias].
  rewrite fmap_cons. apply NoDup_cons. split.
  - intros (s' & Heq & Hs')%list_elem_of_fmap.
    by apply list_elem_of_filter in Hs' as [Hne _].
  - eapply sublist_NoDup; [exact IH|]. apply fmap_sublist, sublist_filter.
Qed.

Lemma primeiras_ocorrencias_length (r : rota) :
  length (primeiras_ocorrencias r) = size (list_to_set (id_servico <$> r) : gset Z).
Proof.
  rewrite <- (length_fmap id_servico).
  rewrite <- (size_list_to_set (C := gset Z)) by apply primeiras_ocorrencias_NoDup.
  f_equal. apply set_eq. intros x. rewrite !elem_of_list_to_set.
  apply primeiras_ocorrencias_ids.
Qed.

Lemma monta_linha_primeiras (m : matriz) (dep : Z) (idx : nat) (r : rota) :
  monta_linha m dep idx r = linha_da_rota m dep idx (primeiras_ocorrencias r).
Proof.
  rewrite <- monta_linha_sem_repeticao by apply primeiras_ocorrencias_NoDup.
  unfold monta_linha, impressos.
  by rewrite acumula_primeiras, imprime_primeiras.
Qed.

(** C9: the line written for the route at position [i] reads
    [0 1 idx demand cost visits (D dep,1,1) (S id,origin,destination) ...
    (D dep,1,1)], where the [(S ...)] groups are those of the first
    occurrence of every service id of the route, in the order of the route:
    no id is printed twice and every id of the route is printed, whatever
    repetitions the route has.  The printed visit count is 2 plus the number
    of distinct service ids of the route; the printed demand and cost are
    those of the services printed. *)
Theorem salvar_solucao_linha_sem_repeticao (m : matriz) (dep : Z) (rotas : list rota)
    (t_exec t_sol : Z) (i : nat) (r : rota) :
  rotas !! i = Some r →
  let grupos := primeiras_ocorrencias r in
  salvar_solucao m dep rotas t_exec t_sol !! (4 + i)%nat
  = Some ("0 1 " ++ str (Z.of_nat (1 + i))
          ++ " " ++ str (soma (demanda <$> grupos))
          ++ " " ++ str (rota_custo m dep grupos)
          ++ " " ++ str (2 + Z.of_nat (size (list_to_set (id_servico <$> r) : gset Z)))
          ++ " " ++ ("(D " ++ str dep ++ ",1,1)")
          ++ String.concat EmptyString
               ((λ s, " (S " ++ str (id_servico s) ++ "," ++ str (origem s)
                      ++ "," ++ str (destino s) ++ ")") <$> grupos)
          ++ " " ++ ("(D " ++ str dep ++ ",1,1)"))%string
  ∧ NoDup (id_servico <$> grupos)
  ∧ (∀ x, x ∈ id_servico <$> grupos ↔ x ∈ id_servico <$> r)
  ∧ sublist grupos r
  ∧ (NoDup (id_servico <$> r) → grupos = r).
Proof.
  intros Hr grupos. split_and!.
  - unfold salvar_solucao. rewrite lookup_app_r by (simpl; lia).
    replace (4 + i - length _)%nat with i by (simpl; lia).
    rewrite list_lookup_fmap, list_lookup_imap, Hr. cbn [fmap option_fmap option_map].
    rewrite monta_linha_primeiras. unfold texto_linha, linha_da_rota. cbn.
    rewrite <- primeiras_ocorrencias_length. reflexivity.
  - apply primeiras_ocorrencias_NoDup.
  - apply primeiras_ocorrencias_ids.
  - apply primeiras_ocorrencias_sublist.
  - intros Hnd. subst grupos.
    rewrite <- (impressos_sem_repeticao r) at 2 by done.
    rewrite <- (impressos_sem_repeticao (primeiras_ocorrencias r))
      by apply primeiras_ocorrencias_NoDup.
    unfold impressos. by rewrite imprime_primeiras.
Qed.

Lemma salvar_solucao_linha_sem_repeticao_witness :
  let r := [serv_vertice 1 9 2; serv_vertice 2 8 2; serv_vertice 1 9 2] in
  let grupos := [serv_vertice 1 9 2; serv_vertice 2 8 2] in
  salvar_solucao linha_reta 0 [r] 40 7 !! 4%nat
  = Some "0 1 1 4 20 4 (D 0,1,1) (S 1,9,9) (S 2,8,8) (D 0,1,1)"%string
  ∧ NoDup (id_servico <$> grupos)
  ∧ (∀ x, x ∈ id_servico <$> grupos ↔ x ∈ id_servico <$> r)
  ∧ sublist grupos r
  ∧ (NoDup (id_servico <$> r) → grupos = r).
Proof.
  exact (salvar_solucao_linha_sem_repeticao linha_reta 0
           [[serv_vertice 1 9 2; serv_vertice 2 8 2; serv_vertice 1 9 2]] 40 7 0
           [serv_vertice 1 9 2; serv_vertice 2 8 2; serv_vertice 1 9 2] eq_refl).
Defined.

(** * etapa2

    ** Loops *)

Lemma para_Ok {A S} (P : S → Prop) (f : S → A → res S) (l : list A) :
  ∀ s, P s →
       (∀ s a, P s → a ∈ l → ∃ s', f s a = Ok s' ∧ P s') →
       ∃ s', para f s l = Ok s' ∧ P s'.
Proof.
  induction l as [|a l IH]; intros s Hs Hf; [by exists s|]. simpl.
  destruct (Hf s a Hs ltac:(left)) as (s1 & -> & Hs1). simpl.
  apply IH; [done|]. intros s2 b Hs2 Hb. apply Hf; [done|by right].
Qed.

Lemma para_inv {A S} (P : S → Prop) (f : S → A → res S) (l : list A) :
  ∀ s s', P s →
          (∀ s a s', P s → a ∈ l → f s a = Ok s' → P s') →
          para f s l = Ok s' → P s'.
Proof.
  induction l as [|a l IH]; intros s s' Hs Hf; simpl; [by intros [= <-]|].
  intros H. apply bind_Ok in H as (s1 & H1 & H).
  apply (IH s1); [by eapply Hf; [done|left|done]| |done].
  intros s2 b s3 Hs2 Hb. apply Hf; [done|by right].
Qed.

Lemma busca_Some {A B} (f : A → option B) (l : list A) (b : B) :
  busca f l = Some b → ∃ a, a ∈ l ∧ f a = Some b.
Proof.
  induction l as [|a l IH]; simpl; [done|].
  destruct (f a) as [b'|] eqn:Hfa.
  - intros [= <-]. exists a. split; [left|done].
  - intros H. destruct (IH H) as (a' & Ha' & Hf). exists a'. split; [by right|done].
Qed.

(** ** The construction of etapa2 *)

Lemma etapa2_construir_eq (servicos : list servico) (dep : Z) (m : matriz) (cap : Z) :
  Etapa2.construir_rotas_iniciais servicos dep m cap
  = if forallb (λ s, demanda s <=? cap) servicos
    then Ok ((λ s, [s]) <$> servicos, demanda <$> servicos)
    else Raise ValueError.
Proof.
  unfold Etapa2.construir_rotas_iniciais.
  induction servicos as [|s servicos IH] using rev_ind; [done|].
  rewrite foldl_snoc, IH, forallb_app, !fmap_app. simpl.
  destruct (forallb _ servicos); simpl; [|done].
  rewrite andb_true_r, Z.leb_antisym. by destruct (cap <? demanda s).
Qed.

Lemma forallb_demanda (servicos : list servico) (cap : Z) :
  forallb (λ s, demanda s <=? cap) servicos = true
  ↔ Forall (λ s, demanda s ≤ cap) servicos.
Proof.
  rewrite forallb_forall, Forall_forall. split; intros H s Hs.
  - apply Z.leb_le, H. by apply list_elem_of_In.
  - apply Z.leb_le, H. by apply list_elem_of_In.
Qed.

(** X19: [construir_rotas_iniciais] of etapa2 returns what the version of
    etapa3 returns, one route per service with its demand, when no demand
    exceeds the capacity, and raises [ValueError] otherwise. *)
Theorem construir_rotas_iniciais_guarda (servicos : list servico) (dep : Z)
    (m : matriz) (cap : Z) :
  (Forall (λ s, demanda s ≤ cap) servicos →
   Etapa2.construir_rotas_iniciais servicos dep m cap
   = Ok (construir_rotas_iniciais servicos dep m cap))
  ∧ (Exists (λ s, cap < demanda s) servicos →
     Etapa2.construir_rotas_iniciais servicos dep m cap = Raise ValueError).
Proof.
  rewrite etapa2_construir_eq, construir_rotas_iniciais_eq. split.
  - intros Hd. apply forallb_demanda in Hd. by rewrite Hd.
  - intros He. destruct (forallb _ servicos) eqn:Hd; [|done].
    apply forallb_demanda in Hd. rewrite Forall_forall in Hd.
    apply Exists_exists in He as (s & Hs & Hlt). specialize (Hd s Hs). simpl in *. lia.
Qed.

Lemma insere_por_saving_perm (x : saving) (l : list saving) :
  Etapa2.insere_por_saving x l ≡ₚ x :: l.
Proof.
  induction l as [|y l IH]; simpl; [done|].
  destruct (_ <? _); [|done]. rewrite IH. apply Permutation_swap.
Qed.

Lemma sort_por_saving_perm (l : list saving) : Etapa2.sort_por_saving l ≡ₚ l.
Proof.
  unfold Etapa2.sort_por_saving. induction l as [|x l IH]; simpl; [done|].
  by rewrite insere_por_saving_perm, IH.
Qed.

(** On routes none of which is empty the savings of etapa2 are computed
    without an error, and their positions are pairs [i < j] of routes. *)
Lemma etapa2_calcular_savings_Ok (rotas : list rota) (m : matriz) (dep : Z) :
  Forall (λ r, r ≠ []) rotas →
  ∃ savings,
    Etapa2.calcular_savings rotas m dep = Ok savings
    ∧ Forall (λ sv : saving, (sv.1.2 < sv.2)%nat ∧ (sv.2 < length rotas)%nat) savings.
Proof.
  intros Hv. unfold Etapa2.calcular_savings. cbn zeta.
  set (P := Forall (λ sv : saving, (sv.1.2 < sv.2)%nat ∧ (sv.2 < length rotas)%nat)).
  assert (∀ i, (i < length rotas)%nat → ∃ r s, item rotas i = Ok r ∧ item r 0 = Ok s)
    as Hitem.
  { intros i Hi. destruct (lookup_lt_is_Some_2 rotas i Hi) as [r Hr].
    rewrite Forall_forall in Hv. pose proof (Hv r (list_elem_of_lookup_2 _ _ _ Hr)).
    destruct r as [|s r]; [done|]. exists (s :: r), s.
    split; [by apply item_Ok|done]. }
  match goal with |- context [para ?f [] ?l] =>
    destruct (para_Ok P f l []) as (savings & Heq & Hs);
      [| |replace (para f [] l) with (Ok savings) by exact (eq_sym Heq)] end.
  { constructor. }
  { intros savings i Hs Hi. apply elem_of_range in Hi.
    destruct (Hitem i ltac:(lia)) as (rota_i & serv_i & Hri & Hsi).
    rewrite Hri. cbn [mbind res_bind]. rewrite Hsi. cbn [mbind res_bind].
    apply para_Ok; [done|].
    intros savings' j Hs' Hj. apply elem_of_range in Hj.
    destruct (Hitem j ltac:(lia)) as (rota_j & serv_j & Hrj & Hsj).
    rewrite Hrj. cbn [mbind res_bind]. rewrite Hsj. cbn [mbind res_bind].
    eexists. split; [done|]. apply Forall_app. split; [done|].
    constructor; [simpl; lia|constructor]. }
  cbn [mbind res_bind]. eexists. split; [done|].
  unfold P in *. by rewrite sort_por_saving_perm.
Qed.

Section ClarkeWrightEtapa2.
Variable servicos : list servico.
Variable cap : Z.

Local Abbreviation fusao_inv := (fusao_inv servicos cap).

Lemma tentar_fundir_rotas_inv (n : nat) (rotas : list rota) (demandas : list Z)
    (i j : nat) :
  fusao_inv n (rotas, demandas) → (i < j)%nat → (j < n)%nat →
  ∃ b rotas' demandas',
    Etapa2.tentar_fundir_rotas rotas demandas i j cap = Ok (b, rotas', demandas')
    ∧ fusao_inv n (rotas', demandas').
Proof.
  intros (Hlen & Hs & Hp & Hc) Hij Hj. simpl in *. unfold sincronizadas in Hs. subst demandas.
  unfold Etapa2.tentar_fundir_rotas.
  destruct (lookup_lt_is_Some_2 rotas i ltac:(lia)) as [rota_i Hi].
  destruct (lookup_lt_is_Some_2 rotas j ltac:(lia)) as [rota_j Hrj].
  rewrite (proj2 (item_Ok rotas i rota_i) Hi), (proj2 (item_Ok rotas j rota_j) Hrj).
  cbn [mbind res_bind].
  rewrite (proj2 (item_Ok _ i _) (demandas_reais_lookup _ _ _ Hi)).
  rewrite (proj2 (item_Ok _ j _) (demandas_reais_lookup _ _ _ Hrj)).
  cbn [mbind res_bind].
  destruct (_ <? _) eqn:Hcap; [by eexists _, _, _|]. apply Z.ltb_ge in Hcap.
  destruct (existsb _ _); [by eexists _, _, _|].
  eexists _, _, _. split; [done|]. unfold fusao_inv. simpl. split_and!.
  - by rewrite !length_insert.
  - unfold sincronizadas. rewrite !demandas_reais_insert.
    by rewrite fmap_app, soma_app.
  - rewrite <- Hp. apply (mjoin_troca rotas i j rota_i rota_j); [lia|done|done|].
    by rewrite app_nil_r.
  - apply Forall_insert; [apply Forall_insert; [done|]|done].
    intros _. by rewrite fmap_app, soma_app.
Qed.

Lemma etapa2_fusoes_Ok (n : nat) (savings : list saving) (rotas : list rota)
    (demandas : list Z) :
  fusao_inv n (rotas, demandas) →
  Forall (λ sv : saving, (sv.1.2 < sv.2)%nat ∧ (sv.2 < n)%nat) savings →
  ∃ st,
    para (λ '(rotas, demandas) '(s, i, j),
            rota_i ← item rotas i;
            rota_j ← item rotas j;
            if nao_vazia rota_i && nao_vazia rota_j then
              '(_, rotas, demandas) ← Etapa2.tentar_fundir_rotas rotas demandas i j cap;
              Ok (rotas, demandas)
            else Ok (rotas, demandas))
         (rotas, demandas) savings = Ok st
    ∧ fusao_inv n st.
Proof.
  intros Hinv Hsv. apply (para_Ok (fusao_inv n)); [done|].
  intros [rotas1 demandas1] [[s i] j] Hinv1 Hin.
  rewrite Forall_forall in Hsv. destruct (Hsv _ Hin) as [Hij Hj]. simpl in Hij, Hj.
  pose proof Hinv1 as (Hlen & _).  simpl in Hlen.
  destruct (item_lt rotas1 i ltac:(lia)) as [rota_i ->].
  destruct (item_lt rotas1 j ltac:(lia)) as [rota_j ->]. cbn [mbind res_bind].
  destruct (_ && _); [|by eexists].
  destruct (tentar_fundir_rotas_inv n rotas1 demandas1 i j Hinv1 Hij Hj)
    as (b & rotas2 & demandas2 & -> & Hinv2).
  cbn [mbind res_bind]. by eexists.
Qed.

Lemma etapa2_clarke_wright_Ok (dep : Z) (m : matriz) :
  Forall (λ s, demanda s ≤ cap) servicos →
  ∃ rotas,
    Etapa2.algoritmo_clarke_wright servicos dep m cap = Ok rotas
    ∧ mjoin rotas ≡ₚ servicos
    ∧ Forall (λ r, r ≠ []) rotas
    ∧ dentro_da_capacidade cap rotas.
Proof.
  intros Hd. unfold Etapa2.algoritmo_clarke_wright.
  rewrite etapa2_construir_eq, (proj2 (forallb_demanda servicos cap) Hd).
  cbn [mbind res_bind].
  destruct (etapa2_calcular_savings_Ok ((λ s, [s]) <$> servicos) m dep)
    as (savings & -> & Hsv).
  { apply Forall_fmap, Forall_forall. by intros s _. }
  cbn [mbind res_bind]. rewrite length_fmap in Hsv.
  destruct (etapa2_fusoes_Ok (length servicos) savings
              ((λ s, [s]) <$> servicos) (demanda <$> servicos))
    as ([rotas1 demandas1] & -> & Hlen & Hs & Hp & Hc); [|done|].
  { unfold fusao_inv. simpl. split_and!.
    - by rewrite length_fmap.
    - apply sincronizadas_iniciais.
    - by rewrite mjoin_singletons.
    - apply Forall_fmap. eapply Forall_impl; [exact Hd|].
      intros s Hs _. unfold compose, soma. simpl in *. lia. }
  cbn [mbind res_bind]. simpl in *. eexists. split; [done|]. split_and!.
  - by rewrite mjoin_filter_nao_vazia.
  - apply filter_nao_vazia_Forall.
  - apply Forall_forall. intros r Hr.
    apply list_elem_of_In, filter_In in Hr as [Hr Hne]. apply list_elem_of_In in Hr.
    rewrite Forall_forall in Hc. apply Hc; [done|]. by destruct r.
Qed.

Lemma etapa2_clarke_wright_Raise (dep : Z) (m : matriz) :
  Exists (λ s, cap < demanda s) servicos →
  Etapa2.algoritmo_clarke_wright servicos dep m cap = Raise ValueError.
Proof.
  intros He. unfold Etapa2.algoritmo_clarke_wright. rewrite etapa2_construir_eq.
  destruct (forallb _ servicos) eqn:Hd; [|done].
  apply forallb_demanda in Hd. rewrite Forall_forall in Hd.
  apply Exists_exists in He as (s & Hs & Hlt). specialize (Hd s Hs). simpl in *. lia.
Qed.

Lemma demandas_dicotomia :
  Forall (λ s, demanda s ≤ cap) servicos ∨ Exists (λ s, cap < demanda s) servicos.
Proof.
  induction servicos as [|s l IH]; [by left|].
  destruct (Z.le_gt_cases (demanda s) cap) as [Hs|Hs].
  - destruct IH as [IH|IH]; [left; by constructor|right; by apply Exists_cons_tl].
  - right. apply Exists_cons_hd. lia.
Qed.

(** X20: [algoritmo_clarke_wright] of etapa2 raises [ValueError] when some
    demand exceeds the capacity and nothing else; otherwise it returns
    routes that hold every service exactly once, none of them empty and
    none carrying more than the capacity. *)
Theorem algoritmo_clarke_wright_viavel (dep : Z) (m : matriz) :
  match Etapa2.algoritmo_clarke_wright servicos dep m cap with
  | Ok rotas =>
    Forall (λ s, demanda s ≤ cap) servicos
    ∧ mjoin rotas ≡ₚ servicos
    ∧ Forall (λ r, r ≠ []) rotas
    ∧ dentro_da_capacidade cap rotas
  | Raise e => e = ValueError ∧ Exists (λ s, cap < demanda s) servicos
  | OutOfFuel => False
  end.
Proof.
  destruct demandas_dicotomia as [Hd|He].
  - destruct (etapa2_clarke_wright_Ok dep m Hd) as (rotas & -> & H). by split.
  - by rewrite (etapa2_clarke_wright_Raise dep m He).
Qed.

End ClarkeWrightEtapa2.

(** ** 2-opt of etapa2 *)

Section DoisOptEtapa2.
Variable m : matriz.
Variable dep : Z.

Local Abbreviation custo2 := (Etapa2.custo_rota_transporte m dep).

Lemma inverte_2opt_trecho (r : rota) (i j : nat) :
  Etapa2.inverte_2opt r i j = inverte_trecho r (i + 1) (j + 1).
Proof.
  unfold Etapa2.inverte_2opt, inverte_trecho.
  by replace (j + 1 - (i + 1))%nat with (j - i)%nat by lia.
Qed.

Lemma passe_2opt_Some (r nova : rota) :
  Etapa2.passe_2opt m dep r = Some nova →
  nova ≡ₚ r ∧ head nova = head r ∧ custo2 nova < custo2 r.
Proof.
  unfold Etapa2.passe_2opt. intros H.
  apply busca_Some in H as (i & Hi & H). apply elem_of_range in Hi.
  apply busca_Some in H as (j & Hj & H). apply elem_of_range in Hj.
  destruct (_ <? _) eqn:Hlt; [|done]. apply Z.ltb_lt in Hlt. injection H as <-.
  rewrite inverte_2opt_trecho in *. split_and!; [| |done].
  - apply inverte_trecho_perm. lia.
  - apply inverte_trecho_head; lia.
Qed.

Lemma laco_2opt_inv (restantes : nat) :
  ∀ r : rota,
    let r' := Etapa2.laco_2opt m dep restantes r in
    r' ≡ₚ r ∧ head r' = head r ∧ custo2 r' ≤ custo2 r.
Proof.
  induction restantes as [|restantes IH]; intros r; simpl; [by split_and!|].
  destruct (Etapa2.passe_2opt m dep r) as [nova|] eqn:Hp; [|by split_and!].
  apply passe_2opt_Some in Hp as (Hp & Hh & Hc).
  destruct (IH nova) as (Hp' & Hh' & Hc'). split_and!.
  - by rewrite Hp'.
  - congruence.
  - lia.
Qed.

Lemma busca_local_2opt_Forall2 (rotas : list rota) (max_iter : nat) :
  Forall2 (λ r r', r' ≡ₚ r ∧ head r' = head r ∧ custo2 r' ≤ custo2 r
                   ∧ ((length r < 4)%nat → r' = r))
          rotas (Etapa2.busca_local_2opt rotas m dep max_iter).
Proof.
  unfold Etapa2.busca_local_2opt.
  induction rotas as [|r rotas IH]; [constructor|].
  rewrite fmap_cons. constructor; [|done].
  destruct (length r <? 4)%nat eqn:Hlen.
  - by split_and!.
  - apply Nat.ltb_ge in Hlen. destruct (laco_2opt_inv max_iter r) as (? & ? & ?).
    split_and!; [done..|lia].
Qed.

Lemma Forall2_perm_mjoin (P : rota → rota → Prop) (rotas rotas' : list rota) :
  (∀ r r', P r r' → r' ≡ₚ r) →
  Forall2 P rotas rotas' →
  mjoin rotas' ≡ₚ mjoin rotas
  ∧ demandas_reais rotas' = demandas_reais rotas
  ∧ (Forall (λ r, r ≠ []) rotas → Forall (λ r, r ≠ []) rotas').
Proof.
  intros HP. unfold demandas_reais.
  induction 1 as [|r r' rotas rotas' Hr _ (IH1 & IH2 & IH3)]; [done|].
  apply HP in Hr. rewrite !fmap_cons. split_and!.
  - simpl. by rewrite Hr, IH1.
  - rewrite IH2. f_equal. apply soma_perm. by rewrite Hr.
  - intros Hv. apply Forall_cons in Hv as [Hne Hv]. constructor; [|by apply IH3].
    intros ->. by apply Permutation_nil_l in Hr.
Qed.

(** X21: [busca_local_2opt] returns as many routes as it was given, each
    with the services and the first service of the route in its place, at
    a transport cost that is not higher; a route of fewer than four
    services is left as it is. *)
Theorem busca_local_2opt_invariantes (rotas : list rota) (max_iter : nat) :
  let rotas' := Etapa2.busca_local_2opt rotas m dep max_iter in
  Forall2 (λ r r', r' ≡ₚ r ∧ head r' = head r ∧ custo2 r' ≤ custo2 r
                   ∧ ((length r < 4)%nat → r' = r))
          rotas rotas'
  ∧ Etapa2.custo_total rotas' m dep ≤ Etapa2.custo_total rotas m dep.
Proof.
  intros rotas'. pose proof (busca_local_2opt_Forall2 rotas max_iter) as H.
  split; [done|]. fold rotas' in H. clearbody rotas'.
  unfold Etapa2.custo_total. induction H as [|r r' l l' (_ & _ & Hc & _) _ IH]; [done|].
  rewrite !fmap_cons, !soma_cons. lia.
Qed.

End DoisOptEtapa2.

(** ** Swaps between routes *)

Lemma troca_perm {X} (A A' B B' : list X) (a b : X) :
  (A ++ [b] ++ A') ++ (B ++ [a] ++ B') ≡ₚ (A ++ a :: A') ++ (B ++ b :: B').
Proof.
  cbn [app]. rewrite <- !Permutation_middle. cbn [app]. apply Permutation_swap.
Qed.

Section SwapEtapa2.
Variable m : matriz.
Variable cap : Z.
Variable dep : Z.

Lemma passe_swap_Some (rotas rotas' : list rota) :
  Etapa2.passe_swap m cap dep rotas = Some rotas' →
  mjoin rotas' ≡ₚ mjoin rotas
  ∧ length <$> rotas' = length <$> rotas
  ∧ Etapa2.custo_total rotas' m dep < Etapa2.custo_total rotas m dep
  ∧ (dentro_da_capacidade cap rotas → dentro_da_capacidade cap rotas').
Proof.
  unfold Etapa2.passe_swap. intros H.
  apply busca_Some in H as (i & Hi & H). apply elem_of_range in Hi.
  apply busca_Some in H as (j & Hj & H). apply elem_of_range in Hj.
  destruct (rotas !! i) as [rota_a|] eqn:Ha; [|done].
  destruct (rotas !! j) as [rota_b|] eqn:Hb; [|done].
  apply busca_Some in H as ([idx_a serv_a] & Hia & H).
  apply elem_of_lookup_imap in Hia as (? & ? & [= <- <-] & Hia).
  apply busca_Some in H as ([idx_b serv_b] & Hib & H).
  apply elem_of_lookup_imap in Hib as (? & ? & [= <- <-] & Hib).
  destruct (Etapa2.demanda_rota (take idx_a rota_a ++ _) <=? cap) eqn:Hca; [|done].
  destruct (Etapa2.demanda_rota (take idx_b rota_b ++ _) <=? cap) eqn:Hcb; [|done].
  apply Z.leb_le in Hca, Hcb. simpl in H.
  destruct (_ <? _) eqn:Hlt; [|done]. apply Z.ltb_lt in Hlt. injection H as <-.
  replace (idx_a + 1)%nat with (S idx_a) in * by lia.
  replace (idx_b + 1)%nat with (S idx_b) in * by lia.
  split_and!.
  - apply (mjoin_troca rotas i j rota_a rota_b); [lia|done|done|].
    rewrite <- (take_drop_middle rota_a idx_a serv_a) at 3 by done.
    rewrite <- (take_drop_middle rota_b idx_b serv_b) at 3 by done.
    apply troca_perm.
  - rewrite !list_fmap_insert.
    rewrite (list_insert_id (length <$> rotas) i).
    + apply list_insert_id. rewrite list_lookup_fmap, Hb. simpl. f_equal.
      apply lookup_lt_Some in Hib.
      rewrite !length_app, length_take. cbn [length]. rewrite length_drop. lia.
    + rewrite list_lookup_fmap, Ha. simpl. f_equal.
      apply lookup_lt_Some in Hia.
      rewrite !length_app, length_take. cbn [length]. rewrite length_drop. lia.
  - unfold Etapa2.custo_total.
    rewrite (soma_insert _ _ j rota_b) by (rewrite list_lookup_insert_ne by lia; done).
    rewrite (soma_insert _ _ i rota_a) by done. lia.
  - intros Hc. apply dentro_da_capacidade_insert;
      [apply dentro_da_capacidade_insert; [done|]|]; done.
Qed.

Lemma swap_entre_rotas_inv (max_iter : nat) :
  ∀ rotas : list rota,
    let rotas' := Etapa2.swap_entre_rotas rotas m cap dep max_iter in
    mjoin rotas' ≡ₚ mjoin rotas
    ∧ length <$> rotas' = length <$> rotas
    ∧ Etapa2.custo_total rotas' m dep ≤ Etapa2.custo_total rotas m dep
    ∧ (dentro_da_capacidade cap rotas → dentro_da_capacidade cap rotas').
Proof. induction max_iter as [|max_iter IH]; intros rotas; simpl;
    [by split_and!|].
  destruct (Etapa2.passe_swap m cap dep rotas) as [rotas1|] eqn:Hp; [|by split_and!].
  apply passe_swap_Some in Hp as (Hp & Hl & Hc & Hcap).
  destruct (IH rotas1) as (Hp' & Hl' & Hc' & Hcap'). split_and!.
  - by rewrite Hp'.
  - congruence.
  - lia.
  - intros H. by apply Hcap', Hcap.
Qed.

(** X22: [swap_entre_rotas] returns the same services over routes of the
    same lengths, at a total transport cost that is not higher, and routes
    that were within the capacity stay within it. *)
Theorem swap_entre_rotas_invariantes (rotas : list rota) (max_iter : nat) :
  let rotas' := Etapa2.swap_entre_rotas rotas m cap dep max_iter in
  mjoin rotas' ≡ₚ mjoin rotas
  ∧ length <$> rotas' = length <$> rotas
  ∧ Etapa2.custo_total rotas' m dep ≤ Etapa2.custo_total rotas m dep
  ∧ (dentro_da_capacidade cap rotas → dentro_da_capacidade cap rotas').
Proof. apply swap_entre_rotas_inv. Qed.

End SwapEtapa2.

Lemma comprimentos_sem_vazias {A} (l l' : list (list A)) :
  length <$> l' = length <$> l → Forall (λ r, r ≠ []) l → Forall (λ r, r ≠ []) l'.
Proof.
  revert l'. induction l as [|r l IH]; intros [|r' l'] H Hv; try done.
  rewrite !fmap_cons in H. injection H as Hr Hl.
  apply Forall_cons in Hv as [Hne Hv]. constructor; [|by apply IH].
  destruct r', r; done.
Qed.

(** ** GRASP of etapa2 *)

Lemma troca_Permutation {A} (x : list A) (i j : nat) : troca x i j ≡ₚ x.
Proof.
  unfold troca.
  destruct (x !! i) as [x_i|] eqn:Hi; [|done].
  destruct (x !! j) as [x_j|] eqn:Hj; [|done].
  destruct (decide (i = j)) as [->|Hij].
  - rewrite list_insert_insert_eq. rewrite list_insert_id; [done|congruence].
  - rewrite <- (mjoin_singletons (<[j := x_i]> (<[i := x_j]> x))).
    rewrite <- (mjoin_singletons x) at 2. rewrite !list_fmap_insert.
    apply (mjoin_troca _ i j [x_i] [x_j]); [done| | |apply Permutation_swap].
    + by rewrite list_lookup_fmap, Hi.
    + by rewrite list_lookup_fmap, Hj.
Qed.

(** [random.shuffle] returns a rearrangement of the list it was given,
    whatever the generator draws. *)
Lemma shuffle_Permutation {A} (R : prng) (x : list A) (g : estado R) :
  (shuffle R x g).1 ≡ₚ x.
Proof.
  unfold shuffle.
  apply (foldl_inv (λ st : list A * estado R, st.1 ≡ₚ x)); [done|].
  intros [y g1] i Hy _. destruct (sorteia R (i + 1) g1) as [j g2]. simpl in *.
  by rewrite troca_Permutation.
Qed.

Section GraspEtapa2.
Variable R : prng.
Variable servicos : list servico.
Variable dep : Z.
Variable m : matriz.
Variable cap : Z.

Local Abbreviation laco := (Etapa2.grasp_laco R servicos dep m cap).

Lemma solucao_viavel_2opt (rotas : list rota) (max_iter : nat) :
  solucao_viavel servicos cap rotas →
  solucao_viavel servicos cap (Etapa2.busca_local_2opt rotas m dep max_iter).
Proof.
  intros (Hp & Hv & Hc).
  destruct (Forall2_perm_mjoin _ _ _
              (λ r r' H, proj1 H) (busca_local_2opt_Forall2 m dep rotas max_iter))
    as (Hp' & Hd & Hne).
  unfold solucao_viavel. split_and!.
  - by rewrite Hp'.
  - by apply Hne.
  - apply dentro_da_capacidade_reais. rewrite Hd. by apply dentro_da_capacidade_reais.
Qed.

Lemma grasp_laco_Ok (iteracoes : nat) :
  Forall (λ s, demanda s ≤ cap) servicos →
  ∀ (melhor_solucao : option (list rota)) (melhor_custo : num) (g : estado R),
    (∀ rotas, melhor_solucao = Some rotas → solucao_viavel servicos cap rotas) →
    (melhor_solucao = None → melhor_custo = Inf) →
    ∃ sol g',
      laco iteracoes melhor_solucao melhor_custo g = Ok (sol, g')
      ∧ (∀ rotas, sol = Some rotas → solucao_viavel servicos cap rotas)
      ∧ (sol = None → iteracoes = 0%nat).
Proof.
  intros Hd. induction iteracoes as [|iteracoes IH];
    intros melhor_solucao melhor_custo g Hsol Hinf.
  - simpl. by eexists _, _.
  - cbn [Etapa2.grasp_laco].
    pose proof (shuffle_Permutation R servicos g) as Hsh.
    destruct (shuffle R servicos g) as [servicos_random g1]. simpl in Hsh.
    destruct (etapa2_clarke_wright_Ok servicos_random cap dep m) as (rotas & -> & Hp & Hv & Hc).
    { by rewrite Hsh. }
    cbn [mbind res_bind].
    assert (solucao_viavel servicos cap (Etapa2.busca_local_2opt rotas m dep 5)) as Hviavel.
    { apply solucao_viavel_2opt. unfold solucao_viavel. by rewrite Hp, Hsh. }
    destruct (num_ltb _ melhor_custo) eqn:Hlt.
    + destruct (IH (Some (Etapa2.busca_local_2opt rotas m dep 5))
                  (Fin (Etapa2.custo_total (Etapa2.busca_local_2opt rotas m dep 5) m dep))
                  g1) as (sol & g' & Hl & Hs & Hn).
      { by intros ? [= <-]. }
      { done. }
      exists sol, g'. split_and!; [done|done|].
      intros ->. specialize (Hn eq_refl). subst iteracoes. simpl in Hl. done.
    + destruct melhor_solucao as [rotas0|].
      * destruct (IH (Some rotas0) melhor_custo g1) as (sol & g' & Hl & Hs & Hn);
          [done|done|].
        exists sol, g'. split_and!; [done|done|].
        intros ->. specialize (Hn eq_refl). subst iteracoes. simpl in Hl. done.
      * rewrite Hinf in Hlt by done. done.
Qed.

(** X23: [grasp] raises [ValueError] when some demand exceeds the capacity
    and there is an iteration to run, and nothing else; with no iteration
    it returns [None].  Otherwise it returns a feasible solution: every
    service in exactly one route, no empty route, no route above the
    capacity; and [swap_entre_rotas] applied to it, as etapa2 does before
    writing, gives a feasible solution again, at a cost that is not
    higher. *)
Theorem grasp_viavel (max_iter : nat) (g : estado R) :
  match Etapa2.grasp R servicos dep m cap max_iter g with
  | Ok (Some rotas, _) =>
    max_iter ≠ 0%nat
    ∧ Forall (λ s, demanda s ≤ cap) servicos
    ∧ solucao_viavel servicos cap rotas
    ∧ ∀ max_swap,
        let rotas_final := Etapa2.swap_entre_rotas rotas m cap dep max_swap in
        solucao_viavel servicos cap rotas_final
        ∧ Etapa2.custo_total rotas_final m dep ≤ Etapa2.custo_total rotas m dep
  | Ok (None, _) => max_iter = 0%nat
  | Raise e =>
    e = ValueError ∧ max_iter ≠ 0%nat ∧ Exists (λ s, cap < demanda s) servicos
  | OutOfFuel => False
  end.
Proof.
  unfold Etapa2.grasp. destruct max_iter as [|n]; [done|].
  destruct (demandas_dicotomia servicos cap) as [Hd|He].
  - destruct (grasp_laco_Ok (S n) Hd None Inf g) as (sol & g' & -> & Hs & Hn);
      [done|done|].
    destruct sol as [rotas|]; [|by specialize (Hn eq_refl)].
    destruct (Hs rotas eq_refl) as (Hp & Hv & Hc).
    split; [done|]. split; [done|]. split; [done|].
    intros max_swap.
    destruct (swap_entre_rotas_inv m cap dep max_swap rotas) as (Hp' & Hl & Hcusto & Hcap).
    split; [|done].
    unfold solucao_viavel. split_and!.
    + by rewrite Hp'.
    + by apply (comprimentos_sem_vazias rotas).
    + by apply Hcap.
  - cbn [Etapa2.grasp_laco].
    pose proof (shuffle_Permutation R servicos g) as Hsh.
    destruct (shuffle R servicos g) as [servicos_random g1]. simpl in Hsh.
    rewrite etapa2_clarke_wright_Raise by (by rewrite Hsh). by split_and!.
Qed.

End GraspEtapa2.

(** * The reader

    ** The services *)

Lemma insere_ordenado_perm {K V} (leb : K → K → bool) (x : K * V) (l : list (K * V)) :
  Leitor.insere_ordenado leb x l ≡ₚ x :: l.
Proof.
  induction l as [|y l IH]; simpl; [done|].
  destruct (leb _ _); [done|]. rewrite IH. apply Permutation_swap.
Qed.

Lemma sorted_perm {K V} (leb : K → K → bool) (l : list (K * V)) :
  Leitor.sorted leb l ≡ₚ l.
Proof.
  unfold Leitor.sorted. induction l as [|x l IH]; simpl; [done|].
  by rewrite insere_ordenado_perm, IH.
Qed.

(** A [for] that appends one service per element, numbered from [id0]. *)
Lemma numera {X} (f : list servico * Z → X → list servico * Z) (mk : Z → X → servico)
    (l : list X) :
  (∀ servicos id_atual x, f (servicos, id_atual) x = (servicos ++ [mk id_atual x], id_atual + 1)) →
  ∀ servicos id0,
    foldl f (servicos, id0) l
    = (servicos ++ imap (λ i x, mk (id0 + Z.of_nat i) x) l, id0 + Z.of_nat (length l)).
Proof.
  intros Hf. induction l as [|x l IH] using rev_ind; intros servicos id0.
  - simpl. by rewrite app_nil_r, Z.add_0_r.
  - rewrite foldl_snoc, IH, Hf, imap_app, length_app, <- app_assoc. simpl.
    rewrite Nat.add_0_r. f_equal. lia.
Qed.

Lemma extrair_servicos_eq (d : Leitor.dados_leitura) :
  let vs := Leitor.sorted Z.leb (Leitor.vertices_requeridos d) in
  let es := Leitor.sorted Leitor.par_leb (Leitor.arestas_requeridas d) in
  let as_ := Leitor.sorted Leitor.par_leb (Leitor.arcos_requeridos d) in
  Leitor.extrair_servicos d
  = imap (λ i (x : Z * (Z * Z)),
            Servico (1 + Z.of_nat i) vertice x.1 x.1 x.2.1 x.2.2) vs
    ++ imap (λ i (x : Z * Z * (Z * Z * Z)),
               Servico (1 + Z.of_nat (length vs) + Z.of_nat i) aresta
                       x.1.1 x.1.2 x.2.1.2 x.2.2) es
    ++ imap (λ i (x : Z * Z * (Z * Z * Z)),
               Servico (1 + Z.of_nat (length vs) + Z.of_nat (length es) + Z.of_nat i) arco
                       x.1.1 x.1.2 x.2.1.2 x.2.2) as_.
Proof.
  intros vs es as_. unfold Leitor.extrair_servicos. cbn zeta. fold vs es as_.
  rewrite (numera _ (λ id (x : Z * (Z * Z)), Servico id vertice x.1 x.1 x.2.1 x.2.2))
    by (by intros ?? [? [? ?]]).
  rewrite (numera _ (λ id (x : Z * Z * (Z * Z * Z)),
                       Servico id aresta x.1.1 x.1.2 x.2.1.2 x.2.2))
    by (by intros ?? [[? ?] [[? ?] ?]]).
  rewrite (numera _ (λ id (x : Z * Z * (Z * Z * Z)),
                       Servico id arco x.1.1 x.1.2 x.2.1.2 x.2.2))
    by (by intros ?? [[? ?] [[? ?] ?]]).
  simpl. by rewrite <- app_assoc.
Qed.

Lemma ids_numerados {X} (mk : Z → X → servico) (l : list X) (id0 : Z) :
  (∀ id x, id_servico (mk id x) = id) →
  id_servico <$> imap (λ i x, mk (id0 + Z.of_nat i) x) l
  = (λ i : nat, id0 + Z.of_nat i) <$> seq 0 (length l).
Proof.
  intros Hmk. rewrite fmap_imap.
  rewrite (imap_ext _ (λ i _, id0 + Z.of_nat i)) by (intros; apply Hmk).
  apply imap_seq_0.
Qed.

Lemma extrair_servicos_ids (d : Leitor.dados_leitura) :
  id_servico <$> Leitor.extrair_servicos d
  = (λ i : nat, 1 + Z.of_nat i) <$> seq 0 (length (Leitor.extrair_servicos d)).
Proof.
  rewrite extrair_servicos_eq. cbn zeta.
  set (vs := Leitor.sorted Z.leb (Leitor.vertices_requeridos d)).
  set (es := Leitor.sorted Leitor.par_leb (Leitor.arestas_requeridas d)).
  set (as_ := Leitor.sorted Leitor.par_leb (Leitor.arcos_requeridos d)).
  rewrite !length_app, !length_imap, !fmap_app.
  rewrite (ids_numerados (λ id (x : Z * (Z * Z)), Servico id vertice x.1 x.1 x.2.1 x.2.2))
    by done.
  rewrite (ids_numerados (λ id (x : Z * Z * (Z * Z * Z)),
                            Servico id aresta x.1.1 x.1.2 x.2.1.2 x.2.2)) by done.
  rewrite (ids_numerados (λ id (x : Z * Z * (Z * Z * Z)),
                            Servico id arco x.1.1 x.1.2 x.2.1.2 x.2.2)) by done.
  rewrite !seq_app, !fmap_app. cbn [Nat.add]. f_equal. f_equal.
  - replace (seq (length vs) (length es))
      with (Nat.add (length vs) <$> seq 0 (length es))
      by (rewrite fmap_add_seq; f_equal; lia).
    rewrite <- list_fmap_compose.
    apply list_fmap_ext. intros i x _. simpl. lia.
  - replace (seq (length vs + length es) (length as_))
      with (Nat.add (length vs + length es) <$> seq 0 (length as_))
      by (rewrite fmap_add_seq; f_equal; lia).
    rewrite <- list_fmap_compose.
    apply list_fmap_ext. intros i x _. simpl. lia.
Qed.

Lemma extrair_servicos_sem_repetidos (d : Leitor.dados_leitura) :
  NoDup (id_servico <$> Leitor.extrair_servicos d).
Proof.
  rewrite extrair_servicos_ids. apply NoDup_fmap_2; [|apply NoDup_seq].
  intros a b ?. lia.
Qed.

(** X24: [extrair_servicos] numbers the services 1, 2, ... in the order it
    returns them, so no id is repeated; it returns one service for every
    required vertex, edge and arc, with its ends, demand and service cost,
    and a vertex service starts and ends at its vertex. *)
Theorem extrair_servicos_numerados (d : Leitor.dados_leitura) :
  let servicos := Leitor.extrair_servicos d in
  id_servico <$> servicos = (λ i : nat, 1 + Z.of_nat i) <$> seq 0 (length servicos)
  ∧ NoDup (id_servico <$> servicos)
  ∧ conteudo <$> servicos ≡ₚ requeridos d
  ∧ Forall (λ s, tipo s = vertice → origem s = destino s) servicos.
Proof.
  intros servicos. subst servicos.
  split; [apply extrair_servicos_ids|]. split; [apply extrair_servicos_sem_repetidos|].
  rewrite extrair_servicos_eq. cbn zeta.
  set (vs := Leitor.sorted Z.leb (Leitor.vertices_requeridos d)).
  set (es := Leitor.sorted Leitor.par_leb (Leitor.arestas_requeridas d)).
  set (as_ := Leitor.sorted Leitor.par_leb (Leitor.arcos_requeridos d)).
  split.
  - unfold requeridos. rewrite !fmap_app, !fmap_imap.
    rewrite <- (sorted_perm Z.leb (Leitor.vertices_requeridos d)).
    rewrite <- (sorted_perm Leitor.par_leb (Leitor.arestas_requeridas d)).
    rewrite <- (sorted_perm Leitor.par_leb (Leitor.arcos_requeridos d)).
    fold vs es as_.
    rewrite <- !imap_const. unfold const, conteudo, compose. simpl. done.
  - rewrite !Forall_app. split_and!; apply Forall_forall; intros s Hs;
      apply elem_of_lookup_imap in Hs as (i & x & -> & _); simpl; done.
Qed.

(** ** The distance matrix *)

Lemma num_le_refl (a : num) : num_le a a.
Proof. destruct a; simpl; [lia|done]. Qed.

Lemma num_le_trans (a b c : num) : num_le a b → num_le b c → num_le a c.
Proof. destruct a, b, c; simpl; try done; lia. Qed.

Lemma num_add_mono (a a' b b' : num) :
  num_le a a' → num_le b b' → num_le (Leitor.num_add a b) (Leitor.num_add a' b').
Proof. destruct a, a', b, b'; simpl; try done; lia. Qed.

Lemma num_add_0_r (a : num) : Leitor.num_add a (Fin 0) = a.
Proof. destruct a; simpl; [f_equal; lia|done]. Qed.

Lemma num_add_assoc (a b c : num) :
  Leitor.num_add a (Leitor.num_add b c) = Leitor.num_add (Leitor.num_add a b) c.
Proof. destruct a, b, c; simpl; try done. f_equal. lia. Qed.

Lemma num_add_nonneg (a b : num) :
  num_le (Fin 0) a → num_le (Fin 0) b → num_le (Fin 0) (Leitor.num_add a b).
Proof. destruct a, b; simpl; try done; lia. Qed.

Lemma num_gtb_false (a b : num) : Leitor.num_gtb a b = false ↔ num_le a b.
Proof.
  destruct a as [x|], b as [y|]; simpl; split; try done.
  - intros H%Z.ltb_ge. lia.
  - intros H. apply Z.ltb_ge. lia.
Qed.

Lemma num_gtb_true (a b : num) : Leitor.num_gtb a b = true → num_le b a.
Proof. destruct a, b; simpl; try done. intros H%Z.ltb_lt. lia. Qed.

Lemma num_gtb_soma_r (x y : num) :
  num_le (Fin 0) y → Leitor.num_gtb x (Leitor.num_add x y) = false.
Proof. intros Hy. apply num_gtb_false. destruct x, y; simpl in *; try done; lia. Qed.

Lemma num_gtb_soma_l (x y : num) :
  num_le (Fin 0) y → Leitor.num_gtb x (Leitor.num_add y x) = false.
Proof. intros Hy. apply num_gtb_false. destruct x, y; simpl in *; try done; lia. Qed.

Lemma comprimento_app (d : Leitor.dicionario) (k : Z) (vs1 vs2 : list Z) :
  ∀ i, comprimento d i ((vs1 ++ [k]) ++ vs2)
       = Leitor.num_add (comprimento d i (vs1 ++ [k])) (comprimento d k vs2).
Proof.
  induction vs1 as [|v vs1 IH]; intros i; simpl.
  - by rewrite num_add_0_r.
  - by rewrite IH, num_add_assoc.
Qed.

(** *** Reading and writing the dictionary *)

Lemma le_entrada (d : Leitor.dicionario) (i j : Z) (x : num) :
  Leitor.le d i j = Leitor.Valor x → entrada d i j = x.
Proof. unfold entrada. by intros ->. Qed.

Lemma tabela_le (vertices : list Z) (d : Leitor.dicionario) (i j : Z) :
  tabela vertices d → i ∈ vertices → j ∈ vertices →
  Leitor.le d i j = Leitor.Valor (entrada d i j).
Proof.
  intros [Hl Hc] Hi Hj. unfold entrada, Leitor.le.
  destruct (proj2 (Hl i) Hi) as [linha Hlinha]. rewrite Hlinha.
  destruct (Hc i linha j Hlinha Hj) as [x Hx]. by rewrite Hx.
Qed.

Lemma grava_Valor (vertices : list Z) (d : Leitor.dicionario) (i j : Z) (x : num) :
  tabela vertices d → i ∈ vertices →
  ∃ d', Leitor.grava d i j x = Leitor.Valor d'
        ∧ tabela vertices d'
        ∧ ∀ a b, entrada d' a b = if decide (a = i ∧ b = j) then x else entrada d a b.
Proof.
  intros [Hl Hc] Hi. unfold Leitor.grava.
  destruct (proj2 (Hl i) Hi) as [linha Hlinha]. rewrite Hlinha.
  eexists. split; [done|]. split; [split|].
  - intros a. rewrite lookup_insert_is_Some'. split.
    + intros [<-|Ha]; [done|by apply Hl].
    + intros Ha. right. by apply Hl.
  - intros a linha' b Ha Hb. apply lookup_insert_Some in Ha as [[<- <-]|[Hne Ha]].
    + apply lookup_insert_is_Some'. right. by apply (Hc i).
    + by apply (Hc a).
  - intros a b. unfold entrada, Leitor.le. rewrite lookup_insert.
    destruct (decide (i = a)) as [<-|Hne].
    + rewrite lookup_insert, Hlinha.
      destruct (decide (j = b)) as [<-|Hne].
      * by rewrite decide_True.
      * rewrite decide_False; [done|]. intros [_ ->]. done.
    + rewrite decide_False; [done|]. intros [-> _]. done.
Qed.

Lemma grava_KeyError (vertices : list Z) (d : Leitor.dicionario) (i j : Z) (x : num) :
  tabela vertices d → i ∉ vertices → Leitor.grava d i j x = Leitor.KeyError i.
Proof.
  intros [Hl _] Hi. unfold Leitor.grava.
  destruct (d !! i) as [linha|] eqn:Hlinha; [|done].
  destruct Hi. apply Hl. by eexists.
Qed.

(** *** Loops over the dictionary *)

Lemma percorre_caso {A S} (P : S → Prop) (bom : A → Prop) (ruim : A → Z → Prop)
    (f : S → A → Leitor.acesso S) (l : list A) :
  (∀ s a, P s → a ∈ l →
          match f s a with
          | Leitor.Valor s' => P s' ∧ bom a
          | Leitor.KeyError x => ruim a x
          end) →
  ∀ s, P s →
       match Leitor.percorre f s l with
       | Leitor.Valor s' => P s' ∧ Forall bom l
       | Leitor.KeyError x => Exists (λ a, ruim a x) l
       end.
Proof.
  induction l as [|a l IH]; intros Hf s Hs; simpl; [by split|].
  pose proof (Hf s a Hs ltac:(left)) as Ha.
  destruct (f s a) as [s1|x]; simpl.
  - destruct Ha as [Hs1 Hbom].
    specialize (IH (λ s a Hs Hin, Hf s a Hs ltac:(by right)) s1 Hs1).
    destruct (Leitor.percorre f s1 l) as [s2|x].
    + destruct IH. split; [done|by constructor].
    + by apply Exists_cons_tl.
  - by apply Exists_cons_hd.
Qed.

Lemma percorre_prefixo {A S} (P : list A → S → Prop) (f : S → A → Leitor.acesso S)
    (l : list A) :
  (∀ pre a s, P pre s → a ∈ l → ∃ s', f s a = Leitor.Valor s' ∧ P (pre ++ [a]) s') →
  ∀ s, P [] s → ∃ s', Leitor.percorre f s l = Leitor.Valor s' ∧ P l s'.
Proof.
  intros Hf.
  enough (∀ l2 l1 s, l = l1 ++ l2 → P l1 s →
                     ∃ s', Leitor.percorre f s l2 = Leitor.Valor s' ∧ P l s') as H.
  { intros s Hs. by apply (H l []). }
  induction l2 as [|a l2 IH]; intros l1 s Hl Hs.
  - rewrite app_nil_r in Hl. subst. by exists s.
  - simpl. destruct (Hf l1 a s Hs) as (s1 & -> & Hs1).
    { rewrite Hl. apply elem_of_app. right. left. }
    simpl. apply (IH (l1 ++ [a])); [|done]. by rewrite <- app_assoc.
Qed.

(** *** One pass of Floyd-Warshall *)

Section Fase.
Variable vertices : list Z.
Variable d0 : Leitor.dicionario.
Variable k : Z.
Variable d : Leitor.dicionario.
Hypothesis k_vertice : k ∈ vertices.
Hypothesis d_kk : num_le (Fin 0) (entrada d k k).

Local Abbreviation fase_k := (fase vertices d0 k d).

Lemma fase_enfraquece (q q' : Z → Z → Prop) (d_t : Leitor.dicionario) :
  (∀ a b, q' a b → q a b) → fase_k q d_t → fase_k q' d_t.
Proof.
  intros Hq (H1 & H2 & H3 & H4 & H5 & H6 & H7). unfold fase. split_and!; try done.
  intros a b Hab. by apply H7, Hq.
Qed.

Lemma relaxa_fase (q : Z → Z → Prop) (d_t : Leitor.dicionario) (i j : Z) :
  fase_k q d_t → i ∈ vertices → j ∈ vertices →
  ∃ d', Leitor.relaxa k i d_t j = Leitor.Valor d'
        ∧ fase_k (λ a b, q a b ∨ (a = i ∧ b = j)) d'.
Proof.
  intros (Ht & Hn & Hr & Hm & Hck & Hrk & Hq) Hi Hj. unfold Leitor.relaxa.
  rewrite (tabela_le vertices d_t i j), (tabela_le vertices d_t i k),
    (tabela_le vertices d_t k j) by done.
  cbn [mbind Leitor.acesso_bind].
  destruct (Leitor.num_gtb _ _) eqn:Hgt.
  - destruct (grava_Valor vertices d_t i j
                (Leitor.num_add (entrada d_t i k) (entrada d_t k j)) Ht Hi)
      as (d' & -> & Ht' & He).
    exists d'. split; [done|].
    assert (j ≠ k) as Hjk.
    { intros ->. rewrite num_gtb_soma_r in Hgt; [done|].
      rewrite Hrk. done. }
    assert (i ≠ k) as Hik.
    { intros ->. rewrite num_gtb_soma_l in Hgt; [done|].
      rewrite Hrk. done. }
    apply num_gtb_true in Hgt.
    unfold fase. split_and!; try done.
    + intros a b. rewrite He. case_decide; [|apply Hn].
      apply num_add_nonneg; apply Hn.
    + intros a b Ha Hb. rewrite He. case_decide as Hab; [|by apply Hr].
      destruct Hab as [-> ->].
      destruct (Hr i k Hi k_vertice) as (vs1 & Hvs1 & ->).
      destruct (Hr k j k_vertice Hj) as (vs2 & Hvs2 & ->).
      exists (vs1 ++ k :: vs2). split.
      * apply Forall_app. split; [done|]. by constructor.
      * rewrite <- comprimento_app. f_equal. by rewrite <- !app_assoc.
    + intros a b. rewrite He. case_decide as Hab; [|apply Hm].
      destruct Hab as [-> ->]. eapply num_le_trans; [exact Hgt|apply Hm].
    + intros a. rewrite He. rewrite decide_False; [apply Hck|]. intros [_ ?]. done.
    + intros b. rewrite He. rewrite decide_False; [apply Hrk|]. intros [? _]. done.
    + intros a b Hab. rewrite He. case_decide as Hij.
      * destruct Hij as [-> ->]. rewrite <- Hck, <- Hrk. apply num_le_refl.
      * destruct Hab as [Hab|Hab]; [by apply Hq|done].
  - exists d_t. split; [done|]. apply num_gtb_false in Hgt.
    unfold fase. split_and!; try done.
    intros a b [Hab|[-> ->]]; [by apply Hq|].
    rewrite <- Hck, <- Hrk. done.
Qed.

Lemma linha_fase (q : Z → Z → Prop) (d_t : Leitor.dicionario) (i : Z) :
  fase_k q d_t → i ∈ vertices →
  ∃ d', Leitor.percorre (Leitor.relaxa k i) d_t vertices = Leitor.Valor d'
        ∧ fase_k (λ a b, q a b ∨ (a = i ∧ b ∈ vertices)) d'.
Proof.
  intros Hf Hi.
  apply (percorre_prefixo (λ pre d_t, fase_k (λ a b, q a b ∨ (a = i ∧ b ∈ pre)) d_t)).
  - intros pre j d1 H1 Hj. destruct (relaxa_fase _ d1 i j H1 Hi Hj) as (d2 & -> & H2).
    exists d2. split; [done|]. eapply fase_enfraquece; [|exact H2].
    intros a b [Hq|[-> Hb]]; [by left; left|].
    apply elem_of_app in Hb as [Hb|Hb%list_elem_of_singleton]; [left; right|right]; done.
  - eapply fase_enfraquece; [|exact Hf].
    intros a b [Hq|[_ Hb]]; [done|]. by apply elem_of_nil in Hb.
Qed.

Lemma passe_fase :
  fase_k (λ _ _, False) d →
  ∃ d', Leitor.percorre (λ d i, Leitor.percorre (Leitor.relaxa k i) d vertices) d vertices
        = Leitor.Valor d'
        ∧ fase_k (λ a b, a ∈ vertices ∧ b ∈ vertices) d'.
Proof.
  intros Hf.
  apply (percorre_prefixo (λ pre d_t, fase_k (λ a b, a ∈ pre ∧ b ∈ vertices) d_t)).
  - intros pre i d1 H1 Hi. destruct (linha_fase _ d1 i H1 Hi) as (d2 & -> & H2).
    exists d2. split; [done|]. eapply fase_enfraquece; [|exact H2].
    intros a b [Ha Hb].
    apply elem_of_app in Ha as [Ha|Ha%list_elem_of_singleton]; [left|right]; done.
  - eapply fase_enfraquece; [|exact Hf]. intros a b [Ha _]. by apply elem_of_nil in Ha.
Qed.

End Fase.

Lemma fase_inicial (vertices : list Z) (d0 : Leitor.dicionario) (ks : list Z) (k : Z)
    (d : Leitor.dicionario) :
  apos_fases vertices d0 ks d → fase vertices d0 k d (λ _ _, False) d.
Proof.
  intros (Ht & Hn & Hr & _). unfold fase. split_and!; try done.
  intros a b. apply num_le_refl.
Qed.

Lemma apos_fases_passo (vertices : list Z) (d0 : Leitor.dicionario) (ks : list Z) (k : Z)
    (d d' : Leitor.dicionario) :
  k ∈ vertices →
  apos_fases vertices d0 ks d →
  fase vertices d0 k d (λ a b, a ∈ vertices ∧ b ∈ vertices) d' →
  apos_fases vertices d0 (ks ++ [k]) d'.
Proof.
  intros Hk (_ & _ & _ & Hmin) (Ht & Hn & Hr & Hm & Hck & Hrk & Hq).
  unfold apos_fases. split_and!; try done.
  intros a b vs Ha Hb. remember (length vs) as n eqn:Hlen.
  revert a vs Ha Hlen. induction (lt_wf n) as [n _ IH]. intros a vs Ha -> Hvs.
  destruct (decide (k ∈ vs)) as [Hin|Hnin].
  - apply list_elem_of_split_l in Hin as (l1 & l2 & -> & Hl1).
    apply Forall_app in Hvs as [Hvs1 Hvs2]. apply Forall_cons in Hvs2 as [_ Hvs2].
    replace ((l1 ++ k :: l2) ++ [b]) with ((l1 ++ [k]) ++ (l2 ++ [b]))
      by (by rewrite <- !app_assoc).
    rewrite comprimento_app.
    eapply num_le_trans; [apply Hq; by split|].
    apply num_add_mono.
    + apply Hmin; [done|done|].
      apply Forall_forall. intros v Hv. rewrite Forall_forall in Hvs1.
      specialize (Hvs1 v Hv).
      apply elem_of_app in Hvs1 as [?|Hvk%list_elem_of_singleton]; [done|].
      subst v. done.
    + rewrite <- Hrk. apply (IH (length l2)); [|done|done|done].
      rewrite length_app. simpl. lia.
  - eapply num_le_trans; [apply Hm|]. apply Hmin; [done|done|].
    apply Forall_forall. intros v Hv. rewrite Forall_forall in Hvs.
    specialize (Hvs v Hv).
    apply elem_of_app in Hvs as [?|Hvk%list_elem_of_singleton]; [done|].
    subst v. done.
Qed.

(** The three loops return and leave the shortest walks. *)
Lemma floyd_warshall_apos_fases (vertices : list Z) (d0 : Leitor.dicionario) :
  tabela vertices d0 → sem_negativos d0 →
  ∃ d, Leitor.floyd_warshall vertices d0 = Leitor.Valor d
       ∧ apos_fases vertices d0 vertices d.
Proof.
  intros Ht Hn. unfold Leitor.floyd_warshall.
  apply (percorre_prefixo (λ ks d, apos_fases vertices d0 ks d)).
  - intros ks k d Hd Hk.
    destruct (passe_fase vertices d0 k d Hk) as (d' & -> & Hd').
    { destruct Hd as (_ & Hnn & _). apply Hnn. }
    { by eapply fase_inicial. }
    exists d'. split; [done|]. by eapply apos_fases_passo.
  - unfold apos_fases. split_and!; try done.
    + intros a b Ha Hb. exists []. split; [done|]. simpl. by rewrite num_add_0_r.
    + intros a b vs Ha Hb Hvs. destruct vs as [|v vs].
      * simpl. rewrite num_add_0_r. apply num_le_refl.
      * apply Forall_cons in Hvs as [Hv _]. by apply elem_of_nil in Hv.
Qed.

(** *** The dictionary before the loops *)

Lemma tabela_inicial (vertices : list Z) :
  let linha : gmap Z num := list_to_map ((λ u, (u, Inf)) <$> vertices) in
  let distancias : Leitor.dicionario := list_to_map ((λ v, (v, linha)) <$> vertices) in
  tabela vertices distancias ∧ sem_negativos distancias.
Proof.
  intros linha distancias.
  assert (∀ (X : Type) (x : X) (i : Z),
            is_Some ((list_to_map ((λ v, (v, x)) <$> vertices) : gmap Z X) !! i)
            ↔ i ∈ vertices) as Hdom.
  { intros X x i. split.
    - intros [y Hy]. apply elem_of_list_to_map_2 in Hy.
      apply list_elem_of_fmap in Hy as (v & [= -> _] & Hv). done.
    - intros Hi. apply not_eq_None_Some. intros Hn.
      apply not_elem_of_list_to_map_2 in Hn. apply Hn.
      rewrite <- list_fmap_compose. apply list_elem_of_fmap. by exists i. }
  assert (∀ (X : Type) (x y : X) (i : Z),
            (list_to_map ((λ v, (v, x)) <$> vertices) : gmap Z X) !! i = Some y → y = x)
    as Hval.
  { intros X x y i Hy. apply elem_of_list_to_map_2 in Hy.
    by apply list_elem_of_fmap in Hy as (v & [= _ ->] & Hv). }
  split; [split|].
  - intros i. apply Hdom.
  - intros i l j Hl Hj. apply Hval in Hl as ->. by apply Hdom.
  - intros a b. unfold entrada, Leitor.le.
    destruct (distancias !! a) as [l|] eqn:Hl; [|done].
    apply Hval in Hl as ->.
    destruct (linha !! b) as [x|] eqn:Hx; [|done]. by apply Hval in Hx as ->.
Qed.

Section Diretas.
Variable vertices : list Z.
Variable arestas arcos : list ((Z * Z) * Z).

Local Abbreviation escrita_ := (escrita vertices arestas arcos).

Lemma grava_escrita (d : Leitor.dicionario) (i j c : Z) :
  escrita_ d →
  (Forall (λ e : Z * Z * Z, 0 ≤ e.2) arestas →
   Forall (λ a : Z * Z * Z, 0 ≤ a.2) arcos → 0 ≤ c) →
  match Leitor.grava d i j (Fin c) with
  | Leitor.Valor d' => escrita_ d' ∧ i ∈ vertices
  | Leitor.KeyError x => x = i ∧ i ∉ vertices
  end.
Proof.
  intros [Ht Hn] Hc. destruct (decide (i ∈ vertices)) as [Hi|Hi].
  - destruct (grava_Valor vertices d i j (Fin c) Ht Hi) as (d' & -> & Ht' & He).
    split; [|done]. split; [done|].
    intros HE HA a b. rewrite He. case_decide; [by apply Hc|by apply Hn].
  - by rewrite (grava_KeyError vertices d i j (Fin c) Ht Hi).
Qed.

Lemma diagonal_escrita (d : Leitor.dicionario) :
  escrita_ d →
  ∃ d', Leitor.percorre (λ d v, Leitor.grava d v v (Fin 0)) d vertices = Leitor.Valor d'
        ∧ escrita_ d'.
Proof.
  intros Hd. apply (percorre_prefixo (λ _ d, escrita_ d)); [|done].
  intros _ v d1 H1 Hv. pose proof (grava_escrita d1 v v 0 H1 ltac:(done)) as Hg.
  destruct (Leitor.grava d1 v v (Fin 0)) as [d2|x].
  - exists d2. by destruct Hg.
  - by destruct Hg.
Qed.

Lemma arestas_escrita (d : Leitor.dicionario) :
  escrita_ d →
  match Leitor.percorre (λ d '((u, v), custo),
                           d ← Leitor.grava d u v (Fin custo);
                           Leitor.grava d v u (Fin custo)) d arestas with
  | Leitor.Valor d' =>
    escrita_ d' ∧ Forall (λ e : Z * Z * Z, e.1.1 ∈ vertices ∧ e.1.2 ∈ vertices) arestas
  | Leitor.KeyError x =>
    Exists (λ e : Z * Z * Z, (x ∉ vertices) ∧ (e.1.1 = x ∨ e.1.2 = x)) arestas
  end.
Proof.
  intros Hd. apply (percorre_caso (λ d, escrita_ d)); [|done].
  intros d1 [[u v] c] H1 Hin.
  assert (Forall (λ e : Z * Z * Z, 0 ≤ e.2) arestas →
          Forall (λ a : Z * Z * Z, 0 ≤ a.2) arcos → 0 ≤ c) as Hc.
  { intros HE _. rewrite Forall_forall in HE. by apply (HE (u, v, c)). }
  pose proof (grava_escrita d1 u v c H1 Hc) as Hg.
  destruct (Leitor.grava d1 u v (Fin c)) as [d2|x]; cbn [mbind Leitor.acesso_bind].
  - destruct Hg as [H2 Hu].
    pose proof (grava_escrita d2 v u c H2 Hc) as Hg'.
    destruct (Leitor.grava d2 v u (Fin c)) as [d3|x].
    + destruct Hg'. by split.
    + destruct Hg' as [-> Hv]. simpl. split; [done|by right].
  - destruct Hg as [-> Hu]. simpl. split; [done|by left].
Qed.

Lemma arcos_escrita (d : Leitor.dicionario) :
  escrita_ d →
  match Leitor.percorre (λ d '((u, v), custo), Leitor.grava d u v (Fin custo)) d arcos with
  | Leitor.Valor d' =>
    escrita_ d' ∧ Forall (λ a : Z * Z * Z, a.1.1 ∈ vertices) arcos
  | Leitor.KeyError x =>
    Exists (λ a : Z * Z * Z, (x ∉ vertices) ∧ a.1.1 = x) arcos
  end.
Proof.
  intros Hd. apply (percorre_caso (λ d, escrita_ d)); [|done].
  intros d1 [[u v] c] H1 Hin.
  assert (Forall (λ e : Z * Z * Z, 0 ≤ e.2) arestas →
          Forall (λ a : Z * Z * Z, 0 ≤ a.2) arcos → 0 ≤ c) as Hc.
  { intros _ HA. rewrite Forall_forall in HA. by apply (HA (u, v, c)). }
  pose proof (grava_escrita d1 u v c H1 Hc) as Hg.
  destruct (Leitor.grava d1 u v (Fin c)) as [d2|x].
  - done.
  - destruct Hg as [-> Hu]. done.
Qed.

Lemma Exists_fora {X} (P : Prop) (Q : X → Prop) (l : list X) :
  Exists (λ x, P ∧ Q x) l → P ∧ Exists Q l.
Proof.
  intros (x & Hx & HP & HQ)%Exists_exists. split; [done|].
  apply Exists_exists. eauto.
Qed.

Lemma distancias_diretas_caso :
  match Leitor.distancias_diretas vertices arestas arcos with
  | Leitor.Valor d0 =>
    escrita_ d0
    ∧ Forall (λ e : Z * Z * Z, e.1.1 ∈ vertices ∧ e.1.2 ∈ vertices) arestas
    ∧ Forall (λ a : Z * Z * Z, a.1.1 ∈ vertices) arcos
  | Leitor.KeyError x =>
    (x ∉ vertices)
    ∧ (Exists (λ e : Z * Z * Z, e.1.1 = x ∨ e.1.2 = x) arestas
       ∨ Exists (λ a : Z * Z * Z, a.1.1 = x) arcos)
  end.
Proof.
  unfold Leitor.distancias_diretas. cbn zeta.
  pose proof (tabela_inicial vertices) as [Ht0 Hn0]. cbn zeta in Ht0, Hn0.
  match goal with |- context [Leitor.percorre _ ?s vertices] =>
    destruct (diagonal_escrita s) as (d1 & E1 & H1); [by split|] end.
  rewrite E1. cbn [mbind Leitor.acesso_bind].
  pose proof (arestas_escrita d1 H1) as H2.
  destruct (Leitor.percorre _ d1 arestas) as [d2|x]; cbn [mbind Leitor.acesso_bind].
  - destruct H2 as [H2 HE]. pose proof (arcos_escrita d2 H2) as H3.
    destruct (Leitor.percorre _ d2 arcos) as [d3|x].
    + destruct H3. by split_and!.
    + apply Exists_fora in H3 as [Hx H3]. split; [done|by right].
  - apply Exists_fora in H2 as [Hx H2]. split; [done|by left].
Qed.

End Diretas.

Lemma relaxa_tabela (vertices : list Z) (d : Leitor.dicionario) (k i j : Z) :
  tabela vertices d → k ∈ vertices → i ∈ vertices → j ∈ vertices →
  ∃ d', Leitor.relaxa k i d j = Leitor.Valor d' ∧ tabela vertices d'.
Proof.
  intros Ht Hk Hi Hj. unfold Leitor.relaxa.
  rewrite (tabela_le vertices d i j), (tabela_le vertices d i k),
    (tabela_le vertices d k j) by done.
  cbn [mbind Leitor.acesso_bind].
  destruct (Leitor.num_gtb _ _); [|by exists d].
  destruct (grava_Valor vertices d i j
              (Leitor.num_add (entrada d i k) (entrada d k j)) Ht Hi)
    as (d' & -> & Ht' & _).
  by exists d'.
Qed.

Lemma floyd_warshall_tabela (vertices : list Z) (d : Leitor.dicionario) :
  tabela vertices d →
  ∃ d', Leitor.floyd_warshall vertices d = Leitor.Valor d' ∧ tabela vertices d'.
Proof.
  intros Ht. unfold Leitor.floyd_warshall.
  apply (percorre_prefixo (λ _ d, tabela vertices d)); [|done].
  intros _ k d1 H1 Hk.
  apply (percorre_prefixo (λ _ d, tabela vertices d)); [|done].
  intros _ i d2 H2 Hi.
  apply (percorre_prefixo (λ _ d, tabela vertices d)); [|done].
  intros _ j d3 H3 Hj. by apply relaxa_tabela.
Qed.

(** X25: [criar_matriz_distancias] raises [KeyError] exactly when an end
    of an edge or the origin of an arc is not among the vertices, with
    that vertex as the missing key; otherwise it returns a dictionary with
    a row for each vertex and, in every row, an entry for each vertex. *)
Theorem criar_matriz_distancias_chaves (vertices : list Z)
    (arestas arcos : list ((Z * Z) * Z)) :
  match Leitor.criar_matriz_distancias vertices arestas arcos with
  | Leitor.Valor d =>
    Forall (λ e : Z * Z * Z, e.1.1 ∈ vertices ∧ e.1.2 ∈ vertices) arestas
    ∧ Forall (λ a : Z * Z * Z, a.1.1 ∈ vertices) arcos
    ∧ tabela vertices d
  | Leitor.KeyError x =>
    (x ∉ vertices)
    ∧ (Exists (λ e : Z * Z * Z, e.1.1 = x ∨ e.1.2 = x) arestas
       ∨ Exists (λ a : Z * Z * Z, a.1.1 = x) arcos)
  end.
Proof.
  unfold Leitor.criar_matriz_distancias.
  pose proof (distancias_diretas_caso vertices arestas arcos) as H0.
  destruct (Leitor.distancias_diretas vertices arestas arcos) as [d0|x];
    cbn [mbind Leitor.acesso_bind]; [|done].
  destruct H0 as ([Ht _] & HE & HA).
  destruct (floyd_warshall_tabela vertices d0 Ht) as (d & -> & Hd). done.
Qed.

Section Minimos.
Variable vertices : list Z.
Variable arestas arcos : list ((Z * Z) * Z).
Variable d0 d : Leitor.dicionario.
Hypothesis arestas_nao_negativas : Forall (λ e : Z * Z * Z, 0 ≤ e.2) arestas.
Hypothesis arcos_nao_negativos : Forall (λ a : Z * Z * Z, 0 ≤ a.2) arcos.
Hypothesis diretas : Leitor.distancias_diretas vertices arestas arcos = Leitor.Valor d0.
Hypothesis matriz_final :
  Leitor.criar_matriz_distancias vertices arestas arcos = Leitor.Valor d.

Lemma criar_matriz_distancias_apos_fases : apos_fases vertices d0 vertices d.
Proof.
  pose proof (distancias_diretas_caso vertices arestas arcos) as H0.
  unfold Leitor.criar_matriz_distancias in matriz_final.
  rewrite diretas in H0, matriz_final. cbn [mbind Leitor.acesso_bind] in matriz_final.
  destruct H0 as ([Ht Hn] & _ & _).
  destruct (floyd_warshall_apos_fases vertices d0 Ht) as (d' & Hd' & Hfim).
  { by apply Hn. }
  congruence.
Qed.

(** X26: with no negative cost, the entry for two vertices is the length
    of a shortest walk from the first to the second by the direct
    distances: it exceeds the length of no walk through the vertices, and
    it is the length of one of them. *)
Theorem criar_matriz_distancias_minimos (i j : Z) :
  i ∈ vertices → j ∈ vertices →
  (∀ vs, Forall (λ v, v ∈ vertices) vs →
         num_le (entrada d i j) (comprimento d0 i (vs ++ [j])))
  ∧ ∃ vs, Forall (λ v, v ∈ vertices) vs
          ∧ entrada d i j = comprimento d0 i (vs ++ [j]).
Proof.
  intros Hi Hj. destruct criar_matriz_distancias_apos_fases as (_ & _ & Hr & Hmin).
  split; [|by apply Hr]. intros vs Hvs. by apply Hmin.
Qed.

(** X27: with no negative cost, the matrix has no negative entry, no entry
    between two vertices is longer than the direct distance, and going
    through a third vertex is never shorter:
    [d[i][j] <= d[i][k] + d[k][j]]. *)
Theorem criar_matriz_distancias_triangular (i j k : Z) :
  i ∈ vertices → j ∈ vertices → k ∈ vertices →
  num_le (Fin 0) (entrada d i j)
  ∧ num_le (entrada d i j) (entrada d0 i j)
  ∧ num_le (entrada d i j) (Leitor.num_add (entrada d i k) (entrada d k j)).
Proof.
  intros Hi Hj Hk. destruct criar_matriz_distancias_apos_fases as (_ & Hn & Hr & Hmin).
  split_and!.
  - apply Hn.
  - specialize (Hmin i j [] Hi Hj ltac:(done)). simpl in Hmin.
    by rewrite num_add_0_r in Hmin.
  - destruct (Hr i k Hi Hk) as (vs1 & Hvs1 & ->).
    destruct (Hr k j Hk Hj) as (vs2 & Hvs2 & ->).
    rewrite <- comprimento_app.
    replace ((vs1 ++ [k]) ++ vs2 ++ [j]) with ((vs1 ++ k :: vs2) ++ [j])
      by (by rewrite <- !app_assoc).
    apply Hmin; [done|done|]. apply Forall_app. split; [done|]. by constructor.
Qed.

End Minimos.

Lemma criar_matriz_distancias_minimos_witness :
  (∀ vs, Forall (λ v, v ∈ vertices_exemplo) vs →
         num_le (entrada matriz_exemplo 1 3) (comprimento diretas_exemplo 1 (vs ++ [3])))
  ∧ ∃ vs, Forall (λ v, v ∈ vertices_exemplo) vs
          ∧ entrada matriz_exemplo 1 3 = comprimento diretas_exemplo 1 (vs ++ [3]).
Proof.
  apply (criar_matriz_distancias_minimos vertices_exemplo arestas_exemplo arcos_exemplo
           diretas_exemplo matriz_exemplo).
  - repeat constructor; simpl; lia.
  - repeat constructor; simpl; lia.
  - vm_compute. reflexivity.
  - vm_compute. reflexivity.
  - repeat constructor.
  - repeat constructor.
Defined.

Lemma criar_matriz_distancias_triangular_witness :
  num_le (Fin 0) (entrada matriz_exemplo 1 3)
  ∧ num_le (entrada matriz_exemplo 1 3) (entrada diretas_exemplo 1 3)
  ∧ num_le (entrada matriz_exemplo 1 3)
           (Leitor.num_add (entrada matriz_exemplo 1 2) (entrada matriz_exemplo 2 3)).
Proof.
  apply (criar_matriz_distancias_triangular vertices_exemplo arestas_exemplo arcos_exemplo
           diretas_exemplo matriz_exemplo).
  - repeat constructor; simpl; lia.
  - repeat constructor; simpl; lia.
  - vm_compute. reflexivity.
  - vm_compute. reflexivity.
  - repeat constructor.
  - repeat constructor.
  - repeat constructor.
Defined.

(** * From the instance to the solution *)

Lemma cobertura_rotas_sem_repeticao (rotas : list rota) (servicos : list servico) :
  cobertura rotas servicos → Forall (λ r, NoDup (id_servico <$> r)) rotas.
Proof.
  intros [Hnd _]. apply Forall_forall. intros r Hr.
  apply list_elem_of_split in Hr as (l1 & l2 & ->).
  unfold ids_nas_rotas in Hnd. rewrite join_app in Hnd. simpl in Hnd.
  rewrite !fmap_app in Hnd.
  apply NoDup_app in Hnd as (_ & _ & Hnd). by apply NoDup_app in Hnd as (Hnd & _ & _).
Qed.

(** X28: on the services [extrair_servicos] returns, whatever the instance,
    the matrix and the capacity, a run of the driver with a pool and at
    least one trial ends with an incumbent; its routes hold the ids of the
    services, each once, so no route repeats a service. *)
Theorem processar_instancia_cobre (R : prng) (dados : Leitor.dados_leitura) (dep : Z)
    (m : matriz) (cap : Z) (k n : nat) (relogio : nat → Z) (g : estado R) :
  let servicos := Leitor.extrair_servicos dados in
  ∃ fuel0 mel g' rotas,
    (∀ fuel, (fuel0 ≤ fuel)%nat →
       multi_start_melhor R servicos dep m cap servicos (S k) relogio fuel (S n) g
       = Ok (mel, g'))
    ∧ melhor_rotas mel = Some rotas
    ∧ cobertura rotas servicos
    ∧ Forall (λ r, NoDup (id_servico <$> r)) rotas.
Proof.
  intros servicos.
  destruct (multi_start_melhor_retorna R servicos dep m cap k n relogio g
              (extrair_servicos_sem_repetidos dados))
    as (fuel0 & mel & g' & rotas & Hrun & Hmel).
  exists fuel0, mel, g', rotas.
  assert (cobertura rotas servicos) as Hcob.
  { apply (multi_start_melhor_cobertura _ _ _ _ _ _ _ _ _ _ _ _ _ (Hrun fuel0 ltac:(done))).
    done. }
  split_and!; [done|done|done|]. by eapply cobertura_rotas_sem_repeticao.
Qed.
